(** * regl-graph: picking, interaction state and data loading of [ReglGraph]

    A shallow embedding of the JavaScript class [ReglGraph] (imported as
    [./graph/graph]; its text is in [src/graph/shaders/point.fs], from the
    line [export default class ReglGraph] on) and of the calls it makes
    to gl-matrix, KDBush, ngraph.graph and d3.

    JavaScript numbers are IEEE-754 binary64 values: they are Rocq's
    primitive floats here, so every definition runs, [NaN], the infinities
    and the two zeros included.  A call that may throw returns a
    [Js.completion]; what a call that throws leaves behind in the object
    is not kept.  The events a call raises and the frames it renders are
    appended to the [trace] of the object. *)

From Stdlib Require Import ZArith List String Ascii Bool Lia Floats.
Import ListNotations.

(** ** JavaScript numbers *)

Module Js.

Local Open Scope float_scope.

(** A JavaScript number is a binary64 value. *)
Abbreviation number := float (only parsing).

(** [Number.isFinite]. *)
Definition isFinite (x : number) : bool :=
  match classify x with
  | NaN | PInf | NInf => false
  | _ => true
  end.

(** [ToBoolean] on a number: [+0], [-0] and [NaN] are falsy. *)
Definition truthy (x : number) : bool := negb (is_zero x || is_nan x).

(** [x ** 2]: the square is computed as a correctly rounded product. *)
Definition sq (x : number) : number := x * x.

(** The integer [z] as a number (rounded when it needs more than 53 bits). *)
Definition of_Z (z : Z) : number :=
  SF2Prim (binary_normalize prec emax z 0 false).

Definition of_nat (n : nat) : number := of_Z (Z.of_nat n).

(** [Math.fround]: the value a [Float32Array] slot holds once [x] is stored. *)
Definition fround (x : number) : number :=
  match Prim2SF x with
  | S754_finite s m e => SF2Prim (binary_round 24 128 s m e)
  | _ => x
  end.

(** [Math.round]: the integer nearest to [x], halves going up. *)
Definition Math_round (x : number) : number :=
  match Prim2SF x with
  | S754_finite s m e =>
      if (0 <=? e)%Z then x
      else
        let n := ((cond_Zopp s (Zpos m) * 2 + 2 ^ (- e)) / 2 ^ (1 - e))%Z in
        if (n =? 0)%Z then (if s then neg_zero else zero) else of_Z n
  | _ => x
  end.

(** [Math.ceil]. *)
Definition Math_ceil (x : number) : number :=
  match Prim2SF x with
  | S754_finite s m e =>
      if (0 <=? e)%Z then x
      else
        let n := (- ((- cond_Zopp s (Zpos m)) / 2 ^ (- e)))%Z in
        if (n =? 0)%Z then (if s then neg_zero else zero) else of_Z n
  | _ => x
  end.

(** [Math.min] on two numbers. *)
Definition Math_min (a b : number) : number :=
  if is_nan a || is_nan b then nan
  else if a <? b then a
  else if b <? a then b
  else if get_sign a then a else b.

(** [Math.log2].  ECMAScript leaves its precision to the implementation;
    this model is exact on the powers of two and sums the series of
    [atanh] elsewhere.  [ReglGraph] only ever calls it on [1]. *)
Fixpoint atanh_series (k : nat) (t2 pw n : number) : number :=
  match k with
  | O => 0
  | S k' => pw / n + atanh_series k' t2 (pw * t2) (n + 2)
  end.

Definition Math_log2 (x : number) : number :=
  if is_nan x || (x <? 0) then nan
  else if is_zero x then neg_infinity
  else if is_infinity x then infinity
  else
    let (m, e) := Z.frexp x in
    let m' := m * 2 in
    let t := (m' - 1) / (m' + 1) in
    of_Z (e - 1) + 2 * atanh_series 20 (t * t) t 1 / 0x1.62e42fefa39efp-1.

(** The outcome of running a piece of JavaScript: a value or a thrown error. *)
Inductive completion (A : Type) : Type :=
| Normal (a : A)
| Throw (msg : string).
Arguments Normal {A} a.
Arguments Throw {A} msg.

Definition bind {A B} (c : completion A) (k : A -> completion B) : completion B :=
  match c with
  | Normal a => k a
  | Throw msg => Throw msg
  end.

Definition throws {A} (c : completion A) : bool :=
  match c with Normal _ => false | Throw _ => true end.

End Js.

Notation "x <- c ;; k" := (Js.bind c (fun x => k))
  (at level 61, c at next level, right associativity).

Local Open Scope string_scope.
Local Open Scope float_scope.
Local Open Scope list_scope.

(** ** gl-matrix: [mat3] and [vec3]

    A [mat3] is an array of nine numbers, stored column after column.
    The matrices of [ReglGraph] live in [Float32Array]s ([mat3.create()],
    [new Float32Array(9)]), so every slot written by a [mat3] function is
    rounded to single precision. *)

Module GlMatrix.

Record mat3 := Mat3 {
  a0 : Js.number; a1 : Js.number; a2 : Js.number;
  a3 : Js.number; a4 : Js.number; a5 : Js.number;
  a6 : Js.number; a7 : Js.number; a8 : Js.number
}.

(** Writing nine values into a [Float32Array]. *)
Definition store32 (m : mat3) : mat3 :=
  Mat3 (Js.fround (a0 m)) (Js.fround (a1 m)) (Js.fround (a2 m))
       (Js.fround (a3 m)) (Js.fround (a4 m)) (Js.fround (a5 m))
       (Js.fround (a6 m)) (Js.fround (a7 m)) (Js.fround (a8 m)).

(** [mat3.create()] and [mat3.identity(out)]. *)
Definition create : mat3 := Mat3 1 0 0 0 1 0 0 0 1.
Definition identity : mat3 := create.

(** [mat3.translate(out, a, [x, y])]. *)
Definition translate (a : mat3) (x y : Js.number) : mat3 :=
  store32 (Mat3 (a0 a) (a1 a) (a2 a)
                (a3 a) (a4 a) (a5 a)
                (x * a0 a + y * a3 a + a6 a)
                (x * a1 a + y * a4 a + a7 a)
                (x * a2 a + y * a5 a + a8 a)).

(** [mat3.scale(out, a, [x, y])]. *)
Definition scale (a : mat3) (x y : Js.number) : mat3 :=
  store32 (Mat3 (x * a0 a) (x * a1 a) (x * a2 a)
                (y * a3 a) (y * a4 a) (y * a5 a)
                (a6 a) (a7 a) (a8 a)).

(** [mat3.projection(out, width, height)]. *)
Definition projection (width height : Js.number) : mat3 :=
  store32 (Mat3 (2 / width) 0 0
                0 (-2 / height) 0
                (-1) 1 1).

(** [mat3.multiply(out, a, b)]. *)
Definition multiply (a b : mat3) : mat3 :=
  store32 (Mat3
    (a0 b * a0 a + a1 b * a3 a + a2 b * a6 a)
    (a0 b * a1 a + a1 b * a4 a + a2 b * a7 a)
    (a0 b * a2 a + a1 b * a5 a + a2 b * a8 a)
    (a3 b * a0 a + a4 b * a3 a + a5 b * a6 a)
    (a3 b * a1 a + a4 b * a4 a + a5 b * a7 a)
    (a3 b * a2 a + a4 b * a5 a + a5 b * a8 a)
    (a6 b * a0 a + a7 b * a3 a + a8 b * a6 a)
    (a6 b * a1 a + a7 b * a4 a + a8 b * a7 a)
    (a6 b * a2 a + a7 b * a5 a + a8 b * a8 a)).

(** The determinant [mat3.invert] computes before it decides. *)
Definition det (a : mat3) : Js.number :=
  let b01 := a8 a * a4 a - a5 a * a7 a in
  let b11 := - a8 a * a3 a + a5 a * a6 a in
  let b21 := a7 a * a3 a - a4 a * a6 a in
  a0 a * b01 + a1 a * b11 + a2 a * b21.

(** [mat3.invert(out, a)]: [null] ([None]) when [!det], that is when the
    determinant is zero or [NaN]. *)
Definition invert (a : mat3) : option mat3 :=
  let b01 := a8 a * a4 a - a5 a * a7 a in
  let b11 := - a8 a * a3 a + a5 a * a6 a in
  let b21 := a7 a * a3 a - a4 a * a6 a in
  let d := a0 a * b01 + a1 a * b11 + a2 a * b21 in
  if negb (Js.truthy d) then None
  else
    let d := 1 / d in
    Some (store32 (Mat3
      (b01 * d)
      ((- a8 a * a1 a + a2 a * a7 a) * d)
      ((a5 a * a1 a - a2 a * a4 a) * d)
      (b11 * d)
      ((a8 a * a0 a - a2 a * a6 a) * d)
      ((- a5 a * a0 a + a2 a * a3 a) * d)
      (b21 * d)
      ((- a7 a * a0 a + a1 a * a6 a) * d)
      ((a4 a * a0 a - a1 a * a3 a) * d))).

(** [vec3.transformMat3(out, a, m)] on a plain array [[x, y, z]]. *)
Definition transformMat3 (v : Js.number * Js.number * Js.number) (m : mat3)
  : Js.number * Js.number * Js.number :=
  let '(x, y, z) := v in
  (x * a0 m + y * a3 m + z * a6 m,
   x * a1 m + y * a4 m + z * a7 m,
   x * a2 m + y * a5 m + z * a8 m).

End GlMatrix.

(** ** KDBush: the static spatial index

    [new KDBush(points)] keeps the array it is given in [points] and answers
    [range(minX, minY, maxX, maxY)] with the indices of the points inside
    the box.  The order of the answer follows the k-d tree; [build] lists
    them by increasing index, which is the order KDBush gives for up to 64
    points (one leaf).  Everything proved about picking holds for every
    [range] function. *)

Module KDBush.

(** A render position [[x, y, index]]. *)
Definition position : Type := Js.number * Js.number * nat.

Record t := Make {
  points : list position;
  range : Js.number -> Js.number -> Js.number -> Js.number -> list nat
}.

Definition inside (minX minY maxX maxY : Js.number) (p : position) : bool :=
  let '(x, y, _) := p in
  (minX <=? x) && (x <=? maxX) && (minY <=? y) && (y <=? maxY).

Fixpoint scan (minX minY maxX maxY : Js.number) (i : nat) (ps : list position)
  : list nat :=
  match ps with
  | [] => []
  | p :: ps' =>
      if inside minX minY maxX maxY p
      then i :: scan minX minY maxX maxY (S i) ps'
      else scan minX minY maxX maxY (S i) ps'
  end.

Definition build (ps : list position) : t :=
  Make ps (fun minX minY maxX maxY => scan minX minY maxX maxY 0 ps).

End KDBush.

(** ** ngraph.graph: the adjacency store

    A node is created by [addNode(id, data)]; a link by
    [addLink(fromId, toId, data)].  [ReglGraph.loadData] reads
    [source.data.position] right after [addLink], which throws for an
    endpoint that [addLink] had to create (it has no data), so a store that
    [loadData] returns only holds nodes with data. *)

Module NGraph.

Definition node_id := string.

Record node_data := NodeData {
  color : option string;
  label : option string;
  y : option Js.number;
  x : option Js.number;
  index : nat;
  position : KDBush.position;
  size : Js.number;
  attributes : list (string * string)
}.

Record node := Node { id : node_id; data : node_data }.

Record link_data := LinkData {
  weight : Js.number;
  link_color : string;
  link_index : nat;
  link_attributes : list (string * string)
}.

Record link := Link { fromId : node_id; toId : node_id; ldata : link_data }.

Record t := Graph { nodes : list node; links : list link }.

Definition createGraph : t := Graph [] [].

Definition getNode (g : t) (nid : node_id) : option node :=
  find (fun n => String.eqb (id n) nid) (nodes g).

(** [addNode]: a known id keeps its place and takes the new data. *)
Definition addNode (g : t) (nid : node_id) (d : node_data) : t :=
  match getNode g nid with
  | Some _ =>
      Graph (map (fun n => if String.eqb (id n) nid then Node nid d else n)
                 (nodes g))
            (links g)
  | None => Graph (nodes g ++ [Node nid d]) (links g)
  end.

(** [addLink] between two nodes of the store. *)
Definition addLink (g : t) (from to : node_id) (d : link_data) : t :=
  Graph (nodes g) (links g ++ [Link from to d]).

(** The nodes [forEachLinkedNode(nodeId, callback)] hands to its callback,
    in order: for every link at [nodeId], the node at its other end
    (links are followed in both directions). *)
Definition linkedNodes (g : t) (nid : option node_id) : list node :=
  match nid with
  | None => []
  | Some nid =>
      match getNode g nid with
      | None => []
      | Some _ =>
          flat_map
            (fun l =>
               if String.eqb (fromId l) nid then
                 match getNode g (toId l) with Some n => [n] | None => [] end
               else if String.eqb (toId l) nid then
                 match getNode g (fromId l) with Some n => [n] | None => [] end
               else [])
            (links g)
      end
  end.

End NGraph.

(** ** The data handed to the constructor *)

Record PositionInput := { pos_x : option Js.number; pos_y : option Js.number }.

(** A node record [{id, label, x, y, position, size, color, attributes}];
    [None] is an absent field. *)
Record NodeInput := {
  node_id : NGraph.node_id;
  node_label : option string;
  node_x : option Js.number;
  node_y : option Js.number;
  node_position : option PositionInput;
  node_size : option Js.number;
  node_color : option string;
  node_attributes : option (list (string * string))
}.

(** An edge record [{sourceID, source, targetID, target, size, weight,
    color, attributes}]. *)
Record EdgeInput := {
  edge_sourceID : option NGraph.node_id;
  edge_source : option NGraph.node_id;
  edge_targetID : option NGraph.node_id;
  edge_target : option NGraph.node_id;
  edge_size : option Js.number;
  edge_weight : option Js.number;
  edge_color : option string;
  edge_attributes : option (list (string * string))
}.

(** [data]: [None] for a property the object does not have. *)
Record Data := {
  data_nodes : option (list NodeInput);
  data_edges : option (list EdgeInput)
}.

(** ** Settings and options *)

Record Settings := {
  graphMargin : Js.number;
  showEdges : bool;
  showEdgesOnMove : bool;
  nodesSizeRange : Js.number * Js.number;
  defaultNodesOpacity : Js.number;
  defaultEdgesOpacity : Js.number;
  defaultEdgesColor : string;
  edgesWeightRange : Js.number * Js.number;
  containerMargin : Js.number;
  zoomExtent : Js.number * Js.number;
  drawSelectedCircle : bool;
  selectedCircleColor : string;
  selectedCirclePoints : nat;
  tooltipAttributes : list string;
  log : bool
}.

(** The [options] argument: every key may be left out. *)
Record Options := {
  opt_graphMargin : option Js.number;
  opt_showEdges : option bool;
  opt_showEdgesOnMove : option bool;
  opt_nodesSizeRange : option (Js.number * Js.number);
  opt_defaultNodesOpacity : option Js.number;
  opt_defaultEdgesOpacity : option Js.number;
  opt_defaultEdgesColor : option string;
  opt_edgesWeightRange : option (Js.number * Js.number);
  opt_containerMargin : option Js.number;
  opt_zoomExtent : option (Js.number * Js.number);
  opt_drawSelectedCircle : option bool;
  opt_selectedCircleColor : option string;
  opt_selectedCirclePoints : option nat;
  opt_tooltipAttributes : option (list string);
  opt_log : option bool
}.

Definition no_options : Options :=
  Build_Options None None None None None None None None None None None None
                None None None.

Definition default_settings : Settings := {|
  graphMargin := 50;
  showEdges := true;
  showEdgesOnMove := false;
  nodesSizeRange := (5, 30);
  defaultNodesOpacity := 1;
  defaultEdgesOpacity := 0x1.999999999999ap-5;
  defaultEdgesColor := "#FFFFFF";
  edgesWeightRange := (1, 5);
  containerMargin := 0;
  zoomExtent := (1, 500);
  drawSelectedCircle := true;
  selectedCircleColor := "#dfff00";
  selectedCirclePoints := 30;
  tooltipAttributes := [];
  log := true
|}.

Definition or_default {A} (o : option A) (d : A) : A :=
  match o with Some a => a | None => d end.

(** [{...this.settings, ...options}]. *)
Definition merge_settings (s : Settings) (o : Options) : Settings := {|
  graphMargin := or_default (opt_graphMargin o) (graphMargin s);
  showEdges := or_default (opt_showEdges o) (showEdges s);
  showEdgesOnMove := or_default (opt_showEdgesOnMove o) (showEdgesOnMove s);
  nodesSizeRange := or_default (opt_nodesSizeRange o) (nodesSizeRange s);
  defaultNodesOpacity :=
    or_default (opt_defaultNodesOpacity o) (defaultNodesOpacity s);
  defaultEdgesOpacity :=
    or_default (opt_defaultEdgesOpacity o) (defaultEdgesOpacity s);
  defaultEdgesColor := or_default (opt_defaultEdgesColor o) (defaultEdgesColor s);
  edgesWeightRange := or_default (opt_edgesWeightRange o) (edgesWeightRange s);
  containerMargin := or_default (opt_containerMargin o) (containerMargin s);
  zoomExtent := or_default (opt_zoomExtent o) (zoomExtent s);
  drawSelectedCircle :=
    or_default (opt_drawSelectedCircle o) (drawSelectedCircle s);
  selectedCircleColor :=
    or_default (opt_selectedCircleColor o) (selectedCircleColor s);
  selectedCirclePoints :=
    or_default (opt_selectedCirclePoints o) (selectedCirclePoints s);
  tooltipAttributes := or_default (opt_tooltipAttributes o) (tooltipAttributes s);
  log := or_default (opt_log o) (log s)
|}.

(** ** The [ReglGraph] object *)

(** An entry of [matrices.nodeColors]: [glslColor(color, opacity)] for a
    node that names a colour, white otherwise.  The entry records the
    arguments of [glslColor]; [color_value] below gives what it holds. *)
Inductive color_entry :=
| GlslColor (css : string) (opacity : Js.number)
| White (opacity : Js.number).

(** [this.matrices].  [edgesPositionsByWeight] is a [Map]: keys in order of
    first insertion.  A key is the line width [loadData] computed: a
    number, or [undefined] ([None]). *)
Record Matrices := {
  nodesPositions : list KDBush.position;
  edgesPositionsByWeight : list (option Js.number * list KDBush.position);
  nodeColors : list color_entry;
  sizes : list Js.number
}.

(** [this.buffers]: a regl buffer is modelled by the data it was filled with. *)
Record Buffers := {
  buffers_nodes : option (list KDBush.position);
  buffers_edges : list (option Js.number * list KDBush.position)
}.

(** [this.state].  [hoveredNode] and [selectedNode] hold a node index or
    the sentinel [-1]. *)
Record State := {
  transform : GlMatrix.mat3;
  projection : GlMatrix.mat3;
  mousePosition : Js.number * Js.number;
  mouseDown : bool;
  hoveredNode : Z;
  hoverNeighbors : list nat;
  selectedNode : Z;
  selectedNeighbors : list nat;
  highlightedNodes : list nat;
  inAnimation : bool
}.

Inductive event_arg :=
| ArgNode (n : option NGraph.node)
| ArgClick (n : option NGraph.node)
| ArgZoom (x y k : Js.number).

(** What a call leaves behind for the outside world, in order: the events
    raised and the frames rendered, each with [this.state] as it was at
    that moment. *)
Inductive effect :=
| Raise (name : string) (arg : event_arg) (at_state : State)
| Render (at_state : State).

Record ReglGraph := {
  settings : Settings;
  app_width : Js.number;
  app_height : Js.number;
  app_graph : NGraph.t;
  app_nodeIndex : list NGraph.node_id;
  matrices : Matrices;
  searchIndex : KDBush.t;
  buffers : Buffers;
  state : State;
  devicePixelRatio : Js.number;
  tooltip_shown : option (option NGraph.node);
  cursor : string;
  trace : list effect
}.

(** *** Field updates *)

Definition with_state (g : ReglGraph) (s : State) : ReglGraph :=
  {| settings := settings g; app_width := app_width g;
     app_height := app_height g; app_graph := app_graph g;
     app_nodeIndex := app_nodeIndex g; matrices := matrices g;
     searchIndex := searchIndex g; buffers := buffers g; state := s;
     devicePixelRatio := devicePixelRatio g;
     tooltip_shown := tooltip_shown g; cursor := cursor g;
     trace := trace g |}.

Definition emit (g : ReglGraph) (e : effect) : ReglGraph :=
  {| settings := settings g; app_width := app_width g;
     app_height := app_height g; app_graph := app_graph g;
     app_nodeIndex := app_nodeIndex g; matrices := matrices g;
     searchIndex := searchIndex g; buffers := buffers g; state := state g;
     devicePixelRatio := devicePixelRatio g;
     tooltip_shown := tooltip_shown g; cursor := cursor g;
     trace := trace g ++ [e] |}.

Definition with_tooltip (g : ReglGraph) (t : option (option NGraph.node))
  : ReglGraph :=
  {| settings := settings g; app_width := app_width g;
     app_height := app_height g; app_graph := app_graph g;
     app_nodeIndex := app_nodeIndex g; matrices := matrices g;
     searchIndex := searchIndex g; buffers := buffers g; state := state g;
     devicePixelRatio := devicePixelRatio g;
     tooltip_shown := t; cursor := cursor g; trace := trace g |}.

Definition with_buffers (g : ReglGraph) (b : Buffers) : ReglGraph :=
  {| settings := settings g; app_width := app_width g;
     app_height := app_height g; app_graph := app_graph g;
     app_nodeIndex := app_nodeIndex g; matrices := matrices g;
     searchIndex := searchIndex g; buffers := b; state := state g;
     devicePixelRatio := devicePixelRatio g;
     tooltip_shown := tooltip_shown g; cursor := cursor g;
     trace := trace g |}.

(** [setCursorStyle(value)]. *)
Definition setCursorStyle (g : ReglGraph) (value : string) : ReglGraph :=
  {| settings := settings g; app_width := app_width g;
     app_height := app_height g; app_graph := app_graph g;
     app_nodeIndex := app_nodeIndex g; matrices := matrices g;
     searchIndex := searchIndex g; buffers := buffers g; state := state g;
     devicePixelRatio := devicePixelRatio g;
     tooltip_shown := tooltip_shown g; cursor := value; trace := trace g |}.

Definition set_transform (s : State) (t p : GlMatrix.mat3) : State :=
  {| transform := t; projection := p; mousePosition := mousePosition s;
     mouseDown := mouseDown s; hoveredNode := hoveredNode s;
     hoverNeighbors := hoverNeighbors s; selectedNode := selectedNode s;
     selectedNeighbors := selectedNeighbors s;
     highlightedNodes := highlightedNodes s; inAnimation := inAnimation s |}.

Definition set_mousePosition (s : State) (p : Js.number * Js.number) : State :=
  {| transform := transform s; projection := projection s; mousePosition := p;
     mouseDown := mouseDown s; hoveredNode := hoveredNode s;
     hoverNeighbors := hoverNeighbors s; selectedNode := selectedNode s;
     selectedNeighbors := selectedNeighbors s;
     highlightedNodes := highlightedNodes s; inAnimation := inAnimation s |}.

Definition set_mouseDown (s : State) (b : bool) : State :=
  {| transform := transform s; projection := projection s;
     mousePosition := mousePosition s; mouseDown := b;
     hoveredNode := hoveredNode s; hoverNeighbors := hoverNeighbors s;
     selectedNode := selectedNode s; selectedNeighbors := selectedNeighbors s;
     highlightedNodes := highlightedNodes s; inAnimation := inAnimation s |}.

Definition set_inAnimation (s : State) (b : bool) : State :=
  {| transform := transform s; projection := projection s;
     mousePosition := mousePosition s; mouseDown := mouseDown s;
     hoveredNode := hoveredNode s; hoverNeighbors := hoverNeighbors s;
     selectedNode := selectedNode s; selectedNeighbors := selectedNeighbors s;
     highlightedNodes := highlightedNodes s; inAnimation := b |}.

Definition set_hoveredNode (s : State) (i : Z) : State :=
  {| transform := transform s; projection := projection s;
     mousePosition := mousePosition s; mouseDown := mouseDown s;
     hoveredNode := i; hoverNeighbors := hoverNeighbors s;
     selectedNode := selectedNode s; selectedNeighbors := selectedNeighbors s;
     highlightedNodes := highlightedNodes s; inAnimation := inAnimation s |}.

Definition set_hoverNeighbors (s : State) (l : list nat) : State :=
  {| transform := transform s; projection := projection s;
     mousePosition := mousePosition s; mouseDown := mouseDown s;
     hoveredNode := hoveredNode s; hoverNeighbors := l;
     selectedNode := selectedNode s; selectedNeighbors := selectedNeighbors s;
     highlightedNodes := highlightedNodes s; inAnimation := inAnimation s |}.

Definition set_selectedNode (s : State) (i : Z) : State :=
  {| transform := transform s; projection := projection s;
     mousePosition := mousePosition s; mouseDown := mouseDown s;
     hoveredNode := hoveredNode s; hoverNeighbors := hoverNeighbors s;
     selectedNode := i; selectedNeighbors := selectedNeighbors s;
     highlightedNodes := highlightedNodes s; inAnimation := inAnimation s |}.

Definition set_selectedNeighbors (s : State) (l : list nat) : State :=
  {| transform := transform s; projection := projection s;
     mousePosition := mousePosition s; mouseDown := mouseDown s;
     hoveredNode := hoveredNode s; hoverNeighbors := hoverNeighbors s;
     selectedNode := selectedNode s; selectedNeighbors := l;
     highlightedNodes := highlightedNodes s; inAnimation := inAnimation s |}.

Definition set_highlightedNodes (s : State) (l : list nat) : State :=
  {| transform := transform s; projection := projection s;
     mousePosition := mousePosition s; mouseDown := mouseDown s;
     hoveredNode := hoveredNode s; hoverNeighbors := hoverNeighbors s;
     selectedNode := selectedNode s; selectedNeighbors := selectedNeighbors s;
     highlightedNodes := l; inAnimation := inAnimation s |}.

(** [this.state] as the constructor writes it; [projection], [null]
    there, is set by [init] before anything reads it. *)
Definition initial_state : State := {|
  transform := GlMatrix.create;
  projection := GlMatrix.create;
  mousePosition := (0, 0);
  mouseDown := false;
  hoveredNode := (-1)%Z;
  hoverNeighbors := [];
  selectedNode := (-1)%Z;
  selectedNeighbors := [];
  highlightedNodes := [];
  inAnimation := false
|}.

(** ** Coordinates and picking *)

(** [maxNumber(a, b)] and [minNumber(a, b)]. *)
Definition maxNumber (a b : Js.number) : Js.number := if b <? a then a else b.
Definition minNumber (a b : Js.number) : Js.number := if a <? b then a else b.

(** [distance(x1, y1, x2, y2)]. *)
Definition distance (x1 y1 x2 y2 : Js.number) : Js.number :=
  sqrt (Js.sq (x1 - x2) + Js.sq (y1 - y2)).

(** [getNdcX(x)] and [getNdcY(y)]. *)
Definition getNdcX (g : ReglGraph) (x : Js.number) : Js.number :=
  -1 + (x / app_width g) * 2.

Definition getNdcY (g : ReglGraph) (y : Js.number) : Js.number :=
  1 + (y / app_height g) * -2.

(** [getMouseGlPos()]. *)
Definition getMouseGlPos (g : ReglGraph) : Js.number * Js.number :=
  (getNdcX g (fst (mousePosition (state g))),
   getNdcY g (snd (mousePosition (state g)))).

(** [getScatterGlPos(pos)]: [pos ?? this.getMouseGlPos()] is taken through
    the inverse of [projection * transform], or through the identity when
    [mat3.invert] answers [null]. *)
Definition getScatterGlPos (g : ReglGraph) (pos : option (Js.number * Js.number))
  : Js.number * Js.number :=
  let '(xGl, yGl) := match pos with Some p => p | None => getMouseGlPos g end in
  let v := (xGl, yGl, 1) in
  let mvp :=
    match GlMatrix.invert
            (GlMatrix.multiply (projection (state g)) (transform (state g)))
    with
    | Some m => m
    | None => GlMatrix.Mat3 1 0 0 0 1 0 0 0 1
    end in
  let '(x, y, _) := GlMatrix.transformMat3 v mvp in
  (x, y).

(** The radius [raycast] searches in ([scaledPointSize]). *)
Definition scaledPointSize (g : ReglGraph) : Js.number :=
  let pointSize := 1000 in
  let scaling := 1 in
  5 * pointSize *
  (minNumber 1 scaling + Js.Math_log2 (maxNumber 1 scaling)) *
  devicePixelRatio g.

(** The candidates [raycast] gets from the index ([pointsInBBox]). *)
Definition pointsInBBox (g : ReglGraph) : list nat :=
  let '(mouseX, mouseY) := getScatterGlPos g None in
  let xNormalizedScaledPointSize := scaledPointSize g / app_width g in
  let yNormalizedScaledPointSize := scaledPointSize g / app_height g in
  KDBush.range (searchIndex g)
    (mouseX - xNormalizedScaledPointSize)
    (mouseY - yNormalizedScaledPointSize)
    (mouseX + xNormalizedScaledPointSize)
    (mouseY + yNormalizedScaledPointSize).

(** The distance from the cursor to point [idx]; reading a point that is not
    in the index throws ([const [x, y] = undefined]). *)
Definition point_distance (g : ReglGraph) (idx : nat) : Js.completion Js.number :=
  let '(mouseX, mouseY) := getScatterGlPos g None in
  match nth_error (KDBush.points (searchIndex g)) idx with
  | Some (x, y, _) => Js.Normal (distance x y mouseX mouseY)
  | None => Js.Throw "TypeError: undefined is not iterable"
  end.

(** The loop of [raycast]: [acc] is [(minDist, closestPoint)]. *)
Fixpoint closest (g : ReglGraph) (candidates : list nat)
  (acc : Js.number * option nat) : Js.completion (Js.number * option nat) :=
  match candidates with
  | [] => Js.Normal acc
  | idx :: rest =>
      d <- point_distance g idx ;;
      closest g rest (if d <? fst acc then (d, Some idx) else acc)
  end.

(** [raycast()]: the index of the point found, or [undefined] ([None]). *)
Definition raycast (g : ReglGraph) : Js.completion (option nat) :=
  r <- closest g (pointsInBBox g) (scaledPointSize g, None) ;;
  Js.Normal (snd r).

(** ** Interaction state *)

(** [this.app.nodeIndex.get(index)]. *)
Definition nodeIndex_get (g : ReglGraph) (index : Z) : option NGraph.node_id :=
  if (index <? 0)%Z then None else nth_error (app_nodeIndex g) (Z.to_nat index).

(** [getNodeByIndex(index)]. *)
Definition getNodeByIndex (g : ReglGraph) (index : Z) : option NGraph.node :=
  match nodeIndex_get g index with
  | Some nid => NGraph.getNode (app_graph g) nid
  | None => None
  end.

(** [getNodeNeighbors(nodeID, true)]: the indices of the linked nodes. *)
Definition getNodeNeighbors (g : ReglGraph) (nodeID : option NGraph.node_id)
  : list nat :=
  map (fun n => NGraph.index (NGraph.data n))
      (NGraph.linkedNodes (app_graph g) nodeID).

(** [raiseEvent(eventName, args)]. *)
Definition raiseEvent (g : ReglGraph) (eventName : string) (args : event_arg)
  : ReglGraph :=
  emit g (Raise eventName args (state g)).

(** [hoveredNodeWatcher(value, oldValue)]. *)
Definition hoveredNodeWatcher (g : ReglGraph) (value oldValue : Z) : ReglGraph :=
  if (value =? -1)%Z && negb (oldValue =? -1)%Z
  then raiseEvent g "nodeout" (ArgNode (getNodeByIndex g oldValue))
  else raiseEvent g "nodeover" (ArgNode (getNodeByIndex g value)).

(** [set('state.hoveredNode', value)]: the one watched path. *)
Definition set_state_hoveredNode (g : ReglGraph) (value : Z) : ReglGraph :=
  let oldValue := hoveredNode (state g) in
  if (oldValue =? value)%Z then g
  else hoveredNodeWatcher (with_state g (set_hoveredNode (state g) value))
                          value oldValue.

(** [setHoverNeighbors(index = null)]. *)
Definition setHoverNeighbors (g : ReglGraph) (index : option Z) : ReglGraph :=
  match index with
  | Some index =>
      let nodeIndexes := getNodeNeighbors g (nodeIndex_get g index) in
      with_state g (set_hoverNeighbors (state g) nodeIndexes)
  | None => with_state g (set_hoverNeighbors (state g) [])
  end.

(** [setSelectedNeighbors(index = null)]. *)
Definition setSelectedNeighbors (g : ReglGraph) (index : option Z) : ReglGraph :=
  match index with
  | Some index =>
      let nodeIndexes := getNodeNeighbors g (nodeIndex_get g index) in
      with_state g (set_selectedNeighbors (state g) nodeIndexes)
  | None => with_state g (set_selectedNeighbors (state g) [])
  end.

(** The index a list of ids resolves to; an unknown id throws
    ([getNode(id)] is [undefined]). *)
Fixpoint resolve_ids (gr : NGraph.t) (ids : list NGraph.node_id)
  : Js.completion (list nat) :=
  match ids with
  | [] => Js.Normal []
  | i :: rest =>
      match NGraph.getNode gr i with
      | Some n =>
          r <- resolve_ids gr rest ;;
          Js.Normal (NGraph.index (NGraph.data n) :: r)
      | None => Js.Throw "TypeError: Cannot read properties of undefined (reading 'data')"
      end
  end.

(** A mouse event, with the bounding rectangle of its target. *)
Record MouseEvent := {
  clientX : Js.number;
  clientY : Js.number;
  rect_left : Js.number;
  rect_top : Js.number
}.

(** [getRelativeMousePosition(event)]. *)
Definition getRelativeMousePosition (event : MouseEvent) : Js.number * Js.number :=
  (clientX event - rect_left event, clientY event - rect_top event).

(** [ToBoolean] on what [raycast] returns: [undefined] and [0] are falsy. *)
Definition truthy_index (closestPoint : option nat) : bool :=
  match closestPoint with
  | Some (S _) => true
  | _ => false
  end.

Definition index_value (closestPoint : option nat) : option Z :=
  option_map Z.of_nat closestPoint.

(** [reset()]: the flag is raised and a transition to the identity zoom
    is started; its steps arrive later as zoom events. *)
Definition reset (g : ReglGraph) : ReglGraph :=
  with_state g (set_inAnimation (state g) true).

(** [handleMouseDown(event)]. *)
Definition handleMouseDown (g : ReglGraph) : ReglGraph :=
  with_state g (set_mouseDown (state g) true).

(** [updateTransform(x, y, scale)]. *)
Definition updateTransform (g : ReglGraph) (x y scale : Js.number) : ReglGraph :=
  let t := GlMatrix.identity in
  let t := GlMatrix.translate t x y in
  let t := GlMatrix.scale t scale scale in
  let t := GlMatrix.translate t 0 0 in
  with_state g (set_transform (state g) t
                  (GlMatrix.projection (app_width g) (app_height g))).

(** ** d3: [extent] and [scaleLinear] *)

Module D3.

(** [d3.extent(values)]: the smallest and the largest of the values that
    are neither [undefined] nor [NaN]. *)
Definition extent_step (acc : option Js.number * option Js.number)
  (v : option Js.number) : option Js.number * option Js.number :=
  match v with
  | None => acc
  | Some value =>
      match acc with
      | (Some mn, Some mx) =>
          (Some (if value <? mn then value else mn),
           Some (if mx <? value then value else mx))
      | _ => if value <=? value then (Some value, Some value) else acc
      end
  end.

Definition extent (values : list (option Js.number))
  : option Js.number * option Js.number :=
  fold_left extent_step values (None, None).

(** A linear scale: [scaleLinear().domain(d).range(r)], or
    [.rangeRound(r)] when [round] is set. *)
Record scale := {
  domain : Js.number * Js.number;
  range : Js.number * Js.number;
  round : bool
}.

(** [+x] on a domain bound. *)
Definition number (x : option Js.number) : Js.number :=
  match x with Some v => v | None => nan end.

Definition scaleLinear (d : option Js.number * option Js.number)
  (r : Js.number * Js.number) (rnd : bool) : scale :=
  {| domain := (number (fst d), number (snd d)); range := r; round := rnd |}.

(** [normalize(a, b)(x)]: a degenerate domain answers a constant and never
    divides. *)
Definition normalize (a b x : Js.number) : Js.number :=
  let b := b - a in
  if Js.truthy b then (x - a) / b
  else if is_nan b then nan else 0x1p-1.

(** [interpolateNumber(a, b)(t)] and [interpolateRound(a, b)(t)]. *)
Definition interpolate (rnd : bool) (a b t : Js.number) : Js.number :=
  let v := a * (1 - t) + b * t in
  if rnd then Js.Math_round v else v.

(** [scale(x)] as a number.  For an input that is [undefined] or [NaN] d3
    answers [undefined]; a reader that computes with the scaled value
    turns that into [NaN], which stands for it here.  Where the value is
    used as the key of a [Map], [answer] keeps the two apart. *)
Definition apply (s : scale) (x : option Js.number) : Js.number :=
  match x with
  | None => nan
  | Some x =>
      if is_nan x then nan
      else
        let '(d0, d1) := domain s in
        let '(r0, r1) := range s in
        if d1 <? d0
        then interpolate (round s) r1 r0 (normalize d1 d0 x)
        else interpolate (round s) r0 r1 (normalize d0 d1 x)
  end.

(** [scale(x)] itself: [None] is the [undefined] d3 answers for an input
    that is [undefined] or [NaN]. *)
Definition answer (s : scale) (x : option Js.number) : option Js.number :=
  match x with
  | None => None
  | Some v => if is_nan v then None else Some (apply s x)
  end.

End D3.

(** ** Loading the data *)

(** [a || b] on two optional ids (the empty string is falsy). *)
Definition first_truthy (a b : option NGraph.node_id) : option NGraph.node_id :=
  match a with
  | Some s => if String.eqb s "" then b else Some s
  | None => b
  end.

(** [node.x ? node.x : node.position.x]: a number that is [0] or [NaN] is
    falsy, like an absent one, and reading [position.x] throws when the
    record has no [position]. *)
Definition coordinate (v : option Js.number) (p : option PositionInput)
  (field : PositionInput -> option Js.number)
  : Js.completion (option Js.number) :=
  match v with
  | Some n =>
      if Js.truthy n then Js.Normal (Some n)
      else match p with
           | Some p => Js.Normal (field p)
           | None => Js.Throw "TypeError: Cannot read properties of undefined"
           end
  | None =>
      match p with
      | Some p => Js.Normal (field p)
      | None => Js.Throw "TypeError: Cannot read properties of undefined"
      end
  end.

Definition node_coordinate_x (node : NodeInput) :=
  coordinate (node_x node) (node_position node) pos_x.

Definition node_coordinate_y (node : NodeInput) :=
  coordinate (node_y node) (node_position node) pos_y.

(** [v < lo] and [v > hi] with [v] possibly [undefined] (never true then). *)
Definition widen (e : Js.number * Js.number) (v : option Js.number)
  : Js.number * Js.number :=
  match v with
  | None => e
  | Some v =>
      let lo := if v <? fst e then v else fst e in
      let hi := if snd e <? v then v else snd e in
      (lo, hi)
  end.

Record Extents := {
  ext_size : Js.number * Js.number;
  ext_x : Js.number * Js.number;
  ext_y : Js.number * Js.number;
  ext_weight : option Js.number * option Js.number
}.

(** The first [nodes.forEach] of [loadData]. *)
Fixpoint node_extents (nodes : list NodeInput) (e : Extents)
  : Js.completion Extents :=
  match nodes with
  | [] => Js.Normal e
  | node :: rest =>
      let size := widen (ext_size e) (node_size node) in
      x <- node_coordinate_x node ;;
      y <- node_coordinate_y node ;;
      node_extents rest
        {| ext_size := size; ext_x := widen (ext_x e) x;
           ext_y := widen (ext_y e) y; ext_weight := ext_weight e |}
  end.

(** The weight extent: read from [size] when the first edge has a truthy
    [size], from [weight] otherwise; [[0, 1]] when the first edge has
    neither.  [edges[0]] of an empty array is [undefined]. *)
Definition weight_extent (edges : list EdgeInput)
  : Js.completion (option Js.number * option Js.number) :=
  match edges with
  | [] => Js.Throw "TypeError: Cannot read properties of undefined (reading 'size')"
  | e0 :: _ =>
      match edge_size e0, edge_weight e0 with
      | None, None => Js.Normal (Some 0, Some 1)
      | _, _ =>
          let weightName :=
            match edge_size e0 with
            | Some s => if Js.truthy s then edge_size else edge_weight
            | None => edge_weight
            end in
          Js.Normal (D3.extent (map weightName edges))
      end
  end.

(** [layoutAspectRatio(xExtent, yExtent)]. *)
Definition layoutAspectRatio (s : Settings) (width height : Js.number)
  (xExtent yExtent : Js.number * Js.number) : Js.number * Js.number :=
  let graphMargin := graphMargin s in
  let factorX := (width - graphMargin * 2) / Js.Math_ceil (snd xExtent - fst xExtent) in
  let factorY := (height - graphMargin * 2) / Js.Math_ceil (snd yExtent - fst yExtent) in
  let factor := Js.Math_min factorX factorY in
  let marginXIncrease :=
    ((width - graphMargin * 2) - (factor * Js.Math_ceil (snd xExtent - fst xExtent))) / 2 in
  let marginYIncrease :=
    ((height - graphMargin * 2) - (factor * Js.Math_ceil (snd yExtent - fst yExtent))) / 2 in
  (marginXIncrease, marginYIncrease).

Record Scales := {
  scale_size : D3.scale;
  scale_x : D3.scale;
  scale_y : D3.scale;
  scale_weight : D3.scale
}.

(** [extents.weight[0] === extents.weight[1]]. *)
Definition strict_equal (a b : option Js.number) : bool :=
  match a, b with
  | None, None => true
  | Some a, Some b => a =? b
  | _, _ => false
  end.

Definition make_scales (s : Settings) (width height : Js.number) (e : Extents)
  : Scales :=
  let graphMargin := graphMargin s in
  let '(marginXIncrease, marginYIncrease) :=
    layoutAspectRatio s width height (ext_x e) (ext_y e) in
  {| scale_size :=
       D3.scaleLinear (Some (fst (ext_size e)), Some (snd (ext_size e)))
                      (nodesSizeRange s) false;
     scale_x :=
       D3.scaleLinear (Some (fst (ext_x e)), Some (snd (ext_x e)))
         (graphMargin + marginXIncrease, width - graphMargin - marginXIncrease)
         false;
     scale_y :=
       D3.scaleLinear (Some (fst (ext_y e)), Some (snd (ext_y e)))
         (graphMargin + marginYIncrease, height - graphMargin - marginYIncrease)
         false;
     scale_weight :=
       D3.scaleLinear (ext_weight e)
         (if strict_equal (fst (ext_weight e)) (snd (ext_weight e))
          then (1, 1) else edgesWeightRange s)
         true |}.

(** What [loadData] builds: [app.graph], [app.nodeIndex], [matrices]. *)
Record Loaded := {
  loaded_graph : NGraph.t;
  loaded_nodeIndex : list NGraph.node_id;
  loaded_matrices : Matrices
}.

Definition node_color_entry (s : Settings) (node : NodeInput) : color_entry :=
  match node_color node with
  | Some c =>
      if String.eqb c "" then White (defaultNodesOpacity s)
      else GlslColor c (defaultNodesOpacity s)
  | None => White (defaultNodesOpacity s)
  end.

(** The body of the second [nodes.forEach((node, i) => ...)]. *)
Definition load_node (s : Settings) (sc : Scales) (acc : Loaded) (i : nat)
  (node : NodeInput) : Js.completion Loaded :=
  x <- node_coordinate_x node ;;
  y <- node_coordinate_y node ;;
  let position := (D3.apply (scale_x sc) x, D3.apply (scale_y sc) y, i) in
  let size := D3.apply (scale_size sc) (node_size node) in
  let m := loaded_matrices acc in
  Js.Normal
    {| loaded_graph :=
         NGraph.addNode (loaded_graph acc) (node_id node)
           (NGraph.NodeData (node_color node) (node_label node) y x i position
              size (or_default (node_attributes node) []));
       loaded_nodeIndex := loaded_nodeIndex acc ++ [node_id node];
       loaded_matrices :=
         {| nodesPositions := nodesPositions m ++ [position];
            edgesPositionsByWeight := edgesPositionsByWeight m;
            nodeColors := nodeColors m ++ [node_color_entry s node];
            sizes := sizes m ++ [size] |} |}.

Fixpoint load_nodes (s : Settings) (sc : Scales) (nodes : list NodeInput)
  (i : nat) (acc : Loaded) : Js.completion Loaded :=
  match nodes with
  | [] => Js.Normal acc
  | node :: rest =>
      acc <- load_node s sc acc i node ;;
      load_nodes s sc rest (S i) acc
  end.

(** Keys of a [Map] are compared by SameValueZero. *)
Definition same_key (a b : Js.number) : bool :=
  (a =? b) || (is_nan a && is_nan b).

(** The same on keys that are a number or [undefined]. *)
Definition same_map_key (a b : option Js.number) : bool :=
  match a, b with
  | Some a, Some b => same_key a b
  | None, None => true
  | _, _ => false
  end.

(** The key [Map.prototype.set] stores: [+0] for [-0]. *)
Definition stored_key (w : option Js.number) : option Js.number :=
  match w with
  | Some v => if v =? 0 then Some 0 else Some v
  | None => None
  end.

(** [if (!map.has(w)) map.set(w, []); map.get(w).push(p); map.get(w).push(q)]. *)
Fixpoint bucket_push (m : list (option Js.number * list KDBush.position))
  (w : option Js.number) (p q : KDBush.position)
  : list (option Js.number * list KDBush.position) :=
  match m with
  | [] => [(stored_key w, [p; q])]
  | (k, v) :: rest =>
      if same_map_key k w then (k, v ++ [p; q]) :: rest
      else (k, v) :: bucket_push rest w p q
  end.

(** The line width of an edge: its [size], else its [weight], through the
    weight scale; [1] when it has neither.  As a number ([NaN] for
    [undefined]). *)
Definition edge_width (sc : Scales) (edge : EdgeInput) : Js.number :=
  match edge_size edge with
  | Some s => D3.apply (scale_weight sc) (Some s)
  | None =>
      match edge_weight edge with
      | Some w => D3.apply (scale_weight sc) (Some w)
      | None => 1
      end
  end.

(** The same line width as the code holds it ([weight]): [None] where the
    scale answers [undefined]. *)
Definition edge_key (sc : Scales) (edge : EdgeInput) : option Js.number :=
  match edge_size edge with
  | Some s => D3.answer (scale_weight sc) (Some s)
  | None =>
      match edge_weight edge with
      | Some w => D3.answer (scale_weight sc) (Some w)
      | None => Some 1
      end
  end.

(** The body of [edges.forEach((edge, i) => ...)]. *)
Definition load_edge (s : Settings) (sc : Scales) (acc : Loaded) (i : nat)
  (edge : EdgeInput) : Js.completion Loaded :=
  let weight := edge_width sc edge in
  let color := or_default (edge_color edge) (defaultEdgesColor s) in
  match first_truthy (edge_sourceID edge) (edge_source edge),
        first_truthy (edge_targetID edge) (edge_target edge) with
  | Some from, Some to =>
      let gr := NGraph.addLink (loaded_graph acc) from to
                  (NGraph.LinkData weight color i
                     (or_default (edge_attributes edge) [])) in
      match NGraph.getNode (loaded_graph acc) from,
            NGraph.getNode (loaded_graph acc) to with
      | Some source, Some target =>
          let m := loaded_matrices acc in
          Js.Normal
            {| loaded_graph := gr;
               loaded_nodeIndex := loaded_nodeIndex acc;
               loaded_matrices :=
                 {| nodesPositions := nodesPositions m;
                    edgesPositionsByWeight :=
                      bucket_push (edgesPositionsByWeight m) (edge_key sc edge)
                        (NGraph.position (NGraph.data source))
                        (NGraph.position (NGraph.data target));
                    nodeColors := nodeColors m;
                    sizes := sizes m |} |}
      | _, _ =>
          Js.Throw "TypeError: Cannot read properties of undefined (reading 'position')"
      end
  | _, _ => Js.Throw "Error: Invalid node identifier"
  end.

Fixpoint load_edges (s : Settings) (sc : Scales) (edges : list EdgeInput)
  (i : nat) (acc : Loaded) : Js.completion Loaded :=
  match edges with
  | [] => Js.Normal acc
  | edge :: rest =>
      acc <- load_edge s sc acc i edge ;;
      load_edges s sc rest (S i) acc
  end.

Definition empty_loaded : Loaded :=
  {| loaded_graph := NGraph.createGraph;
     loaded_nodeIndex := [];
     loaded_matrices :=
       {| nodesPositions := []; edgesPositionsByWeight := [];
          nodeColors := []; sizes := [] |} |}.

(** The scales [loadData] computes from the two arrays. *)
Definition load_scales (s : Settings) (width height : Js.number)
  (nodes : list NodeInput) (edges : option (list EdgeInput))
  : Js.completion Scales :=
  w <- (if showEdges s then
          match edges with
          | Some edges => weight_extent edges
          | None => Js.Throw "TypeError: Cannot read properties of undefined"
          end
        else Js.Normal (Some infinity, Some neg_infinity)) ;;
  e <- node_extents nodes
         {| ext_size := (infinity, neg_infinity);
            ext_x := (infinity, neg_infinity);
            ext_y := (infinity, neg_infinity);
            ext_weight := w |} ;;
  Js.Normal (make_scales s width height e).

(** [loadData(data)], for a [data] that has [nodes]. *)
Definition loadData (s : Settings) (width height : Js.number)
  (nodes : list NodeInput) (edges : option (list EdgeInput))
  : Js.completion Loaded :=
  sc <- load_scales s width height nodes edges ;;
  acc <- load_nodes s sc nodes 0 empty_loaded ;;
  if showEdges s then
    match edges with
    | Some edges => load_edges s sc edges 0 acc
    | None => Js.Throw "TypeError: Cannot read properties of undefined"
    end
  else Js.Normal acc.

(** ** Regular expressions, as far as the colour patterns go

    A string is its sequence of code units; the patterns only tell apart
    code units below 256, which is all a Rocq string holds.  Matching is
    the backtracking search of ECMAScript: alternatives from left to
    right, quantifiers greedy. *)

Module RegExp.

Inductive re :=
| Empty
| Char (c : ascii)
| Class (p : ascii -> bool)
| Seq (a b : re)
| Alt (a b : re)
| Opt (a : re)
| Rep (a : re) (min max : nat)
| Group (i : nat) (a : re).

(** The captures of a match: [None] is a group that took no part. *)
Definition captures := list (option string).

Fixpoint set (i : nat) (v : string) (caps : captures) : captures :=
  match i, caps with
  | O, _ :: rest => Some v :: rest
  | S i', c :: rest => c :: set i' v rest
  | _, [] => []
  end.

Definition get (caps : captures) (i : nat) : option string :=
  match nth_error caps i with Some c => c | None => None end.

(** The part of [s] in front of its suffix [s']. *)
Definition consumed (s s' : string) : string :=
  substring 0 (String.length s - String.length s') s.

(** What is left to do after a part of the pattern has matched. *)
Definition continuation := string -> captures -> option captures.

(** [a{lo,hi}], greedy, for a matcher [ma] of [a]: one more [a] if that
    leads to a match, else none if [lo] allows it. *)
Fixpoint rep (ma : string -> captures -> continuation -> option captures)
  (lo hi : nat) (s : string) (caps : captures) (k : continuation)
  {struct hi} : option captures :=
  match hi with
  | O => if (lo =? 0)%nat then k s caps else None
  | S hi' =>
      match ma s caps (fun s' caps' => rep ma (Nat.pred lo) hi' s' caps' k) with
      | Some res => Some res
      | None => if (lo =? 0)%nat then k s caps else None
      end
  end.

(** [m r s caps k]: match [r] at the front of [s], then go on with [k]. *)
Fixpoint m (r : re) (s : string) (caps : captures) (k : continuation)
  {struct r} : option captures :=
  match r with
  | Empty => k s caps
  | Char c =>
      match s with
      | String c' s' => if Ascii.eqb c c' then k s' caps else None
      | EmptyString => None
      end
  | Class p =>
      match s with
      | String c' s' => if p c' then k s' caps else None
      | EmptyString => None
      end
  | Seq a b => m a s caps (fun s' caps' => m b s' caps' k)
  | Alt a b =>
      match m a s caps k with
      | Some res => Some res
      | None => m b s caps k
      end
  | Opt a =>
      match m a s caps k with
      | Some res => Some res
      | None => k s caps
      end
  | Rep a min max => rep (m a) min max s caps k
  | Group i a => m a s caps (fun s' caps' => k s' (set i (consumed s s') caps'))
  end.

(** Group [i] occurs in the pattern. *)
Fixpoint mentions (i : nat) (r : re) : bool :=
  match r with
  | Empty | Char _ | Class _ => false
  | Seq a b | Alt a b => mentions i a || mentions i b
  | Opt a | Rep a _ _ => mentions i a
  | Group j a => (i =? j)%nat || mentions i a
  end.

Definition seq (l : list re) : re := fold_right Seq Empty l.

Fixpoint lit (s : string) : re :=
  match s with
  | EmptyString => Empty
  | String c s' => Seq (Char c) (lit s')
  end.

(** [/^r$/.exec(s)] for a pattern with [groups] capturing groups: the
    captures (the whole match at index 0), or [null]. *)
Definition exec (groups : nat) (r : re) (s : string) : option captures :=
  m r s (repeat None (S groups))
    (fun s' caps =>
       match s' with
       | EmptyString => Some (set 0 s caps)
       | String _ _ => None
       end).

Definition test (groups : nat) (r : re) (s : string) : bool :=
  match exec groups r s with Some _ => true | None => false end.

(** *** Character classes *)

Definition code (c : ascii) : nat := nat_of_ascii c.

(** [\d] and [[0-9]]. *)
Definition digit (c : ascii) : bool := (48 <=? code c)%nat && (code c <=? 57)%nat.

(** [[0-1]]. *)
Definition bit (c : ascii) : bool := (48 <=? code c)%nat && (code c <=? 49)%nat.

(** [[a-fA-F0-9]], and [[a-f\d]] under the flag [i]. *)
Definition hexdigit (c : ascii) : bool :=
  digit c
  || ((97 <=? code c)%nat && (code c <=? 102)%nat)
  || ((65 <=? code c)%nat && (code c <=? 70)%nat).

(** [\s] among the code units below 256. *)
Definition space (c : ascii) : bool :=
  ((9 <=? code c)%nat && (code c <=? 13)%nat)
  || (code c =? 32)%nat || (code c =? 160)%nat.

End RegExp.

(** ** Colours *)

(** [parseInt(string, radix)]; [None] is [undefined] (an absent capture,
    an absent radix). *)
Module ParseInt.

Definition digit_value (c : ascii) : option nat :=
  let n := nat_of_ascii c in
  if (48 <=? n)%nat && (n <=? 57)%nat then Some (n - 48)%nat
  else if (97 <=? n)%nat && (n <=? 122)%nat then Some (n - 87)%nat
  else if (65 <=? n)%nat && (n <=? 90)%nat then Some (n - 55)%nat
  else None.

Fixpoint skip_space (s : string) : string :=
  match s with
  | String c s' => if RegExp.space c then skip_space s' else s
  | EmptyString => s
  end.

(** The value of the longest prefix of digits of radix [r], if there is
    a digit at all. *)
Fixpoint digits (r : nat) (s : string) (acc : option Z) : option Z :=
  match s with
  | String c s' =>
      match digit_value c with
      | Some d =>
          if (d <? r)%nat
          then digits r s' (Some (Z.of_nat r * match acc with
                                                | Some a => a
                                                | None => 0
                                                end + Z.of_nat d)%Z)
          else acc
      | None => acc
      end
  | EmptyString => acc
  end.

Definition strip_sign (s : string) : bool * string :=
  match s with
  | String "-" s' => (true, s')
  | String "+" s' => (false, s')
  | _ => (false, s)
  end.

Definition strip_prefix (s : string) : option string :=
  match s with
  | String "0" (String "x" s') => Some s'
  | String "0" (String "X" s') => Some s'
  | _ => None
  end.

Definition parseInt (input : option string) (radix : option nat) : Js.number :=
  let inputString := match input with Some s => s | None => "undefined" end in
  let '(negative, s) := strip_sign (skip_space inputString) in
  let r := match radix with Some r => r | None => O end in
  if negb (r =? 0)%nat && ((r <? 2)%nat || (36 <? r)%nat) then nan
  else
    let '(r, s) :=
      if (r =? 0)%nat || (r =? 16)%nat then
        match strip_prefix s with
        | Some s' => (16%nat, s')
        | None => (if (r =? 0)%nat then 10%nat else r, s)
        end
      else (r, s) in
    match digits r s None with
    | None => nan
    | Some z => if negative then - Js.of_Z z else Js.of_Z z
    end.

End ParseInt.

(** A colour for the shaders: [[r, g, b, a]]. *)
Definition vec4 : Type := Js.number * Js.number * Js.number * Js.number.

(** The pattern [rgb] of [glslColor]: groups 1 to 3 belong to the form
    [rgb(...)], groups 4 to 7 to the form [rgba(...)]. *)
Definition rgb_pattern : RegExp.re :=
  let d13 := RegExp.Rep (RegExp.Class RegExp.digit) 1 3 in
  let sp := RegExp.Opt (RegExp.Class RegExp.space) in
  RegExp.Alt
    (RegExp.seq [RegExp.lit "rgb("; RegExp.Group 1 d13; RegExp.Char ",";
                 sp; RegExp.Group 2 d13; RegExp.Char ",";
                 sp; RegExp.Group 3 d13; RegExp.Char ")"])
    (RegExp.seq [RegExp.lit "rgba("; RegExp.Group 4 d13; RegExp.Char ",";
                 sp; RegExp.Group 5 d13; RegExp.Char ",";
                 sp; RegExp.Group 6 d13; RegExp.Char ",";
                 sp; RegExp.Group 7
                       (RegExp.Alt
                          (RegExp.seq [RegExp.Class RegExp.bit; RegExp.Char ".";
                                       RegExp.Class RegExp.digit])
                          (RegExp.Class RegExp.bit));
                 RegExp.Char ")"]).

(** The pattern [hex] of [glslColor]. *)
Definition hex_pattern : RegExp.re :=
  RegExp.Group 1
    (RegExp.Seq (RegExp.Char "#")
       (RegExp.Alt (RegExp.Rep (RegExp.Class RegExp.hexdigit) 3 3)
                   (RegExp.Rep (RegExp.Class RegExp.hexdigit) 6 6))).

(** [shorthandRegex] and the pattern of six digits of [hexToRgb]. *)
Definition shorthand_pattern : RegExp.re :=
  RegExp.seq [RegExp.Opt (RegExp.Char "#");
              RegExp.Group 1 (RegExp.Class RegExp.hexdigit);
              RegExp.Group 2 (RegExp.Class RegExp.hexdigit);
              RegExp.Group 3 (RegExp.Class RegExp.hexdigit)].

Definition full_pattern : RegExp.re :=
  RegExp.seq [RegExp.Opt (RegExp.Char "#");
              RegExp.Group 1 (RegExp.Rep (RegExp.Class RegExp.hexdigit) 2 2);
              RegExp.Group 2 (RegExp.Rep (RegExp.Class RegExp.hexdigit) 2 2);
              RegExp.Group 3 (RegExp.Rep (RegExp.Class RegExp.hexdigit) 2 2)].

(** [hexToRgb(hex)]: [{r, g, b}] or [null]. *)
Definition hexToRgb (hex : string)
  : option (Js.number * Js.number * Js.number) :=
  let hex :=
    match RegExp.exec 3 shorthand_pattern hex with
    | Some caps =>
        let r := match RegExp.get caps 1 with Some s => s | None => "" end in
        let g := match RegExp.get caps 2 with Some s => s | None => "" end in
        let b := match RegExp.get caps 3 with Some s => s | None => "" end in
        (r ++ r ++ g ++ g ++ b ++ b)%string
    | None => hex
    end in
  match RegExp.exec 3 full_pattern hex with
  | Some result =>
      Some (ParseInt.parseInt (RegExp.get result 1) (Some 16%nat),
            ParseInt.parseInt (RegExp.get result 2) (Some 16%nat),
            ParseInt.parseInt (RegExp.get result 3) (Some 16%nat))
  | None => None
  end.

(** [this.scaleRGBToVec4]: [scaleLinear().domain([0, 255]).range([0, 1])]. *)
Definition scaleRGBToVec4 (x : Js.number) : Js.number :=
  D3.apply (D3.scaleLinear (Some 0, Some 255) (0, 1) false) (Some x).

(** [glslColor(color, opacity)]: the colour as a [vec4], or [null]. *)
Definition glslColor (color : string) (opacity : Js.number) : option vec4 :=
  if RegExp.test 7 rgb_pattern color then
    match RegExp.exec 7 rgb_pattern color with
    | Some result =>
        Some (scaleRGBToVec4 (ParseInt.parseInt (RegExp.get result 1) None),
              scaleRGBToVec4 (ParseInt.parseInt (RegExp.get result 2) None),
              scaleRGBToVec4 (ParseInt.parseInt (RegExp.get result 3) None),
              opacity)
    | None => Some (1, 1, 1, opacity)
    end
  else if RegExp.test 1 hex_pattern color then
    match hexToRgb color with
    | Some (r, g, b) =>
        Some (scaleRGBToVec4 r, scaleRGBToVec4 g, scaleRGBToVec4 b, opacity)
    | None => Some (1, 1, 1, opacity)
    end
  else None.

(** What an entry of [matrices.nodeColors] holds. *)
Definition color_value (e : color_entry) : option vec4 :=
  match e with
  | GlslColor css opacity => glslColor css opacity
  | White opacity => Some (1, 1, 1, opacity)
  end.

(** ** The frame [render()] draws

    [render()] clears the stage and calls the regl commands of
    [commands.js] with the props below.  A regl buffer is the data it was
    made from; an array slot read past the end is [undefined] ([None] for
    a position or a colour, [NaN] for a size, as for the scales). *)

(** The props of [drawEdges]. *)
Record EdgesProps := {
  ep_points : list KDBush.position;
  ep_width : Js.number;
  ep_color : option vec4;
  ep_stageWidth : Js.number;
  ep_stageHeight : Js.number;
  ep_transform : GlMatrix.mat3;
  ep_projection : GlMatrix.mat3;
  ep_zoom : Js.number;
  ep_segments : Js.number;
  ep_hovered : Z;
  ep_selected : Z
}.

(** The props of [drawPoints]; the passes that redraw some nodes on top
    give no [selected]. *)
Record PointsProps := {
  pp_nodes : option (list (option KDBush.position));
  pp_length : nat;
  pp_colors : list (option vec4);
  pp_sizes : list Js.number;
  pp_stageWidth : Js.number;
  pp_stageHeight : Js.number;
  pp_transform : GlMatrix.mat3;
  pp_projection : GlMatrix.mat3;
  pp_zoom : Js.number;
  pp_hovered : Z;
  pp_selected : option Z;
  pp_highlighted : bool
}.

(** The props of [drawCircle]. *)
Record CircleProps := {
  cp_position : option KDBush.position;
  cp_points : nat;
  cp_color : option vec4;
  cp_size : Js.number;
  cp_transform : GlMatrix.mat3;
  cp_projection : GlMatrix.mat3;
  cp_zoom : Js.number
}.

Inductive draw_call :=
| Clear
| DrawEdges (props : EdgesProps)
| DrawPoints (props : PointsProps)
| DrawCircle (props : CircleProps).

(** [array[i]] for an index that may be [-1]. *)
Definition at_index {A} (l : list A) (i : Z) : option A :=
  if (i <? 0)%Z then None else nth_error l (Z.to_nat i).

(** [this.matrices.nodeColors[i]]: [None] for a slot that holds [null]
    or is not there. *)
Definition color_at (g : ReglGraph) (i : Z) : option vec4 :=
  match at_index (nodeColors (matrices g)) i with
  | Some e => color_value e
  | None => None
  end.

(** [this.matrices.sizes[i]]. *)
Definition size_at (g : ReglGraph) (i : Z) : Js.number :=
  match at_index (sizes (matrices g)) i with
  | Some v => v
  | None => nan
  end.

(** [[...this.matrices.nodeColors[i].slice(0, 3), 1.0]]: a [TypeError]
    when the slot holds [null] or is not there. *)
Definition opaque_color_at (g : ReglGraph) (i : Z) : Js.completion vec4 :=
  match at_index (nodeColors (matrices g)) i with
  | Some e =>
      match color_value e with
      | Some (r, gr, b, _) => Js.Normal (r, gr, b, 1)
      | None =>
          Js.Throw "TypeError: Cannot read properties of null (reading 'slice')"
      end
  | None =>
      Js.Throw "TypeError: Cannot read properties of undefined (reading 'slice')"
  end.

Fixpoint opaque_colors (g : ReglGraph) (l : list nat)
  : Js.completion (list vec4) :=
  match l with
  | [] => Js.Normal []
  | i :: rest =>
      c <- opaque_color_at g (Z.of_nat i) ;;
      cs <- opaque_colors g rest ;;
      Js.Normal (c :: cs)
  end.

(** [Map.prototype.get]. *)
Definition map_get (m : list (option Js.number * list KDBush.position))
  (k : option Js.number) : option (list KDBush.position) :=
  option_map snd (find (fun b => same_map_key (fst b) k) m).

(** The calls of [this.buffers.edges.forEach(...)]; the width is
    [Number(key)]. *)
Fixpoint edge_calls (g : ReglGraph)
  (bs : list (option Js.number * list KDBush.position))
  : Js.completion (list draw_call) :=
  match bs with
  | [] => Js.Normal []
  | (key, value) :: rest =>
      match map_get (edgesPositionsByWeight (matrices g)) key with
      | Some positions =>
          calls <- edge_calls g rest ;;
          Js.Normal
            (DrawEdges
               {| ep_points := value;
                  ep_width := D3.number key;
                  ep_color := glslColor (defaultEdgesColor (settings g))
                                        (defaultEdgesOpacity (settings g));
                  ep_stageWidth := app_width g;
                  ep_stageHeight := app_height g;
                  ep_transform := transform (state g);
                  ep_projection := projection (state g);
                  ep_zoom := GlMatrix.a0 (transform (state g));
                  ep_segments := Js.of_nat (List.length positions) / 2;
                  ep_hovered := hoveredNode (state g);
                  ep_selected := selectedNode (state g) |}
             :: calls)
      | None =>
          Js.Throw "TypeError: Cannot read properties of undefined (reading 'length')"
      end
  end.

(** The pass that redraws node [i] and its [neighbors] on top. *)
Definition overlay (g : ReglGraph) (i : Z) (neighbors : list nat)
  : Js.completion draw_call :=
  let hPositions :=
    at_index (nodesPositions (matrices g)) i
    :: map (fun j => nth_error (nodesPositions (matrices g)) j) neighbors in
  c <- opaque_color_at g i ;;
  cs <- opaque_colors g neighbors ;;
  let hColors := map Some (c :: cs) in
  let hSizes :=
    size_at g i * 0x1.199999999999ap+0
    :: map (fun j => size_at g (Z.of_nat j)) neighbors in
  Js.Normal
    (DrawPoints
       {| pp_nodes := Some hPositions;
          pp_length := List.length hPositions;
          pp_colors := hColors;
          pp_sizes := hSizes;
          pp_stageWidth := app_width g;
          pp_stageHeight := app_height g;
          pp_transform := transform (state g);
          pp_projection := projection (state g);
          pp_zoom := GlMatrix.a0 (transform (state g));
          pp_hovered := (-1)%Z;
          pp_selected := None;
          pp_highlighted := false |}).

(** [render()]: the calls it makes, in order. *)
Definition frame (g : ReglGraph) : Js.completion (list draw_call) :=
  let s := settings g in
  let st := state g in
  let noEdgesRestrictions :=
    if showEdgesOnMove s then true else negb (mouseDown st) in
  let showEdges :=
    showEdges s || negb (hoveredNode st =? -1)%Z
    || negb (selectedNode st =? -1)%Z in
  edges <- (if showEdges && noEdgesRestrictions
            then edge_calls g (buffers_edges (buffers g))
            else Js.Normal []) ;;
  let points :=
    DrawPoints
      {| pp_nodes := option_map (map Some) (buffers_nodes (buffers g));
         pp_length := List.length (nodesPositions (matrices g));
         pp_colors := map color_value (nodeColors (matrices g));
         pp_sizes := sizes (matrices g);
         pp_stageWidth := app_width g;
         pp_stageHeight := app_height g;
         pp_transform := transform st;
         pp_projection := projection st;
         pp_zoom := GlMatrix.a0 (transform st);
         pp_hovered := hoveredNode st;
         pp_selected := Some (selectedNode st);
         pp_highlighted := negb (Nat.eqb (List.length (highlightedNodes st)) 0) |} in
  hovered <- (if negb (hoveredNode st =? -1)%Z
              then c <- overlay g (hoveredNode st) (hoverNeighbors st) ;;
                   Js.Normal [c]
              else Js.Normal []) ;;
  selected <- (if negb (selectedNode st =? -1)%Z
               then c <- overlay g (selectedNode st) (selectedNeighbors st) ;;
                    Js.Normal
                      (c :: if drawSelectedCircle s
                            then [DrawCircle
                                    {| cp_position :=
                                         at_index (nodesPositions (matrices g))
                                                  (selectedNode st);
                                       cp_points := selectedCirclePoints s;
                                       cp_color :=
                                         glslColor (selectedCircleColor s) 1;
                                       cp_size := size_at g (selectedNode st);
                                       cp_transform := transform st;
                                       cp_projection := projection st;
                                       cp_zoom := GlMatrix.a0 (transform st) |}]
                            else [])
               else Js.Normal []) ;;
  let highlighted :=
    if negb (Nat.eqb (List.length (highlightedNodes st)) 0) then
      let nodes := highlightedNodes st in
      let hPositions :=
        map (fun i => nth_error (nodesPositions (matrices g)) i) nodes in
      [DrawPoints
         {| pp_nodes := Some hPositions;
            pp_length := List.length hPositions;
            pp_colors := map (fun i => color_at g (Z.of_nat i)) nodes;
            pp_sizes :=
              map (fun i => size_at g (Z.of_nat i) * 0x1.199999999999ap+0) nodes;
            pp_stageWidth := app_width g;
            pp_stageHeight := app_height g;
            pp_transform := transform st;
            pp_projection := projection st;
            pp_zoom := GlMatrix.a0 (transform st);
            pp_hovered := (-1)%Z;
            pp_selected := None;
            pp_highlighted := false |}]
    else [] in
  Js.Normal (Clear :: edges ++ [points] ++ hovered ++ selected ++ highlighted).

(** ** Drawing, and the calls that draw *)

(** [render()]: the calls of the frame are made in order, and the frame is
    recorded with the state it was drawn from.  A frame whose calls
    cannot be computed ([nodeColors[i].slice] on an entry that is [null]
    or not there) throws. *)
Definition render (g : ReglGraph) : Js.completion ReglGraph :=
  calls <- frame g ;;
  Js.Normal (emit g (Render (state g))).

(** [setHoveredNode(idx = -1)]. *)
Definition setHoveredNode (g : ReglGraph) (idx : option Z)
  : Js.completion ReglGraph :=
  let idx := or_default idx (-1)%Z in
  if negb (hoveredNode (state g) =? idx)%Z then
    let g := set_state_hoveredNode g idx in
    let g := setHoverNeighbors g (Some idx) in
    render g
  else Js.Normal (setHoverNeighbors g None).

(** [setSelectedNode(idx = -1)]. *)
Definition setSelectedNode (g : ReglGraph) (idx : option Z)
  : Js.completion ReglGraph :=
  let idx := or_default idx (-1)%Z in
  if negb (selectedNode (state g) =? idx)%Z then
    let g := with_state g (set_selectedNode (state g) idx) in
    let g :=
      if negb (idx =? -1)%Z then
        let node := getNodeByIndex g idx in
        let g := setSelectedNeighbors g (Some idx) in
        raiseEvent g "nodeselect" (ArgNode node)
      else setSelectedNeighbors g None in
    render g
  else Js.Normal g.

(** [highlight(nodesIds = null)]. *)
Definition highlight (g : ReglGraph) (nodesIds : option (list NGraph.node_id))
  : Js.completion ReglGraph :=
  g <- match nodesIds with
       | Some nodesIds =>
           nodesIndexes <- resolve_ids (app_graph g) nodesIds ;;
           let g := with_state g (set_highlightedNodes (state g) nodesIndexes) in
           setSelectedNode g None
       | None => Js.Normal (with_state g (set_highlightedNodes (state g) []))
       end ;;
  render g.

(** [handleMouseMove(event)]. *)
Definition handleMouseMove (g : ReglGraph) (event : MouseEvent)
  : Js.completion ReglGraph :=
  let g := with_state g (set_mousePosition (state g)
                                           (getRelativeMousePosition event)) in
  if negb (mouseDown (state g)) then
    closestPoint <- raycast g ;;
    if truthy_index closestPoint then
      let node := getNodeByIndex g (or_default (index_value closestPoint) (-1)%Z) in
      g <- setHoveredNode g (index_value closestPoint) ;;
      let g := setCursorStyle g "pointer" in
      Js.Normal (with_tooltip g (Some node))
    else
      g <- setHoveredNode g None ;;
      let g := setCursorStyle g "default" in
      Js.Normal (with_tooltip g None)
  else Js.Normal g.

(** [handleClick(event)]. *)
Definition handleClick (g : ReglGraph) (event : MouseEvent)
  : Js.completion ReglGraph :=
  closestPoint <- raycast g ;;
  g <- highlight g None ;;
  r <- (if truthy_index closestPoint then
          g <- setSelectedNode g (index_value closestPoint) ;;
          Js.Normal
            (g, getNodeByIndex g (or_default (index_value closestPoint) (-1)%Z))
        else
          g <- setSelectedNode g None ;;
          Js.Normal (g, None)) ;;
  Js.Normal (raiseEvent (fst r) "click" (ArgClick (snd r))).

(** [handleMouseUp(event)]. *)
Definition handleMouseUp (g : ReglGraph) : Js.completion ReglGraph :=
  let g := with_state g (set_mouseDown (state g) false) in
  let g := if inAnimation (state g)
           then with_state g (set_inAnimation (state g) false) else g in
  render g.

(** [handleZoom(event)], with [event.transform = {x, y, k}]. *)
Definition handleZoom (g : ReglGraph) (x y k : Js.number)
  : Js.completion ReglGraph :=
  let g := updateTransform g x y k in
  g <- render g ;;
  let g := raiseEvent g "zoom" (ArgZoom x y k) in
  Js.Normal (if mouseDown (state g) then setCursorStyle g "move" else g).

(** ** Construction *)

(** The container element: its client box.  The canvas created in it takes
    that size less [containerMargin], and its own client box is taken to
    be its size. *)
Record Container := {
  clientWidth : Js.number;
  clientHeight : Js.number
}.

(** [loadBuffers(type = null)]. *)
Definition loadBuffers (g : ReglGraph) : ReglGraph :=
  let nodes := Some (nodesPositions (matrices g)) in
  let edges :=
    if showEdges (settings g) then edgesPositionsByWeight (matrices g)
    else buffers_edges (buffers g) in
  with_buffers g {| buffers_nodes := nodes; buffers_edges := edges |}.

(** [init(data)]. *)
Definition init (s : Settings) (container : Container) (dpr : Js.number)
  (nodes : list NodeInput) (edges : option (list EdgeInput))
  : Js.completion ReglGraph :=
  let width := clientWidth container - containerMargin s in
  let height := clientHeight container - containerMargin s in
  let projection := GlMatrix.projection width height in
  l <- loadData s width height nodes edges ;;
  let searchIndex := KDBush.build (nodesPositions (loaded_matrices l)) in
  let transform := GlMatrix.translate GlMatrix.create 0 0 in
  let g :=
    {| settings := s; app_width := width; app_height := height;
       app_graph := loaded_graph l; app_nodeIndex := loaded_nodeIndex l;
       matrices := loaded_matrices l; searchIndex := searchIndex;
       buffers := {| buffers_nodes := None; buffers_edges := [] |};
       state := set_transform initial_state transform projection;
       devicePixelRatio := dpr; tooltip_shown := None; cursor := "";
       trace := [] |} in
  render (loadBuffers g).

(** [new ReglGraph(container, data, options = {})]; [None] is an argument
    that is absent (or [null]).  [dpr] is [window.devicePixelRatio].  The
    four messages are the source's, less the quotation marks it puts
    around [nodes] and [edges]. *)
Definition constructor (dpr : Js.number) (container : option Container)
  (data : option Data) (options : Options) : Js.completion ReglGraph :=
  match container with
  | None =>
      Js.Throw "Informe um elemento HTML como container para plotagem do grafo"
  | Some container =>
      match data with
      | None => Js.Throw "Informe os dados para a rede"
      | Some data =>
          match data_nodes data with
          | None =>
              Js.Throw "O objeto de dados da rede não contem a propriedade nodes (nós)"
          | Some nodes =>
              if match opt_showEdges options with
                 | None => true
                 | Some b => b
                 end
                 && match data_edges data with None => true | Some _ => false end
              then
                Js.Throw "O objeto de dados da rede não contem a propriedade edges (arestas)"
              else
                init (merge_settings default_settings options) container dpr
                     nodes (data_edges data)
          end
      end
  end.

(** * Vocabulary of the statements *)

(** ** Binary64 values by kind *)

(** Zero or a finite non-zero value. *)
Definition sf_finite (s : spec_float) : bool :=
  match s with
  | S754_zero _ | S754_finite _ _ _ => true
  | _ => false
  end.

(** A zero of either sign. *)
Definition sf_zero (s : spec_float) : bool :=
  match s with S754_zero _ => true | _ => false end.

(** ** Picking *)

(** Every candidate the index answers with is a point it holds (this is
    so for an index made by [KDBush.build]). *)
Definition candidates_valid (g : ReglGraph) : bool :=
  forallb (fun i => (i <? List.length (KDBush.points (searchIndex g)))%nat)
          (pointsInBBox g).

(** Candidate [i] lies at distance zero from the cursor. *)
Definition zero_distance (g : ReglGraph) (i : nat) : bool :=
  match point_distance g i with
  | Js.Normal d => is_zero d
  | Js.Throw _ => false
  end.

(** What the loop of [raycast] holds: nothing yet and the radius, or a
    candidate with its distance, which is below the radius. *)
Definition picked (g : ReglGraph) (r : Js.number) (cands : list nat)
  (acc : Js.number * option nat) : Prop :=
  match snd acc with
  | None => fst acc = r
  | Some i =>
      In i cands /\ point_distance g i = Js.Normal (fst acc) /\
      (fst acc <? r) = true
  end.

(** The index answers every query by scanning the points it holds. *)
Definition index_built (g : ReglGraph) : Prop :=
  searchIndex g = KDBush.build (KDBush.points (searchIndex g)).


(** The zoom level: the scale component [transform[0]] of the model matrix. *)
Definition zoom (g : ReglGraph) : Js.number := GlMatrix.a0 (transform (state g)).

(** The radius as the specification words it, the zoom being an argument:
    [base * (min(1, zoom) + log2(max(1, zoom))) * dpr], with the base
    [5 * 1000] of the source. *)
Definition spec_radius (zoom dpr : Js.number) : Js.number :=
  5 * 1000 * (minNumber 1 zoom + Js.Math_log2 (maxNumber 1 zoom)) * dpr.

(** ** Interaction *)

(** The effect is a call [raiseEvent(name, ...)]. *)
Definition raised (name : string) (e : effect) : bool :=
  match e with
  | Raise n _ _ => String.eqb n name
  | Render _ => false
  end.

(** No event [name] among the effects. *)
Definition silent (name : string) (l : list effect) : bool :=
  forallb (fun e => negb (raised name e)) l.

(** The neighbor set of the node with index [i]:
    [getNodeNeighbors(nodeIndex.get(i), true)] (empty for [-1]). *)
Definition neighbors_of (g : ReglGraph) (i : Z) : list nat :=
  getNodeNeighbors g (nodeIndex_get g i).

(** What the user and the host can do to a constructed object. *)
Inductive operation :=
| MouseMove (event : MouseEvent)
| Click (event : MouseEvent)
| MouseDown
| MouseUp
| Zoom (x y k : Js.number)
| Reset
| Highlight (nodesIds : option (list NGraph.node_id)).

Definition perform (g : ReglGraph) (op : operation) : Js.completion ReglGraph :=
  match op with
  | MouseMove event => handleMouseMove g event
  | Click event => handleClick g event
  | MouseDown => Js.Normal (handleMouseDown g)
  | MouseUp => handleMouseUp g
  | Zoom x y k => handleZoom g x y k
  | Reset => Js.Normal (reset g)
  | Highlight nodesIds => highlight g nodesIds
  end.

(** A sequence of operations, as long as none of them throws. *)
Fixpoint perform_all (g : ReglGraph) (ops : list operation)
  : Js.completion ReglGraph :=
  match ops with
  | [] => Js.Normal g
  | op :: rest => g' <- perform g op ;; perform_all g' rest
  end.


(** Every id of the list names a node of the graph. *)
Definition ids_known (g : ReglGraph) (ids : list NGraph.node_id) : bool :=
  forallb (fun i => match NGraph.getNode (app_graph g) i with
                    | Some _ => true
                    | None => false
                    end) ids.

(** ** A small dataset

    Four nodes on a 512 x 512 canvas with a margin of 56: [a], [b], and [c]
    and [d] at the same place; links [a - b] and [b - c].  Their render
    positions are [(56, 56)], [(456, 456)], [(256, 256)], [(256, 256)]. *)

Definition demo_node (i : string) (x y s : Js.number) : NodeInput :=
  {| node_id := i; node_label := None; node_x := Some x; node_y := Some y;
     node_position := None; node_size := Some s; node_color := None;
     node_attributes := None |}.

Definition demo_edge (a b : string) (size weight : option Js.number)
  : EdgeInput :=
  {| edge_sourceID := None; edge_source := Some a; edge_targetID := None;
     edge_target := Some b; edge_size := size; edge_weight := weight;
     edge_color := None; edge_attributes := None |}.

Definition demo_container : Container :=
  {| clientWidth := 512; clientHeight := 512 |}.

Definition with_graphMargin (m : Js.number) : Options :=
  Build_Options (Some m) None None None None None None None None None None
                None None None None.

Definition demo_data : Data :=
  {| data_nodes :=
       Some [demo_node "a" 1 1 10; demo_node "b" 5 5 20;
             demo_node "c" 3 3 15; demo_node "d" 3 3 15];
     data_edges :=
       Some [demo_edge "a" "b" None (Some 1); demo_edge "b" "c" None (Some 2)] |}.

Definition demo : Js.completion ReglGraph :=
  constructor 1 (Some demo_container) (Some demo_data) (with_graphMargin 56).

(** A mouse event at [(x, y)] of the canvas. *)
Definition mouse_at (x y : Js.number) : MouseEvent :=
  {| clientX := x; clientY := y; rect_left := 0; rect_top := 0 |}.

(** ** The example scenario of the specification

    Two nodes [{id: "a", x: 0, y: 0, size: 10}] and
    [{id: "b", x: 100, y: 0, size: 10}], one edge from [a] to [b] of
    weight 1, in a 500 x 500 container. *)

Definition example_container : Container :=
  {| clientWidth := 500; clientHeight := 500 |}.

Definition example_data : Data :=
  {| data_nodes := Some [demo_node "a" 0 0 10; demo_node "b" 100 0 10];
     data_edges := Some [demo_edge "a" "b" None (Some 1)] |}.

(** ** Input that loads

    A node has a coordinate when the field is truthy or the record has a
    [position]; an edge is fine when both its ends name a node. *)

Definition has_coordinate (v : option Js.number) (p : option PositionInput)
  : bool :=
  match v, p with
  | _, Some _ => true
  | Some n, None => Js.truthy n
  | None, None => false
  end.

Definition node_ok (node : NodeInput) : bool :=
  has_coordinate (node_x node) (node_position node)
  && has_coordinate (node_y node) (node_position node).

Definition endpoint_ok (nodes : list NodeInput) (e : option NGraph.node_id)
  : bool :=
  match e with
  | Some i => existsb (fun n => String.eqb (node_id n) i) nodes
  | None => false
  end.

Definition edge_ok (nodes : list NodeInput) (e : EdgeInput) : bool :=
  endpoint_ok nodes (first_truthy (edge_sourceID e) (edge_source e))
  && endpoint_ok nodes (first_truthy (edge_targetID e) (edge_target e)).

Definition edges_ok (s : Settings) (nodes : list NodeInput)
  (edges : option (list EdgeInput)) : bool :=
  if showEdges s then
    match edges with
    | Some (e :: rest) => forallb (edge_ok nodes) (e :: rest)
    | _ => false
    end
  else true.

(** The line widths of the links of a loaded graph, in order. *)
Definition link_widths (l : Loaded) : list Js.number :=
  map (fun k => NGraph.weight (NGraph.ldata k)) (NGraph.links (loaded_graph l)).

(** The demo nodes with two edges whose line width is given as
    [size: 0]. *)
Definition zero_size_edges : list EdgeInput :=
  [demo_edge "a" "b" (Some 0) None; demo_edge "b" "c" (Some 0) None].

Definition demo_settings : Settings :=
  merge_settings default_settings (with_graphMargin 56).

(** ** Screen to world *)

(** The point [getScatterGlPos(pos)] converts: [pos ?? getMouseGlPos()]. *)
Definition ndc_point (g : ReglGraph) (pos : option (Js.number * Js.number))
  : Js.number * Js.number :=
  match pos with Some p => p | None => getMouseGlPos g end.

(** [mat3.invert] answers [null] for [projection * transform]. *)
Definition is_singular (g : ReglGraph) : bool :=
  match GlMatrix.invert
          (GlMatrix.multiply (projection (state g)) (transform (state g)))
  with
  | Some _ => false
  | None => true
  end.

(** Three nodes laid out with no margin, so that [b] is drawn at the
    corner [(0, 0)], and a zoom extent that lets the scale reach 0. *)
Definition corner_data : Data :=
  {| data_nodes :=
       Some [demo_node "a" 3 3 10; demo_node "b" 1 1 20; demo_node "c" 2 2 15];
     data_edges := Some [demo_edge "a" "b" None (Some 1)] |}.

Definition corner_options : Options :=
  Build_Options (Some 0) None None None None None None None None
                (Some (0, 500)) None None None None None.

Definition collapsed_container : Container :=
  {| clientWidth := 0; clientHeight := 0 |}.

(** ** What loading stores for a node *)

(** The value [node.x ? node.x : node.position.x] has when it is there. *)
Definition coordinate_value (v : option Js.number) (p : option PositionInput)
  (field : PositionInput -> option Js.number) : option Js.number :=
  match v with
  | Some n =>
      if Js.truthy n then Some n
      else match p with Some p => field p | None => None end
  | None => match p with Some p => field p | None => None end
  end.

Definition node_entry (sc : Scales) (i : nat) (node : NodeInput)
  : KDBush.position :=
  (D3.apply (scale_x sc)
     (coordinate_value (node_x node) (node_position node) pos_x),
   D3.apply (scale_y sc)
     (coordinate_value (node_y node) (node_position node) pos_y),
   i).

Fixpoint node_entries (sc : Scales) (i : nat) (nodes : list NodeInput)
  : list KDBush.position :=
  match nodes with
  | [] => []
  | node :: rest => node_entry sc i node :: node_entries sc (S i) rest
  end.

Definition size_entry (sc : Scales) (node : NodeInput) : Js.number :=
  D3.apply (scale_size sc) (node_size node).

(** A node record that has everything but [size]. *)
Definition sizeless_node : NodeInput :=
  {| node_id := "a"; node_label := Some "a"; node_x := Some 1;
     node_y := Some 1;
     node_position := Some {| pos_x := Some 1; pos_y := Some 1 |};
     node_size := None; node_color := Some "#ff0000";
     node_attributes := Some [("weight", "10")] |}.

(** A node record with no coordinates of its own, only a [position]
    object, whose [y] is missing too. *)
Definition positioned_node : NodeInput :=
  {| node_id := "p"; node_label := None; node_x := None; node_y := None;
     node_position := Some {| pos_x := Some 3; pos_y := None |};
     node_size := Some 15; node_color := None; node_attributes := None |}.

(** Three nodes: one without [size], one with only a [position] object
    (its [y] missing), one complete; and one edge. *)
Definition partial_nodes : list NodeInput :=
  [sizeless_node; positioned_node; demo_node "b" 5 5 20].

Definition partial_edges : option (list EdgeInput) :=
  Some [demo_edge "a" "b" None (Some 1)].

(** ** Changing a setting

    [setOption(option, value)] with a key of the settings and a value of
    the type of that setting. *)
Inductive setting :=
| GraphMargin (v : Js.number)
| ShowEdges (v : bool)
| ShowEdgesOnMove (v : bool)
| NodesSizeRange (v : Js.number * Js.number)
| DefaultNodesOpacity (v : Js.number)
| DefaultEdgesOpacity (v : Js.number)
| DefaultEdgesColor (v : string)
| EdgesWeightRange (v : Js.number * Js.number)
| ContainerMargin (v : Js.number)
| ZoomExtent (v : Js.number * Js.number)
| DrawSelectedCircle (v : bool)
| SelectedCircleColor (v : string)
| SelectedCirclePoints (v : nat)
| TooltipAttributes (v : list string)
| Log (v : bool).

(** [{[option]: value}]. *)
Definition as_options (u : setting) : Options :=
  match u with
  | GraphMargin v =>
      Build_Options (Some v) None None None None None None None None None
                    None None None None None
  | ShowEdges v =>
      Build_Options None (Some v) None None None None None None None None
                    None None None None None
  | ShowEdgesOnMove v =>
      Build_Options None None (Some v) None None None None None None None
                    None None None None None
  | NodesSizeRange v =>
      Build_Options None None None (Some v) None None None None None None
                    None None None None None
  | DefaultNodesOpacity v =>
      Build_Options None None None None (Some v) None None None None None
                    None None None None None
  | DefaultEdgesOpacity v =>
      Build_Options None None None None None (Some v) None None None None
                    None None None None None
  | DefaultEdgesColor v =>
      Build_Options None None None None None None (Some v) None None None
                    None None None None None
  | EdgesWeightRange v =>
      Build_Options None None None None None None None (Some v) None None
                    None None None None None
  | ContainerMargin v =>
      Build_Options None None None None None None None None (Some v) None
                    None None None None None
  | ZoomExtent v =>
      Build_Options None None None None None None None None None (Some v)
                    None None None None None
  | DrawSelectedCircle v =>
      Build_Options None None None None None None None None None None
                    (Some v) None None None None
  | SelectedCircleColor v =>
      Build_Options None None None None None None None None None None
                    None (Some v) None None None
  | SelectedCirclePoints v =>
      Build_Options None None None None None None None None None None
                    None None (Some v) None None
  | TooltipAttributes v =>
      Build_Options None None None None None None None None None None
                    None None None (Some v) None
  | Log v =>
      Build_Options None None None None None None None None None None
                    None None None None (Some v)
  end.

Definition with_settings (g : ReglGraph) (s : Settings) : ReglGraph :=
  {| settings := s; app_width := app_width g;
     app_height := app_height g; app_graph := app_graph g;
     app_nodeIndex := app_nodeIndex g; matrices := matrices g;
     searchIndex := searchIndex g; buffers := buffers g; state := state g;
     devicePixelRatio := devicePixelRatio g;
     tooltip_shown := tooltip_shown g; cursor := cursor g;
     trace := trace g |}.

(** [setOption(option, value)]; [None] is a call that names no setting or
    gives [undefined] as the value: nothing happens then. *)
Definition setOption (g : ReglGraph) (u : option setting)
  : Js.completion ReglGraph :=
  match u with
  | Some u =>
      render (with_settings g (merge_settings (settings g) (as_options u)))
  | None => Js.Normal g
  end.

(** ** Input that loads *)

(** Input the constructor accepts: a container, data with [nodes], every
    node with its coordinates and, unless [showEdges] is off, a non-empty
    [edges] array whose edges join nodes of the data. *)
Definition input_ok (container : option Container) (data : option Data)
  (options : Options) : bool :=
  match container, data with
  | Some _, Some d =>
      match data_nodes d with
      | Some nodes =>
          forallb node_ok nodes
          && edges_ok (merge_settings default_settings options) nodes
                      (data_edges d)
      | None => false
      end
  | _, _ => false
  end.

(** ** The loaded graph, node by node and link by link *)

(** No two nodes of the input share an id. *)
Fixpoint ids_distinct (nodes : list NodeInput) : bool :=
  match nodes with
  | [] => true
  | node :: rest =>
      negb (existsb (fun n => String.eqb (node_id n) (node_id node)) rest)
      && ids_distinct rest
  end.

(** The data [loadData] attaches to the graph node of input node [i]. *)
Definition node_data_entry (sc : Scales) (i : nat) (node : NodeInput)
  : NGraph.node_data :=
  NGraph.NodeData (node_color node) (node_label node)
    (coordinate_value (node_y node) (node_position node) pos_y)
    (coordinate_value (node_x node) (node_position node) pos_x)
    i (node_entry sc i node) (size_entry sc node)
    (or_default (node_attributes node) []).

Fixpoint graph_entries (sc : Scales) (i : nat) (nodes : list NodeInput)
  : list NGraph.node :=
  match nodes with
  | [] => []
  | node :: rest =>
      NGraph.Node (node_id node) (node_data_entry sc i node)
      :: graph_entries sc (S i) rest
  end.

(** The link [loadData] adds for edge [i]: [sourceID] and [targetID] come
    before [source] and [target]. *)
Definition link_entry (s : Settings) (sc : Scales) (i : nat) (edge : EdgeInput)
  : option NGraph.link :=
  match first_truthy (edge_sourceID edge) (edge_source edge),
        first_truthy (edge_targetID edge) (edge_target edge) with
  | Some from, Some to =>
      Some (NGraph.Link from to
              (NGraph.LinkData (edge_width sc edge)
                 (or_default (edge_color edge) (defaultEdgesColor s)) i
                 (or_default (edge_attributes edge) [])))
  | _, _ => None
  end.

(** The links [loadData] adds for the edges, the first of them having
    index [i]. *)
Fixpoint link_entries (s : Settings) (sc : Scales) (i : nat)
  (edges : list EdgeInput) : list (option NGraph.link) :=
  match edges with
  | [] => []
  | edge :: rest => link_entry s sc i edge :: link_entries s sc (S i) rest
  end.

(** ** The buckets of the edges *)

(** The render positions an edge contributes to its bucket: those of the
    graph nodes at its two ends. *)
Definition edge_ends (gr : NGraph.t) (edge : EdgeInput) : list KDBush.position :=
  match first_truthy (edge_sourceID edge) (edge_source edge),
        first_truthy (edge_targetID edge) (edge_target edge) with
  | Some from, Some to =>
      match NGraph.getNode gr from, NGraph.getNode gr to with
      | Some source, Some target =>
          [NGraph.position (NGraph.data source);
           NGraph.position (NGraph.data target)]
      | _, _ => []
      end
  | _, _ => []
  end.

(** The ends of the edges whose line width is [k], in input order. *)
Definition bucket_of (gr : NGraph.t) (sc : Scales) (k : option Js.number)
  (edges : list EdgeInput) : list KDBush.position :=
  flat_map (fun e => if same_map_key k (edge_key sc e) then edge_ends gr e else [])
           edges.

(** The number of positions held by the buckets of a map. *)
Definition bucket_total (m : list (option Js.number * list KDBush.position))
  : nat :=
  list_sum (map (fun b => List.length (snd b)) m).

(** No two keys of the map are the same key. *)
Definition keys_distinct (m : list (option Js.number * list KDBush.position))
  : Prop :=
  ForallOrdPairs (fun a b => same_map_key (fst a) (fst b) = false) m.

(** The buckets hold exactly the edges seen so far, split by line width. *)
Definition buckets_hold (sc : Scales) (gr : NGraph.t)
  (m : list (option Js.number * list KDBush.position)) (seen : list EdgeInput)
  : Prop :=
  keys_distinct m /\
  (forall k v, In (k, v) m -> v = bucket_of gr sc k seen) /\
  (forall e, In e seen ->
     exists k v, In (k, v) m /\ same_map_key k (edge_key sc e) = true).

(** The demo nodes with three edges whose line widths are given as
    [size: 0], [size: 0] and [size: NaN]. *)
Definition mixed_size_edges : list EdgeInput :=
  [demo_edge "a" "b" (Some 0) None; demo_edge "b" "c" (Some 0) None;
   demo_edge "a" "c" (Some nan) None].

(** ** What stays as loaded *)

(** The loaded data of two objects is the same: settings, canvas size,
    graph, index of ids, arrays, search index and buffers. *)
Definition same_data (g g' : ReglGraph) : Prop :=
  settings g' = settings g /\ app_width g' = app_width g /\
  app_height g' = app_height g /\ app_graph g' = app_graph g /\
  app_nodeIndex g' = app_nodeIndex g /\ matrices g' = matrices g /\
  searchIndex g' = searchIndex g /\ buffers g' = buffers g /\
  devicePixelRatio g' = devicePixelRatio g.

(** ** Attributes, and the ends of a link *)

(** The names [loadData] gives to the fields of a node's data. *)
Definition data_fields : list string :=
  ["color"; "label"; "y"; "x"; "index"; "position"; "size"].

(** [node.attributes] is spread into the node's data after the fields
    that [loadData] computes.  The embedding keeps the attributes apart;
    it is exact for attributes that do not reuse the name of a field. *)
Definition attributes_plain (nodes : list NodeInput) : bool :=
  forallb (fun node =>
             forallb (fun kv => negb (existsb (String.eqb (fst kv)) data_fields))
                     (or_default (node_attributes node) []))
          nodes.

(** The names [loadData] gives to the fields of a link's data. *)
Definition link_fields : list string := ["weight"; "color"; "index"].

(** [edge.attributes] is spread into the link's data in the same way. *)
Definition edge_attributes_plain (edges : list EdgeInput) : bool :=
  forallb (fun edge =>
             forallb (fun kv => negb (existsb (String.eqb (fst kv)) link_fields))
                     (or_default (edge_attributes edge) []))
          edges.


(** ** From an id to its node *)

(** The position of the last node of the input that has id [nid], counting
    from [i]. *)
Fixpoint last_with_id (nodes : list NodeInput) (i : nat) (nid : NGraph.node_id)
  : option nat :=
  match nodes with
  | [] => None
  | node :: rest =>
      match last_with_id rest (S i) nid with
      | Some k => Some k
      | None => if String.eqb (node_id node) nid then Some i else None
      end
  end.

(** The graph node an id leads to once the nodes are loaded: the one made
    for the last input node with that id. *)
Definition node_of_id (sc : Scales) (nodes : list NodeInput)
  (nid : NGraph.node_id) : option NGraph.node :=
  match last_with_id nodes 0 nid with
  | Some k =>
      option_map (fun node => NGraph.Node nid (node_data_entry sc k node))
                 (nth_error nodes k)
  | None => None
  end.

(** ** Effects of a click, of a move and of a drag *)

(** What a drag is made of: moves of the pointer and the zoom events that
    pan the graph. *)
Definition drag_step (op : operation) : bool :=
  match op with
  | MouseMove _ | Zoom _ _ _ => true
  | _ => false
  end.

(** A value of [hoveredNode] or [selectedNode] that the mouse can produce
    on [n] nodes: the sentinel, or an index other than [0]. *)
Definition pickable (n : nat) (i : Z) : Prop :=
  i = (-1)%Z \/ (0 < i < Z.of_nat n)%Z.


(** The effects of a click, after the frame that [highlight()] draws:
    nothing when the selection stays, a frame when it is cleared,
    [nodeselect] and a frame when a node becomes selected. *)
Definition selection_effects (g g' : ReglGraph) : list effect :=
  let old := selectedNode (state g) in
  let new := selectedNode (state g') in
  if (new =? old)%Z then []
  else if (new =? -1)%Z then [Render (state g')]
  else [Raise "nodeselect" (ArgNode (getNodeByIndex g new)) (state g');
        Render (state g')].

(** The node a click event carries: the selected one, [null] when the
    click selects nothing. *)
Definition clicked_node (g' : ReglGraph) : option NGraph.node :=
  if (selectedNode (state g') =? -1)%Z then None
  else getNodeByIndex g' (selectedNode (state g')).

(** The hover event of a move of the pointer. *)
Definition hover_effects (g g' : ReglGraph) : list effect :=
  let old := hoveredNode (state g) in
  let new := hoveredNode (state g') in
  if (new =? old)%Z then []
  else
    let seen := set_hoveredNode
                  (set_mousePosition (state g) (mousePosition (state g'))) new in
    if (new =? -1)%Z
    then [Raise "nodeout" (ArgNode (getNodeByIndex g old)) seen;
          Render (state g')]
    else [Raise "nodeover" (ArgNode (getNodeByIndex g new)) seen;
          Render (state g')].

(** The effects of a drag: frames and [zoom] events only. *)
Definition frames_and_zooms (l : list effect) : bool :=
  forallb (fun e => match e with
                    | Render _ => true
                    | Raise name _ _ => String.eqb name "zoom"
                    end) l.

(** Every node of the graph carries an index below [n]. *)
Definition indices_below (n : nat) (gr : NGraph.t) : Prop :=
  forall nid nd, NGraph.getNode gr nid = Some nd ->
                 (NGraph.index (NGraph.data nd) < n)%nat.

(** ** Actions: the operations and [setOption] *)


(** What can be done to an object: the operations of the user and the
    host, and [setOption]. *)
Inductive action :=
| Handle (op : operation)
| Configure (u : option setting).

Definition act (g : ReglGraph) (a : action) : Js.completion ReglGraph :=
  match a with
  | Handle op => perform g op
  | Configure u => setOption g u
  end.

Fixpoint act_all (g : ReglGraph) (l : list action) : Js.completion ReglGraph :=
  match l with
  | [] => Js.Normal g
  | a :: rest => g' <- act g a ;; act_all g' rest
  end.

(** The calls of [drawEdges] in a frame. *)
Definition edge_props (calls : list draw_call) : list EdgesProps :=
  flat_map (fun c => match c with DrawEdges p => [p] | _ => [] end) calls.


(** The loaded data of two objects is the same, their settings apart. *)
Definition same_loaded (g g' : ReglGraph) : Prop :=
  app_width g' = app_width g /\
  app_height g' = app_height g /\ app_graph g' = app_graph g /\
  app_nodeIndex g' = app_nodeIndex g /\ matrices g' = matrices g /\
  searchIndex g' = searchIndex g /\ buffers g' = buffers g /\
  devicePixelRatio g' = devicePixelRatio g.


(** The settings that only the construction and [loadData] read
    ([tooltipAttributes] is not one: the tooltip reads it each time it is
    shown). *)
Definition read_at_load_only (u : setting) : bool :=
  match u with
  | GraphMargin _ | NodesSizeRange _ | DefaultNodesOpacity _
  | EdgesWeightRange _ | ContainerMargin _ | ZoomExtent _ | Log _ => true
  | _ => false
  end.

(** The pattern of the form [rgba(...)] alone. *)
Definition rgba_alternative : RegExp.re :=
  match rgb_pattern with
  | RegExp.Alt _ b => b
  | r => r
  end.

(** ** Colours, digit by digit *)

(** The value of a hexadecimal digit. *)
Definition hex_value (c : ascii) : Z :=
  match ParseInt.digit_value c with
  | Some d => Z.of_nat d
  | None => 0
  end.

(** The channel two hexadecimal digits stand for: their value on the
    scale from [[0, 255]] to [[0, 1]]. *)
Definition channel (hi lo : ascii) : Js.number :=
  scaleRGBToVec4 (Js.of_Z (16 * hex_value hi + hex_value lo)).

(** The digits [[a-fA-F0-9]]. *)
Definition hex_digits : list ascii :=
  ["0"; "1"; "2"; "3"; "4"; "5"; "6"; "7"; "8"; "9";
   "a"; "b"; "c"; "d"; "e"; "f"; "A"; "B"; "C"; "D"; "E"; "F"]%char.

(** A [#] and three or six hexadecimal digits. *)
Definition hex_colour (color : string) : bool :=
  match color with
  | String "#" digits =>
      ((String.length digits =? 3)%nat || (String.length digits =? 6)%nat)
      && forallb RegExp.hexdigit (list_ascii_of_string digits)
  | _ => false
  end.

(** One to three decimal digits. *)
Definition digits_1_3 (s : string) : bool :=
  (1 <=? String.length s)%nat && (String.length s <=? 3)%nat
  && forallb RegExp.digit (list_ascii_of_string s).

(** The number a string of decimal digits writes. *)
Fixpoint decimal_from (acc : Z) (s : string) : Z :=
  match s with
  | EmptyString => acc
  | String c s' => decimal_from (10 * acc + Z.of_nat (RegExp.code c - 48)) s'
  end.

Definition decimal : string -> Z := decimal_from 0.

(** The blank the patterns allow after a comma. *)
Definition gap (blank : bool) : string := if blank then " " else "".

(** [rgb(r,g,b)], with or without a blank after each comma. *)
Definition rgb_text (r g b : string) (blank1 blank2 : bool) : string :=
  "rgb(" ++ r ++ "," ++ gap blank1 ++ g ++ "," ++ gap blank2 ++ b ++ ")".

Definition decimal_digits : list ascii :=
  ["0"; "1"; "2"; "3"; "4"; "5"; "6"; "7"; "8"; "9"]%char.

(** ** Highlight and tooltip *)


(** The tooltip goes with the hovered node: hidden when no node is
    hovered, and showing the hovered node otherwise. *)
Definition tooltip_follows_hover (g : ReglGraph) : Prop :=
  tooltip_shown g
  = if (hoveredNode (state g) =? -1)%Z then None
    else Some (getNodeByIndex g (hoveredNode (state g))).

(** ** Objects whose frames can be drawn *)

(** The indices a frame reads off the state name nodes: the hovered and
    the selected node are [-1] or the index of one of [n] nodes, and the
    two neighbor lists hold indices of nodes. *)
Definition frame_in_range (n : nat) (s : State) : Prop :=
  (-1 <= hoveredNode s < Z.of_nat n)%Z /\
  (-1 <= selectedNode s < Z.of_nat n)%Z /\
  Forall (fun i => (i < n)%nat) (hoverNeighbors s) /\
  Forall (fun i => (i < n)%nat) (selectedNeighbors s).

(** Whatever node becomes hovered or selected, the frames of the object
    can be drawn: no entry of [nodeColors] is [null], the arrays and the
    search index hold [n] nodes, the graph holds indices below [n] only,
    the keys of the edge buffers are keys of [edgesPositionsByWeight],
    and the state holds indices of nodes. *)
Definition drawable (n : nat) (g : ReglGraph) : Prop :=
  Forall (fun e => color_value e <> None) (nodeColors (matrices g)) /\
  List.length (nodeColors (matrices g)) = n /\
  List.length (KDBush.points (searchIndex g)) = n /\
  indices_below n (app_graph g) /\
  Forall (fun b => map_get (edgesPositionsByWeight (matrices g)) (fst b) <> None)
         (buffers_edges (buffers g)) /\
  frame_in_range n (state g).

(** Every operation of the list that highlights ids names nodes of the
    graph. *)
Definition ops_known (g : ReglGraph) (ops : list operation) : bool :=
  forallb (fun op => match op with
                     | Highlight (Some ids) => ids_known g ids
                     | _ => true
                     end) ops.

(** ** A dataset with a colour that is not read

    The small dataset, with [color: 'red'] on node [a]: [glslColor]
    answers [null] for it, and that is the entry of [a] in
    [nodeColors]. *)




(** What [handleMouseMove(event)] always leaves: the position of the
    mouse is written first. *)
Definition mouse_moved (g : ReglGraph) (event : MouseEvent) : ReglGraph :=
  with_state g (set_mousePosition (state g) (getRelativeMousePosition event)).

(** The frame of the object can be drawn: [render()] would return. *)
Definition draws (g : ReglGraph) : Prop :=
  exists calls, frame g = Js.Normal calls.

(** Whether the frame draws the edges. *)
Definition edges_drawn (g : ReglGraph) : bool :=
  (showEdges (settings g)
   || negb (hoveredNode (state g) =? -1)%Z
   || negb (selectedNode (state g) =? -1)%Z)
  && (if showEdgesOnMove (settings g) then true
      else negb (mouseDown (state g))).

(** ** The calls, the drawing left aside

    The same calls with a [render()] that records the frame without
    computing it, so that it never throws.  They are not the code: a call
    of the code that returns leaves the object that its counterpart here
    leaves (the lemmas [..._quiet] of the proofs), and the proofs read the
    state and the effects of a call off these. *)

Module Quiet.

Definition render (g : ReglGraph) : ReglGraph := emit g (Render (state g)).

Definition setHoveredNode (g : ReglGraph) (idx : option Z) : ReglGraph :=
  let idx := or_default idx (-1)%Z in
  if negb (hoveredNode (state g) =? idx)%Z then
    let g := set_state_hoveredNode g idx in
    let g := setHoverNeighbors g (Some idx) in
    render g
  else setHoverNeighbors g None.

Definition setSelectedNode (g : ReglGraph) (idx : option Z) : ReglGraph :=
  let idx := or_default idx (-1)%Z in
  if negb (selectedNode (state g) =? idx)%Z then
    let g := with_state g (set_selectedNode (state g) idx) in
    let g :=
      if negb (idx =? -1)%Z then
        let node := getNodeByIndex g idx in
        let g := setSelectedNeighbors g (Some idx) in
        raiseEvent g "nodeselect" (ArgNode node)
      else setSelectedNeighbors g None in
    render g
  else g.

Definition highlight (g : ReglGraph) (nodesIds : option (list NGraph.node_id))
  : Js.completion ReglGraph :=
  g <- match nodesIds with
       | Some nodesIds =>
           nodesIndexes <- resolve_ids (app_graph g) nodesIds ;;
           let g := with_state g (set_highlightedNodes (state g) nodesIndexes) in
           Js.Normal (setSelectedNode g None)
       | None => Js.Normal (with_state g (set_highlightedNodes (state g) []))
       end ;;
  Js.Normal (render g).

Definition handleMouseMove (g : ReglGraph) (event : MouseEvent)
  : Js.completion ReglGraph :=
  let g := with_state g (set_mousePosition (state g)
                                           (getRelativeMousePosition event)) in
  if negb (mouseDown (state g)) then
    closestPoint <- raycast g ;;
    if truthy_index closestPoint then
      let node := getNodeByIndex g (or_default (index_value closestPoint) (-1)%Z) in
      let g := setHoveredNode g (index_value closestPoint) in
      let g := setCursorStyle g "pointer" in
      Js.Normal (with_tooltip g (Some node))
    else
      let g := setHoveredNode g None in
      let g := setCursorStyle g "default" in
      Js.Normal (with_tooltip g None)
  else Js.Normal g.

Definition handleClick (g : ReglGraph) (event : MouseEvent)
  : Js.completion ReglGraph :=
  closestPoint <- raycast g ;;
  g <- highlight g None ;;
  let '(g, node) :=
    if truthy_index closestPoint then
      let g := setSelectedNode g (index_value closestPoint) in
      (g, getNodeByIndex g (or_default (index_value closestPoint) (-1)%Z))
    else (setSelectedNode g None, None) in
  Js.Normal (raiseEvent g "click" (ArgClick node)).

Definition handleMouseUp (g : ReglGraph) : ReglGraph :=
  let g := with_state g (set_mouseDown (state g) false) in
  let g := if inAnimation (state g)
           then with_state g (set_inAnimation (state g) false) else g in
  render g.

Definition handleZoom (g : ReglGraph) (x y k : Js.number) : ReglGraph :=
  let g := updateTransform g x y k in
  let g := render g in
  let g := raiseEvent g "zoom" (ArgZoom x y k) in
  if mouseDown (state g) then setCursorStyle g "move" else g.

Definition init (s : Settings) (container : Container) (dpr : Js.number)
  (nodes : list NodeInput) (edges : option (list EdgeInput))
  : Js.completion ReglGraph :=
  let width := clientWidth container - containerMargin s in
  let height := clientHeight container - containerMargin s in
  let projection := GlMatrix.projection width height in
  l <- loadData s width height nodes edges ;;
  let searchIndex := KDBush.build (nodesPositions (loaded_matrices l)) in
  let transform := GlMatrix.translate GlMatrix.create 0 0 in
  let g :=
    {| settings := s; app_width := width; app_height := height;
       app_graph := loaded_graph l; app_nodeIndex := loaded_nodeIndex l;
       matrices := loaded_matrices l; searchIndex := searchIndex;
       buffers := {| buffers_nodes := None; buffers_edges := [] |};
       state := set_transform initial_state transform projection;
       devicePixelRatio := dpr; tooltip_shown := None; cursor := "";
       trace := [] |} in
  Js.Normal (render (loadBuffers g)).

Definition constructor (dpr : Js.number) (container : option Container)
  (data : option Data) (options : Options) : Js.completion ReglGraph :=
  match container with
  | None =>
      Js.Throw "Informe um elemento HTML como container para plotagem do grafo"
  | Some container =>
      match data with
      | None => Js.Throw "Informe os dados para a rede"
      | Some data =>
          match data_nodes data with
          | None =>
              Js.Throw "O objeto de dados da rede não contem a propriedade nodes (nós)"
          | Some nodes =>
              if match opt_showEdges options with
                 | None => true
                 | Some b => b
                 end
                 && match data_edges data with None => true | Some _ => false end
              then
                Js.Throw "O objeto de dados da rede não contem a propriedade edges (arestas)"
              else
                init (merge_settings default_settings options) container dpr
                     nodes (data_edges data)
          end
      end
  end.

Definition perform (g : ReglGraph) (op : operation) : Js.completion ReglGraph :=
  match op with
  | MouseMove event => handleMouseMove g event
  | Click event => handleClick g event
  | MouseDown => Js.Normal (handleMouseDown g)
  | MouseUp => Js.Normal (handleMouseUp g)
  | Zoom x y k => Js.Normal (handleZoom g x y k)
  | Reset => Js.Normal (reset g)
  | Highlight nodesIds => highlight g nodesIds
  end.

Fixpoint perform_all (g : ReglGraph) (ops : list operation)
  : Js.completion ReglGraph :=
  match ops with
  | [] => Js.Normal g
  | op :: rest => g' <- perform g op ;; perform_all g' rest
  end.

Definition setOption (g : ReglGraph) (u : option setting) : ReglGraph :=
  match u with
  | Some u =>
      render (with_settings g (merge_settings (settings g) (as_options u)))
  | None => g
  end.

Definition act (g : ReglGraph) (a : action) : Js.completion ReglGraph :=
  match a with
  | Handle op => perform g op
  | Configure u => Js.Normal (setOption g u)
  end.

Fixpoint act_all (g : ReglGraph) (l : list action) : Js.completion ReglGraph :=
  match l with
  | [] => Js.Normal g
  | a :: rest => g' <- act g a ;; act_all g' rest
  end.

End Quiet.

(** * Proofs *)

(** ** Facts on binary64 comparisons and arithmetic used by the proofs *)

Module FloatFacts.

Lemma isFinite_sf x : Js.isFinite x = sf_finite (Prim2SF x).
Proof.
  unfold Js.isFinite. rewrite classify_spec.
  destruct (Prim2SF x) as [[]|[]| |[] m e]; simpl; try reflexivity;
    match goal with |- context [if ?b then _ else _] => destruct b end;
    reflexivity.
Qed.

Lemma Prim2SF_inj x y : Prim2SF x = Prim2SF y -> x = y.
Proof.
  intros H. rewrite <- (SF2Prim_Prim2SF x), <- (SF2Prim_Prim2SF y).
  now rewrite H.
Qed.

(** *** Order *)

Lemma compare_cont_Eq_Lt_trans m1 m2 m3 :
  Pos.compare_cont Eq m1 m2 = Lt -> Pos.compare_cont Eq m2 m3 = Lt ->
  Pos.compare_cont Eq m1 m3 = Lt.
Proof.
  change (Pos.compare_cont Eq) with Pos.compare.
  rewrite !Pos.compare_lt_iff. lia.
Qed.

Lemma compare_cont_Eq_Gt_trans m1 m2 m3 :
  Pos.compare_cont Eq m1 m2 = Gt -> Pos.compare_cont Eq m2 m3 = Gt ->
  Pos.compare_cont Eq m1 m3 = Gt.
Proof.
  change (Pos.compare_cont Eq) with Pos.compare.
  rewrite !Pos.compare_gt_iff. lia.
Qed.

Lemma SFltb_trans a b c :
  SFltb a b = true -> SFltb b c = true -> SFltb a c = true.
Proof.
  unfold SFltb.
  destruct a as [sa|sa| |sa ma ea], b as [sb|sb| |sb mb eb],
           c as [sc|sc| |sc mc ec]; simpl;
    try destruct sa; try destruct sb; try destruct sc; simpl;
    try congruence.
  - destruct (Z.compare_spec ea eb), (Z.compare_spec eb ec); simpl;
      try congruence; subst.
    + rewrite Z.compare_refl.
      destruct (Pos.compare_cont Eq ma mb) eqn:E1; simpl; try congruence;
      destruct (Pos.compare_cont Eq mb mc) eqn:E2; simpl; try congruence.
      now rewrite (compare_cont_Eq_Gt_trans _ _ _ E1 E2).
    + intros _ _. destruct (Z.compare_spec eb ec); try lia; reflexivity.
    + intros _ _. destruct (Z.compare_spec ea ec); try lia; reflexivity.
    + intros _ _. destruct (Z.compare_spec ea ec); try lia; reflexivity.
  - destruct (Z.compare_spec ea eb), (Z.compare_spec eb ec); simpl;
      try congruence; subst.
    + rewrite Z.compare_refl.
      destruct (Pos.compare_cont Eq ma mb) eqn:E1; simpl; try congruence;
      destruct (Pos.compare_cont Eq mb mc) eqn:E2; simpl; try congruence.
      now rewrite (compare_cont_Eq_Lt_trans _ _ _ E1 E2).
    + intros _ _. destruct (Z.compare_spec eb ec); try lia; reflexivity.
    + intros _ _. destruct (Z.compare_spec ea ec); try lia; reflexivity.
    + intros _ _. destruct (Z.compare_spec ea ec); try lia; reflexivity.
Qed.

Lemma ltb_trans x y z : (x <? y) = true -> (y <? z) = true -> (x <? z) = true.
Proof. rewrite !ltb_spec. apply SFltb_trans. Qed.

Lemma SFltb_asym a b : SFltb a b = true -> SFltb b a = false.
Proof.
  unfold SFltb.
  destruct a as [sa|sa| |sa ma ea], b as [sb|sb| |sb mb eb]; simpl;
    try destruct sa; try destruct sb; simpl; try congruence.
  - rewrite (Z.compare_antisym ea eb).
    destruct (ea ?= eb)%Z; simpl; try congruence.
    change (Pos.compare_cont Eq) with Pos.compare.
    rewrite (Pos.compare_antisym ma mb).
    destruct (ma ?= mb)%positive; simpl; congruence.
  - rewrite (Z.compare_antisym ea eb).
    destruct (ea ?= eb)%Z; simpl; try congruence.
    change (Pos.compare_cont Eq) with Pos.compare.
    rewrite (Pos.compare_antisym ma mb).
    destruct (ma ?= mb)%positive; simpl; congruence.
Qed.

Lemma ltb_asym x y : (x <? y) = true -> (y <? x) = false.
Proof. rewrite !ltb_spec. apply SFltb_asym. Qed.

Lemma ltb_irrefl x : (x <? x) = false.
Proof.
  destruct (x <? x) eqn:E; [|reflexivity].
  now rewrite (ltb_asym _ _ E) in E.
Qed.

(** *** Arithmetic on finite values *)

Lemma Prim2SF_one : Prim2SF 1 = S754_finite false 4503599627370496 (-52).
Proof. vm_compute. reflexivity. Qed.

Lemma Prim2SF_zero : Prim2SF 0 = S754_zero false.
Proof. vm_compute. reflexivity. Qed.

Lemma SFsub_self s : sf_finite s = true -> SF64sub s s = S754_zero false.
Proof.
  destruct s as [[]|[]| |sg m e]; simpl; try congruence; intros _.
  unfold SF64sub, SFsub. rewrite Z.min_id.
  unfold shl_align. rewrite !Z.sub_diag. reflexivity.
Qed.

Lemma sub_self x : Js.isFinite x = true -> x - x = 0.
Proof.
  rewrite isFinite_sf. intros H. apply Prim2SF_inj.
  rewrite sub_spec, (SFsub_self _ H). symmetry. exact Prim2SF_zero.
Qed.

Lemma digits2_pos_shift52 m :
  Zpos (digits2_pos (4503599627370496 * m)) = (Zpos (digits2_pos m) + 52)%Z.
Proof. cbn [Pos.mul digits2_pos]. rewrite !Pos2Z.inj_succ. lia. Qed.

Lemma SFmul_one s :
  valid_binary s = true -> sf_finite s = true ->
  SF64mul s (S754_finite false 4503599627370496 (-52)) = s.
Proof.
  destruct s as [[]|[]| |sg m e]; simpl; try congruence; intros Hv _.
  unfold SF64mul, SFmul. rewrite xorb_false_r.
  unfold bounded, canonical_mantissa in Hv.
  apply andb_prop in Hv as [Hc Hb]. apply Z.eqb_eq in Hc.
  unfold binary_round_aux, shr_fexp. unfold Zdigits2 at 1.
  rewrite (Pos.mul_comm m), digits2_pos_shift52.
  replace (Z.pos (digits2_pos m) + 52 + (e + -52))%Z
    with (Z.pos (digits2_pos m) + e)%Z by lia.
  rewrite Hc.
  replace (e - (e + -52))%Z with 52%Z by lia.
  assert (Hs : shr (shr_record_of_loc (Z.pos (4503599627370496 * m)) loc_Exact)
                 (e + -52) 52 = (Build_shr_record (Z.pos m) false false, e)).
  { unfold shr. apply pair_equal_spec. split; [cbn; reflexivity | lia]. }
  rewrite Hs. cbn [shr_m loc_of_shr_record round_nearest_even Zdigits2].
  rewrite Hc, Z.sub_diag. cbn [shr shr_record_of_loc shr_m]. now rewrite Hb.
Qed.

Lemma mul_one x : Js.isFinite x = true -> x * 1 = x.
Proof.
  rewrite isFinite_sf. intros H. apply Prim2SF_inj.
  rewrite mul_spec, Prim2SF_one.
  apply SFmul_one; [apply Prim2SF_valid | exact H].
Qed.

Lemma mul_zero x :
  Js.isFinite x = true -> sf_zero (Prim2SF (x * 0)) = true.
Proof.
  rewrite isFinite_sf. intros H. rewrite mul_spec, Prim2SF_zero.
  destruct (Prim2SF x) as [[]|[]| |sg m e]; simpl in *; congruence.
Qed.

Lemma SFeqb_refl s : sf_finite s = true -> SFeqb s s = true.
Proof.
  destruct s as [[]|[]| |[] m e]; simpl; try congruence; intros _;
    unfold SFeqb; simpl; try reflexivity; rewrite Z.compare_refl;
    change (Pos.compare_cont Eq) with Pos.compare; now rewrite Pos.compare_refl.
Qed.

Lemma eqb_refl x : Js.isFinite x = true -> (x =? x) = true.
Proof. rewrite isFinite_sf, eqb_spec. apply SFeqb_refl. Qed.

Lemma leb_refl x : Js.isFinite x = true -> (x <=? x) = true.
Proof.
  rewrite isFinite_sf, leb_spec. intros H.
  pose proof (SFeqb_refl _ H) as E. unfold SFeqb in E. unfold SFleb.
  destruct (SFcompare (Prim2SF x) (Prim2SF x)) as [[]|]; congruence.
Qed.

Lemma isFinite_not_nan x : Js.isFinite x = true -> is_nan x = false.
Proof. intros H. unfold is_nan. now rewrite (eqb_refl _ H). Qed.

(** Adding a zero of either sign leaves a finite number unchanged
    (as [===] sees it). *)
Lemma add_zero_r x z :
  Js.isFinite x = true -> sf_zero (Prim2SF z) = true ->
  Js.isFinite (x + z) = true /\ (x + z =? x) = true.
Proof.
  rewrite !isFinite_sf. intros Hx Hz. rewrite eqb_spec, add_spec.
  destruct (Prim2SF z) as [sz| | |]; simpl in Hz; try congruence.
  destruct (Prim2SF x) as [sx| | |sx m e] eqn:E; simpl in Hx; try congruence.
  - destruct sx, sz; simpl; split; reflexivity.
  - simpl. split; [reflexivity|].
    apply (SFeqb_refl (S754_finite sx m e)). reflexivity.
Qed.

Lemma add_zero_l x z :
  Js.isFinite x = true -> sf_zero (Prim2SF z) = true ->
  Js.isFinite (z + x) = true /\ (z + x =? x) = true.
Proof.
  rewrite !isFinite_sf. intros Hx Hz. rewrite eqb_spec, add_spec.
  destruct (Prim2SF z) as [sz| | |]; simpl in Hz; try congruence.
  destruct (Prim2SF x) as [sx| | |sx m e] eqn:E; simpl in Hx; try congruence.
  - destruct sx, sz; simpl; split; reflexivity.
  - simpl. split; [reflexivity|].
    apply (SFeqb_refl (S754_finite sx m e)). reflexivity.
Qed.

Lemma SFeqb_trans a b c : SFeqb a b = true -> SFeqb b c = true -> SFeqb a c = true.
Proof.
  unfold SFeqb.
  destruct a as [sa|sa| |sa ma ea], b as [sb|sb| |sb mb eb],
           c as [sc|sc| |sc mc ec]; simpl;
    try destruct sa; try destruct sb; try destruct sc; simpl;
    try congruence;
    change (Pos.compare_cont Eq) with Pos.compare;
    destruct (Z.compare_spec ea eb); simpl; try congruence;
    destruct (Pos.compare_spec ma mb); simpl; try congruence;
    destruct (Z.compare_spec eb ec); simpl; try congruence;
    destruct (Pos.compare_spec mb mc); simpl; try congruence;
    subst; now rewrite Z.compare_refl, Pos.compare_refl.
Qed.

Lemma eqb_trans x y z : (x =? y) = true -> (y =? z) = true -> (x =? z) = true.
Proof. rewrite !eqb_spec. apply SFeqb_trans. Qed.

(** *** Square roots and zeros *)

Lemma binary_round_aux_sign sx mx ex lx :
  match binary_round_aux prec emax sx mx ex lx with
  | S754_zero s | S754_infinity s | S754_finite s _ _ => s = sx
  | S754_nan => True
  end.
Proof.
  unfold binary_round_aux.
  destruct (shr_fexp prec emax mx ex lx) as [mrs' e'].
  destruct (shr_fexp prec emax _ e' loc_Exact) as [mrs'' e''].
  destruct (shr_m mrs''); try exact I; try reflexivity.
  destruct (e'' <=? emax - prec)%Z; reflexivity.
Qed.

Lemma SFsqrt_not_neg s z :
  sf_zero z = true -> SFltb (SF64sqrt s) z = false.
Proof.
  destruct z as [sz| | |]; simpl; try congruence; intros _.
  destruct s as [[]|[]| |[] m e]; try reflexivity.
  unfold SF64sqrt, SFsqrt.
  destruct (SFsqrt_core_binary prec emax (Z.pos m) e) as [[mz ez] lz].
  pose proof (binary_round_aux_sign false mz ez lz) as H.
  destruct (binary_round_aux prec emax false mz ez lz); subst; reflexivity.
Qed.

(** A square root is never below zero. *)
Lemma sqrt_not_neg x z : sf_zero (Prim2SF z) = true -> (sqrt x <? z) = false.
Proof. intros H. rewrite ltb_spec, sqrt_spec. now apply SFsqrt_not_neg. Qed.

Lemma is_zero_sf d : is_zero d = sf_zero (Prim2SF d).
Proof.
  unfold is_zero. change zero with 0. rewrite eqb_spec, Prim2SF_zero.
  destruct (Prim2SF d) as [[]|[]| |[] m e]; reflexivity.
Qed.

Lemma zero_ltb d m : is_zero d = true -> (0 <? m) = true -> (d <? m) = true.
Proof.
  rewrite is_zero_sf, !ltb_spec, Prim2SF_zero.
  destruct (Prim2SF d) as [sd| | |]; simpl; try congruence; intros _.
  destruct (Prim2SF m) as [[]|[]| |[] mm em]; cbv; congruence.
Qed.

(** A number below some other one, not below zero and not zero, is above
    zero. *)
Lemma positive_of_nonzero d m z :
  (d <? m) = true -> sf_zero (Prim2SF z) = true -> (d <? z) = false ->
  is_zero d = false -> (0 <? d) = true.
Proof.
  rewrite is_zero_sf, !ltb_spec, Prim2SF_zero.
  destruct (Prim2SF z) as [sz| | |]; simpl; try congruence.
  destruct (Prim2SF d) as [[]|[]| |[] md ed]; simpl; try congruence;
  destruct (Prim2SF m) as [[]|[]| |[] mm em]; unfold SFltb; simpl;
    congruence.
Qed.

End FloatFacts.

(** ** Picking: [raycast] *)

Section Picking.

Import FloatFacts.

Variable g : ReglGraph.

Lemma point_distance_valid i :
  (i <? List.length (KDBush.points (searchIndex g)))%nat = true ->
  exists d, point_distance g i = Js.Normal d.
Proof.
  intros H. apply Nat.ltb_lt in H. unfold point_distance.
  destruct (getScatterGlPos g None) as [mx my].
  destruct (nth_error (KDBush.points (searchIndex g)) i) as [[[x y] k]|] eqn:E.
  - eauto.
  - apply nth_error_None in E. lia.
Qed.

Lemma point_distance_not_neg i d z :
  point_distance g i = Js.Normal d -> sf_zero (Prim2SF z) = true ->
  (d <? z) = false.
Proof.
  unfold point_distance. destruct (getScatterGlPos g None) as [mx my].
  destruct (nth_error _ i) as [[[x y] k]|]; [|discriminate].
  intros H Hz. injection H as <-. now apply sqrt_not_neg.
Qed.

Lemma picked_weaken r l1 l2 acc :
  picked g r l1 acc -> picked g r (l1 ++ l2) acc.
Proof.
  unfold picked. destruct (snd acc); [|auto].
  intros (Hin & Hd & Hlt). repeat split; auto. apply in_or_app; auto.
Qed.

Lemma closest_picked r rest : forall seen acc res,
  picked g r seen acc ->
  closest g rest acc = Js.Normal res ->
  picked g r (seen ++ rest) res.
Proof.
  induction rest as [|idx rest IH]; intros seen acc res Hacc Hres; simpl in Hres.
  - injection Hres as <-. now rewrite app_nil_r.
  - destruct (point_distance g idx) as [d|msg] eqn:Hd; simpl in Hres;
      [|discriminate].
    replace (seen ++ idx :: rest) with ((seen ++ [idx]) ++ rest)
      by (now rewrite <- app_assoc).
    apply IH with (2 := Hres).
    destruct (d <? fst acc) eqn:Hlt.
    + unfold picked; simpl. repeat split.
      * apply in_or_app. right. now left.
      * exact Hd.
      * unfold picked in Hacc. destruct (snd acc) as [j|].
        -- destruct Hacc as (_ & _ & Hj). exact (ltb_trans _ _ _ Hlt Hj).
        -- now rewrite <- Hacc.
    + now apply picked_weaken.
Qed.

Lemma closest_total rest : forall acc,
  forallb (fun i => (i <? List.length (KDBush.points (searchIndex g)))%nat) rest
    = true ->
  exists res, closest g rest acc = Js.Normal res.
Proof.
  induction rest as [|idx rest IH]; intros acc H; simpl.
  - eauto.
  - simpl in H. apply andb_prop in H as [H1 H2].
    destruct (point_distance_valid idx H1) as (d & ->). simpl.
    apply IH, H2.
Qed.

(** Once the loop holds a candidate at distance zero, it keeps it. *)
Lemma closest_keeps_zero rest : forall d i res,
  is_zero d = true ->
  closest g rest (d, Some i) = Js.Normal res -> res = (d, Some i).
Proof.
  induction rest as [|idx rest IH]; intros d i res Hz Hres; simpl in Hres.
  - now injection Hres as <-.
  - destruct (point_distance g idx) as [d'|msg] eqn:Hd; simpl in Hres;
      [|discriminate].
    rewrite is_zero_sf in Hz.
    rewrite (point_distance_not_neg idx d' d Hd Hz) in Hres.
    apply IH in Hres; [exact Hres | now rewrite is_zero_sf].
Qed.

(** With a positive radius the loop ends on the first candidate at
    distance zero. *)
Lemma closest_first_zero rest : forall acc j res,
  (0 <? fst acc) = true ->
  find (zero_distance g) rest = Some j ->
  closest g rest acc = Js.Normal res ->
  snd res = Some j.
Proof.
  induction rest as [|idx rest IH]; intros acc j res Hpos Hfind Hres;
    simpl in Hfind, Hres; [discriminate|].
  unfold zero_distance in Hfind at 1.
  destruct (point_distance g idx) as [d|msg] eqn:Hd; simpl in Hres;
    [|discriminate].
  destruct (is_zero d) eqn:Hz.
  - injection Hfind as <-.
    rewrite (zero_ltb _ _ Hz Hpos) in Hres.
    apply closest_keeps_zero in Hres; [|exact Hz]. now subst res.
  - apply IH with (3 := Hres); [|exact Hfind].
    destruct (d <? fst acc) eqn:Hlt; [|exact Hpos]. simpl.
    apply (positive_of_nonzero d (fst acc) 0 Hlt); [reflexivity| |exact Hz].
    apply (point_distance_not_neg idx d 0 Hd). reflexivity.
Qed.

Lemma distance_self x y :
  Js.isFinite x = true -> Js.isFinite y = true -> distance x y x y = 0.
Proof.
  intros Hx Hy. unfold distance. rewrite (sub_self x Hx), (sub_self y Hy).
  vm_compute. reflexivity.
Qed.

(** A point at the finite position of the cursor is at distance zero. *)
Lemma zero_distance_at_cursor i x y k :
  nth_error (KDBush.points (searchIndex g)) i = Some (x, y, k) ->
  getScatterGlPos g None = (x, y) ->
  Js.isFinite x = true -> Js.isFinite y = true ->
  zero_distance g i = true.
Proof.
  intros Hi Hc Hx Hy. unfold zero_distance, point_distance.
  rewrite Hc, Hi, (distance_self x y Hx Hy). reflexivity.
Qed.



(** [raycast] returns when every candidate is a point of the index. *)
Lemma raycast_total :
  candidates_valid g = true -> exists r, raycast g = Js.Normal r.
Proof.
  intros Hv. unfold raycast.
  destruct (closest_total (pointsInBBox g) (scaledPointSize g, None) Hv)
    as (res & ->).
  simpl. eauto.
Qed.

End Picking.

(** C1 (amended).  [raycast] only returns a candidate whose distance from
    the cursor's world position is below the search radius, so never one
    beyond it.  When the candidates are points of the index, [raycast]
    returns normally; when moreover the radius is positive and a candidate
    lies at the cursor's exact (finite) world position, [raycast] returns
    the first candidate at distance zero: that node if no candidate before
    it lies there too, a node at the same place otherwise. *)
Theorem raycast_within_radius_and_exact_hit (g : ReglGraph) :
  (forall idx,
     raycast g = Js.Normal (Some idx) ->
     In idx (pointsInBBox g) /\
     exists d, point_distance g idx = Js.Normal d /\
               (d <? scaledPointSize g) = true /\
               (scaledPointSize g <? d) = false) /\
  (candidates_valid g = true ->
     (exists r, raycast g = Js.Normal r) /\
     forall i x y k,
       In i (pointsInBBox g) ->
       nth_error (KDBush.points (searchIndex g)) i = Some (x, y, k) ->
       getScatterGlPos g None = (x, y) ->
       Js.isFinite x = true -> Js.isFinite y = true ->
       (0 <? scaledPointSize g) = true ->
       exists j,
         find (zero_distance g) (pointsInBBox g) = Some j /\
         raycast g = Js.Normal (Some j) /\
         zero_distance g j = true /\ zero_distance g i = true).
Proof.
  split.
  - intros idx H. unfold raycast in H.
    destruct (closest g (pointsInBBox g) (scaledPointSize g, None))
      as [[m c]|msg] eqn:E; simpl in H; [|discriminate].
    injection H as ->.
    pose proof (closest_picked g (scaledPointSize g) (pointsInBBox g) []
                  (scaledPointSize g, None) (m, Some idx) eq_refl E) as P.
    unfold picked in P; simpl in P. destruct P as (Hin & Hd & Hlt).
    split; [exact Hin|]. exists m. repeat split; auto.
    now apply FloatFacts.ltb_asym.
  - intros Hv. split.
    + now apply raycast_total.
    + intros i x y k Hin Hi Hc Hx Hy Hpos.
      pose proof (zero_distance_at_cursor g i x y k Hi Hc Hx Hy) as Hz.
      destruct (find (zero_distance g) (pointsInBBox g)) as [j|] eqn:Hf.
      * exists j. split; [reflexivity|].
        destruct (closest_total g (pointsInBBox g) (scaledPointSize g, None) Hv)
          as (res & Hres).
        pose proof (closest_first_zero g (pointsInBBox g)
                      (scaledPointSize g, None) j res Hpos Hf Hres) as Hj.
        split; [|split].
        -- unfold raycast. rewrite Hres. simpl. now rewrite Hj.
        -- now apply find_some in Hf as [_ Hzj].
        -- exact Hz.
      * exfalso. apply (find_none _ _ Hf) in Hin. congruence.
Qed.

(** On the demo data with the cursor on [c]: the candidates are [c] and [d],
    and [raycast] returns [c], the first of the two. *)
Lemma raycast_within_radius_and_exact_hit_witness :
  exists g0 g,
    demo = Js.Normal g0 /\
    handleMouseMove g0 (mouse_at 256 256) = Js.Normal g /\
    candidates_valid g = true /\
    raycast g = Js.Normal (Some 2%nat) /\
    (exists d, point_distance g 2 = Js.Normal d /\
               (d <? scaledPointSize g) = true /\
               (scaledPointSize g <? d) = false) /\
    zero_distance g 2 = true.
Proof.
  eexists. eexists.
  split; [vm_compute; reflexivity|].
  split; [vm_compute; reflexivity|].
  match goal with
  | |- candidates_valid ?g = true /\ _ =>
      destruct (raycast_within_radius_and_exact_hit g) as [A B];
      assert (Hv : candidates_valid g = true) by (vm_compute; reflexivity);
      destruct (B Hv) as [_ C];
      destruct (C 2%nat 256 256 2%nat) as (j & Hf & Hr & Hz & _);
      try (vm_compute; reflexivity)
  end.
  - vm_compute. auto.
  - assert (j = 2%nat) as ->.
    { vm_compute in Hf. now injection Hf. }
    split; [exact Hv|]. split; [exact Hr|].
    split; [|exact Hz].
    destruct (A 2%nat Hr) as (_ & d & Hd & H1 & H2). eauto.
Defined.

(** Node [d] is a candidate at the cursor's exact position, and [raycast]
    returns [c], not [d]. *)
Lemma raycast_exact_hit_counterexample :
  exists g0 g,
    demo = Js.Normal g0 /\
    handleMouseMove g0 (mouse_at 256 256) = Js.Normal g /\
    pointsInBBox g = [2%nat; 3%nat] /\
    nth_error (KDBush.points (searchIndex g)) 3 = Some (256, 256, 3%nat) /\
    getScatterGlPos g None = (256, 256) /\
    raycast g = Js.Normal (Some 2%nat) /\
    raycast g <> Js.Normal (Some 3%nat).
Proof.
  eexists. eexists.
  split; [vm_compute; reflexivity|].
  split; [vm_compute; reflexivity|].
  repeat split; try (vm_compute; reflexivity).
  vm_compute. discriminate.
Qed.

(** ** The calls and their quiet counterparts

    A call that returns leaves the object that its counterpart of
    [Quiet] leaves. *)

Lemma render_quiet g g' : render g = Js.Normal g' -> g' = Quiet.render g.
Proof.
  unfold render, Quiet.render.
  destruct (frame g); simpl; [|discriminate]. now intros [= <-].
Qed.

Lemma setHoveredNode_quiet g idx g' :
  setHoveredNode g idx = Js.Normal g' -> g' = Quiet.setHoveredNode g idx.
Proof.
  unfold setHoveredNode, Quiet.setHoveredNode. cbv zeta.
  destruct (negb _); [apply render_quiet | now intros [= <-]].
Qed.

Lemma setSelectedNode_quiet g idx g' :
  setSelectedNode g idx = Js.Normal g' -> g' = Quiet.setSelectedNode g idx.
Proof.
  unfold setSelectedNode, Quiet.setSelectedNode. cbv zeta.
  destruct (negb (selectedNode (state g) =? _)%Z);
    [apply render_quiet | now intros [= <-]].
Qed.

Lemma highlight_quiet g ids g' :
  highlight g ids = Js.Normal g' -> Quiet.highlight g ids = Js.Normal g'.
Proof.
  unfold highlight, Quiet.highlight. destruct ids as [ids|]; simpl.
  - destruct (resolve_ids (app_graph g) ids) as [l|msg]; simpl; [|discriminate].
    destruct (setSelectedNode _ None) as [g1|msg] eqn:E; simpl; [|discriminate].
    apply setSelectedNode_quiet in E. subst g1.
    intros H. apply render_quiet in H. now subst g'.
  - intros H. apply render_quiet in H. now subst g'.
Qed.

Lemma handleMouseMove_quiet g event g' :
  handleMouseMove g event = Js.Normal g' ->
  Quiet.handleMouseMove g event = Js.Normal g'.
Proof.
  unfold handleMouseMove, Quiet.handleMouseMove. cbv zeta.
  destruct (negb _); [|auto].
  destruct (raycast _) as [r|msg]; simpl; [|discriminate].
  destruct (truthy_index r);
    (destruct (setHoveredNode _ _) as [g1|msg] eqn:E; simpl; [|discriminate]);
    apply setHoveredNode_quiet in E; subst g1; auto.
Qed.

Lemma handleClick_quiet g event g' :
  handleClick g event = Js.Normal g' ->
  Quiet.handleClick g event = Js.Normal g'.
Proof.
  unfold handleClick, Quiet.handleClick.
  destruct (raycast g) as [r|msg]; simpl; [|discriminate].
  destruct (highlight g None) as [g1|msg] eqn:E; simpl; [|discriminate].
  apply highlight_quiet in E. simpl in E. injection E as <-.
  destruct (truthy_index r);
    (destruct (setSelectedNode _ _) as [g2|msg] eqn:E2; simpl; [|discriminate]);
    apply setSelectedNode_quiet in E2; subst g2; auto.
Qed.

Lemma handleMouseUp_quiet g g' :
  handleMouseUp g = Js.Normal g' -> g' = Quiet.handleMouseUp g.
Proof. unfold handleMouseUp, Quiet.handleMouseUp. apply render_quiet. Qed.

Lemma handleZoom_quiet g x y k g' :
  handleZoom g x y k = Js.Normal g' -> g' = Quiet.handleZoom g x y k.
Proof.
  unfold handleZoom, Quiet.handleZoom. cbv zeta.
  destruct (render _) as [g1|msg] eqn:E; simpl; [|discriminate].
  apply render_quiet in E. subst g1. now intros [= <-].
Qed.

Lemma perform_quiet g op g' :
  perform g op = Js.Normal g' -> Quiet.perform g op = Js.Normal g'.
Proof.
  destruct op as [ev|ev| | |x y k| |ids]; simpl; auto.
  - apply handleMouseMove_quiet.
  - apply handleClick_quiet.
  - intros H. now rewrite (handleMouseUp_quiet _ _ H).
  - intros H. now rewrite (handleZoom_quiet _ _ _ _ _ H).
  - apply highlight_quiet.
Qed.

Lemma perform_all_quiet ops : forall g g',
  perform_all g ops = Js.Normal g' -> Quiet.perform_all g ops = Js.Normal g'.
Proof.
  induction ops as [|op ops IH]; intros g g' H; simpl in *; [exact H|].
  destruct (perform g op) as [g1|msg] eqn:E; simpl in H; [|discriminate].
  rewrite (perform_quiet _ _ _ E). simpl. now apply IH.
Qed.

Lemma setOption_quiet g u g' :
  setOption g u = Js.Normal g' -> g' = Quiet.setOption g u.
Proof.
  unfold setOption, Quiet.setOption. destruct u as [u|].
  - apply render_quiet.
  - now intros [= <-].
Qed.

Lemma act_quiet g a g' :
  act g a = Js.Normal g' -> Quiet.act g a = Js.Normal g'.
Proof.
  destruct a as [op|u]; simpl.
  - apply perform_quiet.
  - intros H. now rewrite (setOption_quiet _ _ _ H).
Qed.

Lemma act_all_quiet l : forall g g',
  act_all g l = Js.Normal g' -> Quiet.act_all g l = Js.Normal g'.
Proof.
  induction l as [|a l IH]; intros g g' H; simpl in *; [exact H|].
  destruct (act g a) as [g1|msg] eqn:E; simpl in H; [|discriminate].
  rewrite (act_quiet _ _ _ E). simpl. now apply IH.
Qed.

Lemma constructor_quiet dpr container data options g :
  constructor dpr container data options = Js.Normal g ->
  Quiet.constructor dpr container data options = Js.Normal g.
Proof.
  unfold constructor, Quiet.constructor.
  destruct container as [c|]; [|discriminate].
  destruct data as [d|]; [|discriminate].
  destruct (data_nodes d) as [nodes|]; [|discriminate].
  destruct (_ && _); [discriminate|].
  unfold init, Quiet.init.
  destruct (loadData _ _ _ _ _) as [l|msg]; simpl; [|discriminate].
  intros H. apply render_quiet in H. now subst g.
Qed.

(** ** The search radius *)

(** C3 (amended).  The search radius is the formula of the specification
    with the scaling fixed to the constant [1], that is [5000 * dpr]: it
    is not derived from the zoom level.  States that differ in their
    transform, and the states before and after a zoom, have the same
    radius: the object with the transform [handleZoom] writes, and the
    object [handleZoom] returns. *)
Theorem radius_is_independent_of_zoom (g : ReglGraph) :
  scaledPointSize g = spec_radius 1 (devicePixelRatio g) /\
  scaledPointSize g = 5000 * devicePixelRatio g /\
  (forall st, scaledPointSize (with_state g st) = scaledPointSize g) /\
  (forall x y k,
     scaledPointSize (updateTransform g x y k) = scaledPointSize g) /\
  (forall x y k g',
     handleZoom g x y k = Js.Normal g' -> scaledPointSize g' = scaledPointSize g).
Proof.
  repeat split.
  intros x y k g' H. apply handleZoom_quiet in H. subst g'.
  unfold Quiet.handleZoom.
  destruct (mouseDown _); reflexivity.
Qed.

(** The demo data, zoomed to twice the size: the radius is 5000 before
    and after. *)
Lemma radius_is_independent_of_zoom_witness :
  exists g0 g,
    demo = Js.Normal g0 /\
    handleZoom g0 0 0 2 = Js.Normal g /\
    zoom g = 2 /\
    scaledPointSize g = scaledPointSize g0 /\
    scaledPointSize g0 = 5000.
Proof.
  eexists. eexists. split; [vm_compute; reflexivity|].
  split; [vm_compute; reflexivity|].
  split; [vm_compute; reflexivity|].
  match goal with
  | |- scaledPointSize ?g = scaledPointSize ?g0 /\ _ =>
      destruct (radius_is_independent_of_zoom g0) as (_ & H5 & _ & _ & Hz);
      split; [apply (Hz 0 0 2 g); vm_compute; reflexivity|];
      rewrite H5; vm_compute; reflexivity
  end.
Defined.

(** At zoom 1 and at zoom 2 the code searches within 5000, where the
    formula asks for 5000 and for 10000. *)
Lemma radius_follows_zoom_counterexample :
  exists g0 g,
    demo = Js.Normal g0 /\
    handleZoom g0 0 0 2 = Js.Normal g /\
    zoom g0 = 1 /\ zoom g = 2 /\
    devicePixelRatio g0 = 1 /\ devicePixelRatio g = 1 /\
    spec_radius (zoom g0) (devicePixelRatio g0) = 5000 /\
    spec_radius (zoom g) (devicePixelRatio g) = 10000 /\
    scaledPointSize g0 = 5000 /\
    scaledPointSize g = 5000 /\
    (scaledPointSize g =? spec_radius (zoom g) (devicePixelRatio g)) = false.
Proof.
  eexists. eexists. split; [vm_compute; reflexivity|].
  split; [vm_compute; reflexivity|].
  repeat split; vm_compute; reflexivity.
Qed.

(** ** The interaction state machine *)

Lemma neighbors_of_none g : neighbors_of g (-1) = [].
Proof. reflexivity. Qed.



(** *** Hover and selection with their neighbor sets *)




(** *** Selection against highlight *)



Lemma resolve_ids_known gr ids :
  forallb (fun i => match NGraph.getNode gr i with
                    | Some _ => true
                    | None => false
                    end) ids = true ->
  exists l, resolve_ids gr ids = Js.Normal l /\ List.length l = List.length ids.
Proof.
  induction ids as [|i ids IH]; simpl; intros H.
  - now exists [].
  - apply andb_prop in H as [H1 H2].
    destruct (NGraph.getNode gr i); [|discriminate].
    destruct (IH H2) as (l & -> & Hl). simpl. eexists. split; [reflexivity|].
    simpl. now rewrite Hl.
Qed.






(** ** Construction *)

(** The constructor turns down a missing container, missing data, data
    without [nodes], and (edges being shown) data without [edges]. *)
Lemma constructor_rejects_missing_input dpr container data options :
  container = None \/ data = None \/
  (exists d, data = Some d /\
     (data_nodes d = None \/
      (opt_showEdges options <> Some false /\ data_edges d = None))) ->
  Js.throws (constructor dpr container data options) = true.
Proof.
  unfold constructor.
  intros [->|[->|(d & -> & [H|[H1 H2]])]].
  - reflexivity.
  - now destruct container.
  - destruct container; [|reflexivity]. now rewrite H.
  - destruct container; [|reflexivity].
    destruct (data_nodes d); [|reflexivity]. rewrite H2.
    destruct (opt_showEdges options) as [[]|]; try reflexivity. congruence.
Qed.

(** C6 (the code departs from the claim).  The example scenario of the
    specification has a container, data, [nodes] and [edges], and yet the
    constructor throws: [loadData] tests [node.x] for truthiness, node [a]
    has [x = 0] and no [position], and reading [node.position.x] is a
    [TypeError]. *)
Theorem constructor_throws_on_zero_coordinate :
  data_nodes example_data <> None /\ data_edges example_data <> None /\
  forallb node_ok (or_default (data_nodes example_data) []) = false /\
  constructor 1 (Some example_container) (Some example_data) no_options
    = Js.Throw "TypeError: Cannot read properties of undefined".
Proof.
  repeat split; try discriminate; vm_compute; reflexivity.
Qed.

(** ** The weight scale *)

Section WeightScale.

Import FloatFacts.

Lemma extent_step_constant w :
  Js.isFinite w = true ->
  D3.extent_step (Some w, Some w) (Some w) = (Some w, Some w).
Proof.
  intros H. unfold D3.extent_step. now rewrite (ltb_irrefl w).
Qed.

(** The extent of a non-empty list of equal finite values is that value
    twice. *)
Lemma extent_constant w vs :
  Js.isFinite w = true -> vs <> [] -> Forall (eq (Some w)) vs ->
  D3.extent vs = (Some w, Some w).
Proof.
  intros Hw Hne Hall. unfold D3.extent.
  destruct vs as [|v vs]; [congruence|].
  inversion Hall as [|? ? <- Hrest]; subst. cbn [fold_left].
  replace (D3.extent_step (None, None) (Some w)) with (Some w, Some w)
    by (unfold D3.extent_step; now rewrite (leb_refl w Hw)).
  clear Hne Hall. induction Hrest as [|v vs <- _ IH]; cbn [fold_left].
  - reflexivity.
  - now rewrite (extent_step_constant w Hw).
Qed.

(** A scale over a degenerate finite domain, rounding into [[1, 1]],
    answers [1] and never divides. *)
Lemma apply_degenerate w x :
  Js.isFinite w = true -> Js.isFinite x = true ->
  D3.apply (D3.scaleLinear (Some w, Some w) (1, 1) true) (Some x) = 1.
Proof.
  intros Hw Hx. unfold D3.apply, D3.scaleLinear. simpl.
  rewrite (isFinite_not_nan x Hx), (ltb_irrefl w).
  unfold D3.normalize. rewrite (sub_self w Hw).
  vm_compute. reflexivity.
Qed.

Lemma node_extents_weight nodes : forall e e',
  node_extents nodes e = Js.Normal e' -> ext_weight e' = ext_weight e.
Proof.
  induction nodes as [|node nodes IH]; intros e e' H; simpl in H.
  - now injection H as <-.
  - destruct (node_coordinate_x node) as [x|]; simpl in H; [|discriminate].
    destruct (node_coordinate_y node) as [y|]; simpl in H; [|discriminate].
    now rewrite (IH _ _ H).
Qed.

(** Where the weights are read from the field that carries them, equal
    weights collapse the scale: its range is [[1, 1]] and every edge gets
    the line width [1]. *)
Lemma equal_weights_give_width_one s width height nodes edges w sc :
  showEdges s = true -> Js.isFinite w = true -> edges <> [] ->
  Forall (fun e => edge_size e = None /\ edge_weight e = Some w) edges \/
  (Js.truthy w = true /\ Forall (fun e => edge_size e = Some w) edges) ->
  load_scales s width height nodes (Some edges) = Js.Normal sc ->
  D3.range (scale_weight sc) = (1, 1) /\
  forall e, In e edges -> edge_width sc e = 1.
Proof.
  intros Hs Hw Hne Hall H. unfold load_scales in H. rewrite Hs in H.
  assert (He : weight_extent edges = Js.Normal (Some w, Some w)).
  { destruct edges as [|e0 rest]; [congruence|]. unfold weight_extent.
    destruct Hall as [Hall|[Ht Hall]].
    - inversion Hall as [|? ? [H0 H1] Hrest]; subst. rewrite H0, H1.
      rewrite extent_constant with (w := w); auto; [discriminate|].
      constructor; [now rewrite H1|].
      clear -Hrest. induction Hrest as [|e l [_ Hw'] _ IH]; simpl;
        constructor; auto.
    - inversion Hall as [|? ? H0 Hrest]; subst. rewrite H0, Ht.
      rewrite extent_constant with (w := w); auto; [discriminate|].
      constructor; [now rewrite H0|].
      clear -Hrest. induction Hrest as [|e l Hw' _ IH]; simpl;
        constructor; auto. }
  rewrite He in H. simpl in H.
  destruct (node_extents nodes _) as [e|] eqn:E; simpl in H; [|discriminate].
  apply node_extents_weight in E. simpl in E.
  injection H as <-. unfold make_scales.
  destruct (layoutAspectRatio _ _ _ _ _) as [mx my]. simpl.
  rewrite E. simpl. rewrite (eqb_refl w Hw).
  split; [reflexivity|].
  intros e0 Hin. unfold edge_width. simpl.
  destruct Hall as [Hall|[_ Hall]];
    rewrite Forall_forall in Hall; specialize (Hall e0 Hin).
  - destruct Hall as [-> ->]. now apply apply_degenerate.
  - rewrite Hall. now apply apply_degenerate.
Qed.

End WeightScale.

(** C9 (the code departs from the claim).  Two edges that both carry the
    weight [size: 0]: the first edge's [size] is tested for truthiness, so
    the extent is taken over the absent [weight] fields; the range does
    collapse to [[1, 1]], but over the domain [[NaN, NaN]], and every edge
    gets the line width [NaN] instead of [1], in a single bucket keyed
    [NaN]. *)
Theorem zero_size_edges_get_nan_width :
  exists sc l,
    load_scales demo_settings 512 512
      (or_default (data_nodes demo_data) []) (Some zero_size_edges)
      = Js.Normal sc /\
    D3.domain (scale_weight sc) = (nan, nan) /\
    D3.range (scale_weight sc) = (1, 1) /\
    loadData demo_settings 512 512
      (or_default (data_nodes demo_data) []) (Some zero_size_edges)
      = Js.Normal l /\
    link_widths l = [nan; nan] /\
    map fst (edgesPositionsByWeight (loaded_matrices l)) = [Some nan].
Proof.
  do 2 eexists.
  split; [vm_compute; reflexivity|].
  split; [vm_compute; reflexivity|].
  split; [vm_compute; reflexivity|].
  split; [vm_compute; reflexivity|].
  split; vm_compute; reflexivity.
Qed.

(** ** Screen to world: [getScatterGlPos] *)

Section ScreenToWorld.

Import FloatFacts.

(** Through the identity matrix a finite point comes back as it went in. *)
Lemma transformMat3_identity x y :
  Js.isFinite x = true -> Js.isFinite y = true ->
  let '(x', y', _) :=
    GlMatrix.transformMat3 (x, y, 1) (GlMatrix.Mat3 1 0 0 0 1 0 0 0 1) in
  (x' =? x) = true /\ (y' =? y) = true.
Proof.
  intros Hx Hy. simpl.
  rewrite (mul_one x Hx), (mul_one y Hy).
  change (1 * 0) with 0.
  destruct (add_zero_r x (y * 0) Hx (mul_zero y Hy)) as [F1 E1].
  destruct (add_zero_r (x + y * 0) 0 F1 eq_refl) as [_ E2].
  destruct (add_zero_l y (x * 0) Hy (mul_zero x Hx)) as [F3 E3].
  destruct (add_zero_r (x * 0 + y) 0 F3 eq_refl) as [_ E4].
  split.
  - exact (eqb_trans _ _ _ E2 E1).
  - exact (eqb_trans _ _ _ E4 E3).
Qed.

Lemma invert_none_iff m :
  GlMatrix.invert m = None <-> Js.truthy (GlMatrix.det m) = false.
Proof.
  unfold GlMatrix.invert, GlMatrix.det.
  destruct (Js.truthy _); simpl; split; congruence.
Qed.

End ScreenToWorld.

(** C10 (amended).  [getScatterGlPos] always returns a pair of numbers
    and never throws.  The composed matrix counts as singular exactly when
    its determinant is zero or [NaN]; the identity then stands in for the
    inverse, and a finite normalized-device point comes back unchanged (as
    [===] sees it).  Picking goes on from that point without crashing: it
    returns whatever node lies within the radius of it, or none. *)
Theorem getScatterGlPos_total_identity_fallback (g : ReglGraph)
  (pos : option (Js.number * Js.number)) :
  (exists x y, getScatterGlPos g pos = (x, y)) /\
  (is_singular g = true <->
   Js.truthy (GlMatrix.det (GlMatrix.multiply (projection (state g))
                                              (transform (state g)))) = false) /\
  (is_singular g = true ->
   Js.isFinite (fst (ndc_point g pos)) = true ->
   Js.isFinite (snd (ndc_point g pos)) = true ->
   (fst (getScatterGlPos g pos) =? fst (ndc_point g pos)) = true /\
   (snd (getScatterGlPos g pos) =? snd (ndc_point g pos)) = true) /\
  (candidates_valid g = true -> exists r, raycast g = Js.Normal r).
Proof.
  split; [|split; [|split]].
  - destruct (getScatterGlPos g pos) as [x y]. eauto.
  - unfold is_singular. rewrite <- invert_none_iff.
    destruct (GlMatrix.invert _); split; congruence.
  - unfold is_singular, getScatterGlPos, ndc_point.
    destruct (GlMatrix.invert _); [discriminate|]. intros _.
    destruct (match pos with Some p => p | None => getMouseGlPos g end)
      as [xGl yGl].
    simpl fst. simpl snd. intros Hx Hy.
    exact (transformMat3_identity xGl yGl Hx Hy).
  - apply raycast_total.
Qed.

(** The corner data zoomed to scale 0: the matrix is singular and the
    point [(0.25, 0.5)] comes back unchanged. *)
Lemma getScatterGlPos_total_identity_fallback_witness :
  exists g0 g,
    constructor 1 (Some demo_container) (Some corner_data) corner_options
      = Js.Normal g0 /\
    handleZoom g0 0 0 0 = Js.Normal g /\
    is_singular g = true /\
    (fst (getScatterGlPos g (Some (0x1p-2, 0x1p-1))) =? 0x1p-2) = true /\
    (snd (getScatterGlPos g (Some (0x1p-2, 0x1p-1))) =? 0x1p-1) = true /\
    exists r, raycast g = Js.Normal r.
Proof.
  eexists. eexists. split; [vm_compute; reflexivity|].
  split; [vm_compute; reflexivity|].
  match goal with
  | |- is_singular ?h = true /\ _ =>
      pose (g := h);
      destruct (getScatterGlPos_total_identity_fallback
                  g (Some (0x1p-2, 0x1p-1))) as (_ & _ & H & T)
  end.
  assert (Hs : is_singular g = true) by (vm_compute; reflexivity).
  destruct (H Hs) as [H1 H2]; try (vm_compute; reflexivity).
  split; [exact Hs|]. split; [exact H1|]. split; [exact H2|].
  apply T. vm_compute. reflexivity.
Defined.

(** With the scale at 0 the cursor in the middle of the canvas picks [b],
    the node drawn at the corner [(0, 0)]: a match.  And in a container of
    no size the device point [(Infinity, -Infinity)] comes back as
    [(NaN, NaN)]. *)
Lemma singular_transform_counterexample :
  (exists g0 g1 g,
     constructor 1 (Some demo_container) (Some corner_data) corner_options
       = Js.Normal g0 /\
     handleZoom g0 0 0 0 = Js.Normal g1 /\
     handleMouseMove g1 (mouse_at 256 256) = Js.Normal g /\
     is_singular g = true /\
     getScatterGlPos g None = (0, 0) /\
     raycast g = Js.Normal (Some 1%nat) /\
     hoveredNode (state g) = 1%Z) /\
  (exists h0 h,
     constructor 1 (Some collapsed_container) (Some corner_data) corner_options
       = Js.Normal h0 /\
     handleMouseMove h0 (mouse_at 3 2) = Js.Normal h /\
     is_singular h = true /\
     ndc_point h None = (infinity, neg_infinity) /\
     getScatterGlPos h None = (nan, nan)).
Proof.
  split.
  - do 3 eexists.
    split; [vm_compute; reflexivity|].
    split; [vm_compute; reflexivity|].
    split; [vm_compute; reflexivity|].
    repeat split; vm_compute; reflexivity.
  - do 2 eexists.
    split; [vm_compute; reflexivity|].
    split; [vm_compute; reflexivity|].
    repeat split; vm_compute; reflexivity.
Qed.

(** ** Loading the data *)

Lemma coordinate_normal v p f x :
  coordinate v p f = Js.Normal x ->
  has_coordinate v p = true /\ x = coordinate_value v p f.
Proof.
  unfold coordinate, has_coordinate, coordinate_value.
  destruct v as [n|], p as [q|]; try destruct (Js.truthy n);
    intros H; try discriminate; injection H as <-; auto.
Qed.

Lemma coordinate_total v p f :
  has_coordinate v p = true ->
  coordinate v p f = Js.Normal (coordinate_value v p f).
Proof.
  unfold coordinate, has_coordinate, coordinate_value.
  destruct v as [n|], p as [q|]; try destruct (Js.truthy n);
    intros H; try discriminate; reflexivity.
Qed.

Lemma node_coordinates_total node :
  node_ok node = true ->
  node_coordinate_x node
    = Js.Normal (coordinate_value (node_x node) (node_position node) pos_x) /\
  node_coordinate_y node
    = Js.Normal (coordinate_value (node_y node) (node_position node) pos_y).
Proof.
  unfold node_ok. intros H. apply andb_prop in H as [Hx Hy].
  split; now apply coordinate_total.
Qed.

Lemma node_extents_total nodes : forall e,
  forallb node_ok nodes = true -> exists e', node_extents nodes e = Js.Normal e'.
Proof.
  induction nodes as [|node nodes IH]; intros e H; simpl.
  - eauto.
  - simpl in H. apply andb_prop in H as [H1 H2].
    destruct (node_coordinates_total node H1) as [-> ->]. simpl.
    apply IH, H2.
Qed.

Lemma node_extents_ok nodes : forall e e',
  node_extents nodes e = Js.Normal e' -> forallb node_ok nodes = true.
Proof.
  induction nodes as [|node nodes IH]; intros e e' H; simpl in *.
  - reflexivity.
  - unfold node_coordinate_x, node_coordinate_y in H.
    destruct (coordinate (node_x node) _ _) as [x|] eqn:Ex; simpl in H;
      [|discriminate].
    destruct (coordinate (node_y node) _ _) as [y|] eqn:Ey; simpl in H;
      [|discriminate].
    apply coordinate_normal in Ex as [Hx _].
    apply coordinate_normal in Ey as [Hy _].
    unfold node_ok. rewrite Hx, Hy. simpl. exact (IH _ _ H).
Qed.

Lemma load_scales_total s width height nodes edges :
  forallb node_ok nodes = true -> edges_ok s nodes edges = true ->
  exists sc, load_scales s width height nodes edges = Js.Normal sc.
Proof.
  intros Hn He. unfold load_scales, edges_ok in *.
  destruct (showEdges s).
  - destruct edges as [[|e0 rest]|]; try discriminate.
    unfold weight_extent.
    destruct (edge_size e0), (edge_weight e0); simpl;
      match goal with
      | |- context [node_extents nodes ?e] =>
          destruct (node_extents_total nodes e Hn) as [e' ->]
      end; simpl; eauto.
  - simpl.
    match goal with
    | |- context [node_extents nodes ?e] =>
        destruct (node_extents_total nodes e Hn) as [e' ->]
    end; simpl; eauto.
Qed.

(** *** The node loop *)

Lemma find_app {A} (p : A -> bool) l l' :
  find p (l ++ l') = match find p l with Some x => Some x | None => find p l' end.
Proof.
  induction l as [|a l IH]; simpl; [reflexivity|].
  destruct (p a); auto.
Qed.

Lemma find_replace nid d nid' (l : list NGraph.node) :
  find (fun n => String.eqb (NGraph.id n) nid') l <> None ->
  find (fun n => String.eqb (NGraph.id n) nid')
       (map (fun n => if String.eqb (NGraph.id n) nid
                      then NGraph.Node nid d else n) l) <> None.
Proof.
  induction l as [|n l IH]; simpl; [auto|].
  destruct (String.eqb (NGraph.id n) nid) eqn:E1; simpl.
  - apply String.eqb_eq in E1. rewrite E1.
    destruct (String.eqb nid nid'); [discriminate | exact IH].
  - destruct (String.eqb (NGraph.id n) nid'); [discriminate | exact IH].
Qed.

Lemma find_replace_same nid d (l : list NGraph.node) :
  find (fun n => String.eqb (NGraph.id n) nid) l <> None ->
  find (fun n => String.eqb (NGraph.id n) nid)
       (map (fun n => if String.eqb (NGraph.id n) nid
                      then NGraph.Node nid d else n) l) <> None.
Proof. apply find_replace. Qed.

Lemma getNode_addNode g nid d nid' :
  NGraph.getNode g nid' <> None ->
  NGraph.getNode (NGraph.addNode g nid d) nid' <> None.
Proof.
  unfold NGraph.addNode, NGraph.getNode. intros H.
  destruct (find (fun n => String.eqb (NGraph.id n) nid) (NGraph.nodes g));
    simpl.
  - now apply find_replace.
  - rewrite find_app.
    destruct (find (fun n => String.eqb (NGraph.id n) nid') (NGraph.nodes g));
      [discriminate | congruence].
Qed.

Lemma getNode_addNode_same g nid d :
  NGraph.getNode (NGraph.addNode g nid d) nid <> None.
Proof.
  unfold NGraph.addNode, NGraph.getNode.
  destruct (find (fun n => String.eqb (NGraph.id n) nid) (NGraph.nodes g))
    eqn:E; simpl.
  - apply find_replace. congruence.
  - rewrite find_app, E. simpl. now rewrite String.eqb_refl.
Qed.

Lemma links_addNode g nid d :
  NGraph.links (NGraph.addNode g nid d) = NGraph.links g.
Proof. unfold NGraph.addNode. now destruct (NGraph.getNode g nid). Qed.

Lemma load_nodes_spec s sc nodes : forall i acc,
  forallb node_ok nodes = true ->
  exists acc',
    load_nodes s sc nodes i acc = Js.Normal acc' /\
    nodesPositions (loaded_matrices acc')
      = nodesPositions (loaded_matrices acc) ++ node_entries sc i nodes /\
    nodeColors (loaded_matrices acc')
      = nodeColors (loaded_matrices acc) ++ map (node_color_entry s) nodes /\
    sizes (loaded_matrices acc')
      = sizes (loaded_matrices acc) ++ map (size_entry sc) nodes /\
    loaded_nodeIndex acc' = loaded_nodeIndex acc ++ map node_id nodes /\
    edgesPositionsByWeight (loaded_matrices acc')
      = edgesPositionsByWeight (loaded_matrices acc) /\
    NGraph.links (loaded_graph acc') = NGraph.links (loaded_graph acc) /\
    (forall nid,
       NGraph.getNode (loaded_graph acc) nid <> None \/
       In nid (map node_id nodes) ->
       NGraph.getNode (loaded_graph acc') nid <> None).
Proof.
  induction nodes as [|node nodes IH]; intros i acc H; simpl.
  - exists acc. rewrite !app_nil_r. repeat split; auto.
    intros nid [Hn|[]]. exact Hn.
  - simpl in H. apply andb_prop in H as [H1 H2].
    unfold load_node at 1.
    destruct (node_coordinates_total node H1) as [-> ->]. simpl.
    match goal with
    | |- context [load_nodes s sc nodes (S i) ?a] =>
        destruct (IH (S i) a H2)
          as (acc' & -> & Hp & Hc & Hs & Hi & He & Hl & Hg)
    end.
    simpl in *. exists acc'. split; [reflexivity|].
    rewrite Hp, Hc, Hs, Hi, <- !app_assoc. simpl.
    split; [reflexivity|]. split; [reflexivity|]. split; [reflexivity|].
    split; [reflexivity|]. split; [exact He|]. split.
    + rewrite Hl. apply links_addNode.
    + intros nid [Hn|[<-|Hn]]; apply Hg.
      * left. now apply getNode_addNode.
      * left. apply getNode_addNode_same.
      * now right.
Qed.

(** *** The edge loop *)

Lemma endpoint_known nodes gr e :
  (forall nid, In nid (map node_id nodes) -> NGraph.getNode gr nid <> None) ->
  endpoint_ok nodes e = true ->
  exists nid n, e = Some nid /\ NGraph.getNode gr nid = Some n.
Proof.
  intros Hg H. destruct e as [nid|]; [|discriminate]. simpl in H.
  apply existsb_exists in H as (n & Hin & Hn). apply String.eqb_eq in Hn.
  assert (Hk : NGraph.getNode gr nid <> None).
  { apply Hg. rewrite <- Hn. now apply in_map. }
  destruct (NGraph.getNode gr nid) as [n'|] eqn:G;
    [exists nid, n'; split; [reflexivity | exact G] | congruence].
Qed.

Lemma load_edges_spec s sc nodes edges : forall i acc,
  (forall nid, In nid (map node_id nodes) ->
               NGraph.getNode (loaded_graph acc) nid <> None) ->
  forallb (edge_ok nodes) edges = true ->
  exists acc',
    load_edges s sc edges i acc = Js.Normal acc' /\
    nodesPositions (loaded_matrices acc') = nodesPositions (loaded_matrices acc) /\
    nodeColors (loaded_matrices acc') = nodeColors (loaded_matrices acc) /\
    sizes (loaded_matrices acc') = sizes (loaded_matrices acc) /\
    loaded_nodeIndex acc' = loaded_nodeIndex acc.
Proof.
  induction edges as [|edge edges IH]; intros i acc Hg H; simpl.
  - exists acc. repeat split.
  - simpl in H. apply andb_prop in H as [H1 H2].
    unfold edge_ok in H1. apply andb_prop in H1 as [Hs Ht].
    destruct (endpoint_known nodes _ _ Hg Hs) as (from & sn & Ef & Gf).
    destruct (endpoint_known nodes _ _ Hg Ht) as (to & tn & Et & Gt).
    unfold load_edge at 1. rewrite Ef, Et, Gf, Gt. simpl.
    match goal with
    | |- context [load_edges s sc edges (S i) ?a] =>
        destruct (IH (S i) a) as (acc' & -> & Hp & Hc & Hz & Hi);
        [exact Hg | exact H2 |]
    end.
    exists acc'. simpl in *. repeat split; auto.
Qed.

Lemma nth_error_node_entries sc nodes : forall i k node,
  nth_error nodes k = Some node ->
  nth_error (node_entries sc i nodes) k = Some (node_entry sc (i + k) node).
Proof.
  induction nodes as [|n nodes IH]; intros i k node H.
  - now destruct k.
  - destruct k as [|k]; simpl in *.
    + injection H as <-. now rewrite Nat.add_0_r.
    + rewrite (IH (S i) k node H). f_equal. f_equal. lia.
Qed.

Lemma length_node_entries sc nodes : forall i,
  List.length (node_entries sc i nodes) = List.length nodes.
Proof.
  induction nodes as [|n nodes IH]; intros i; simpl; [reflexivity|].
  now rewrite IH.
Qed.

(** What [loadData] returns for input that loads. *)
Lemma loadData_spec s width height nodes edges :
  forallb node_ok nodes = true -> edges_ok s nodes edges = true ->
  exists sc l,
    load_scales s width height nodes edges = Js.Normal sc /\
    loadData s width height nodes edges = Js.Normal l /\
    nodesPositions (loaded_matrices l) = node_entries sc 0 nodes /\
    nodeColors (loaded_matrices l) = map (node_color_entry s) nodes /\
    sizes (loaded_matrices l) = map (size_entry sc) nodes /\
    loaded_nodeIndex l = map node_id nodes.
Proof.
  intros Hn He.
  destruct (load_scales_total s width height nodes edges Hn He) as [sc Hsc].
  exists sc. unfold loadData. rewrite Hsc. simpl.
  destruct (load_nodes_spec s sc nodes 0 empty_loaded Hn)
    as (acc & -> & Hp & Hc & Hs & Hi & _ & _ & Hg).
  simpl in *. unfold edges_ok in He.
  destruct (showEdges s).
  - destruct edges as [[|e0 rest]|]; try discriminate.
    destruct (load_edges_spec s sc nodes (e0 :: rest) 0 acc)
      as (l & -> & Hp' & Hc' & Hs' & Hi'); [auto | exact He |].
    exists l. rewrite Hp', Hc', Hs', Hi'. repeat split; auto.
  - exists acc. repeat split; auto.
Qed.

(** The edge loop leaves the node arrays alone. *)
Lemma load_edges_preserves s sc edges : forall i acc acc',
  load_edges s sc edges i acc = Js.Normal acc' ->
  nodesPositions (loaded_matrices acc') = nodesPositions (loaded_matrices acc) /\
  nodeColors (loaded_matrices acc') = nodeColors (loaded_matrices acc) /\
  sizes (loaded_matrices acc') = sizes (loaded_matrices acc) /\
  loaded_nodeIndex acc' = loaded_nodeIndex acc.
Proof.
  induction edges as [|edge edges IH]; intros i acc acc' H; simpl in H.
  - injection H as <-. repeat split.
  - destruct (load_edge s sc acc i edge) as [a|] eqn:E; simpl in H;
      [|discriminate].
    destruct (IH _ _ _ H) as (Hp & Hc & Hs & Hi).
    rewrite Hp, Hc, Hs, Hi. clear -E. unfold load_edge in E.
    destruct (first_truthy (edge_sourceID edge) _); [|discriminate].
    destruct (first_truthy (edge_targetID edge) _); [|discriminate].
    destruct (NGraph.getNode _ _); [|discriminate].
    destruct (NGraph.getNode _ _); [|discriminate].
    injection E as <-. repeat split.
Qed.

(** The node arrays of whatever [loadData] returns. *)
Lemma loadData_arrays s width height nodes edges sc l :
  load_scales s width height nodes edges = Js.Normal sc ->
  loadData s width height nodes edges = Js.Normal l ->
  forallb node_ok nodes = true /\
  nodesPositions (loaded_matrices l) = node_entries sc 0 nodes /\
  nodeColors (loaded_matrices l) = map (node_color_entry s) nodes /\
  sizes (loaded_matrices l) = map (size_entry sc) nodes /\
  loaded_nodeIndex l = map node_id nodes.
Proof.
  intros Hsc H.
  assert (Hn : forallb node_ok nodes = true).
  { unfold load_scales in Hsc.
    destruct (if showEdges s then _ else _) as [w|]; simpl in Hsc;
      [|discriminate].
    destruct (node_extents nodes _) as [e|] eqn:E; simpl in Hsc;
      [|discriminate].
    exact (node_extents_ok _ _ _ E). }
  split; [exact Hn|].
  unfold loadData in H. rewrite Hsc in H. simpl in H.
  destruct (load_nodes_spec s sc nodes 0 empty_loaded Hn)
    as (acc & Hacc & Hp & Hc & Hs & Hi & _).
  rewrite Hacc in H. simpl in H, Hp, Hc, Hs, Hi.
  destruct (showEdges s).
  - destruct edges as [edges|]; [|discriminate].
    destruct (load_edges_preserves _ _ _ _ _ _ H) as (Hp' & Hc' & Hs' & Hi').
    rewrite Hp', Hc', Hs', Hi'. auto.
  - injection H as <-. auto.
Qed.

(** For every node array that loads (each node has its coordinates, each
    edge joins two of the nodes), [loadData] returns, the position, colour
    and size arrays each have [nodes.length] entries, the node read at
    input position [i] sits in slot [i] of all three (and of the index of
    ids), and the third component of its render position is [i]; the
    colour slot holds what [glslColor] makes of the colour of the node
    with the default opacity ([null] when it does not read it), and white
    for a node without a colour; [loadBuffers] fills the node buffer with
    these positions. *)
Lemma node_arrays_are_parallel s width height nodes edges :
  forallb node_ok nodes = true -> edges_ok s nodes edges = true ->
  exists sc l,
    load_scales s width height nodes edges = Js.Normal sc /\
    loadData s width height nodes edges = Js.Normal l /\
    List.length (nodesPositions (loaded_matrices l)) = List.length nodes /\
    List.length (nodeColors (loaded_matrices l)) = List.length nodes /\
    List.length (sizes (loaded_matrices l)) = List.length nodes /\
    (forall i node,
       nth_error nodes i = Some node ->
       nth_error (nodesPositions (loaded_matrices l)) i
         = Some (node_entry sc i node) /\
       snd (node_entry sc i node) = i /\
       nth_error (nodeColors (loaded_matrices l)) i
         = Some (node_color_entry s node) /\
       color_value (node_color_entry s node)
         = match node_color node with
           | Some c =>
               if String.eqb c "" then Some (1, 1, 1, defaultNodesOpacity s)
               else glslColor c (defaultNodesOpacity s)
           | None => Some (1, 1, 1, defaultNodesOpacity s)
           end /\
       nth_error (sizes (loaded_matrices l)) i = Some (size_entry sc node) /\
       nth_error (loaded_nodeIndex l) i = Some (node_id node)) /\
    (forall g,
       matrices g = loaded_matrices l ->
       buffers_nodes (buffers (loadBuffers g))
         = Some (nodesPositions (loaded_matrices l))).
Proof.
  intros Hn He.
  destruct (loadData_spec s width height nodes edges Hn He)
    as (sc & l & Hsc & Hl & Hp & Hc & Hs & Hi).
  exists sc, l. split; [exact Hsc|]. split; [exact Hl|].
  rewrite Hp, Hc, Hs, Hi, length_node_entries, !length_map.
  repeat split.
  - now rewrite (nth_error_node_entries sc nodes 0 i node).
  - now apply map_nth_error.
  - unfold node_color_entry. destruct (node_color node) as [c|]; [|reflexivity].
    now destruct (String.eqb c "").
  - now apply map_nth_error.
  - now apply map_nth_error.
  - intros g Hg. simpl. now rewrite Hg, Hp.
Qed.

(** The demo data: four entries in each array, [c] in slot 2. *)
Lemma demo_arrays_are_parallel :
  exists sc l,
    load_scales demo_settings 512 512 (or_default (data_nodes demo_data) [])
      (data_edges demo_data) = Js.Normal sc /\
    loadData demo_settings 512 512 (or_default (data_nodes demo_data) [])
      (data_edges demo_data) = Js.Normal l /\
    List.length (nodesPositions (loaded_matrices l)) = 4%nat /\
    List.length (nodeColors (loaded_matrices l)) = 4%nat /\
    List.length (sizes (loaded_matrices l)) = 4%nat /\
    nth_error (nodesPositions (loaded_matrices l)) 2
      = Some (256, 256, 2%nat).
Proof.
  destruct (node_arrays_are_parallel demo_settings 512 512
              (or_default (data_nodes demo_data) []) (data_edges demo_data))
    as (sc & l & Hsc & Hl & Hp & Hc & Hs & Hi & _);
    try (vm_compute; reflexivity).
  exists sc, l. split; [exact Hsc|]. split; [exact Hl|].
  split; [exact Hp|]. split; [exact Hc|]. split; [exact Hs|].
  destruct (Hi 2%nat (demo_node "c" 3 3 15) eq_refl) as (Hn & _).
  rewrite Hn. vm_compute in Hsc. injection Hsc as <-.
  vm_compute. reflexivity.
Defined.

(** C7 (the code departs from the claim).  A node array is not loaded
    when one of its nodes has an [x] or a [y] that is [0] (or [NaN], or
    absent) and no [position], and, edges being shown, when the array of
    edges is empty: [loadData] throws a [TypeError], in its first pass
    over the nodes or at [edges[0]], whatever the other nodes, the
    settings and the canvas, so that no array gets the entries of the
    nodes.  The two nodes of the example scenario of the specification
    are such an array. *)
Theorem zero_coordinate_nodes_are_not_loaded :
  (forall s width height nodes edges,
     forallb node_ok nodes = false ->
     Js.throws (loadData s width height nodes edges) = true) /\
  (forall s width height nodes,
     showEdges s = true ->
     Js.throws (loadData s width height nodes (Some [])) = true) /\
  forallb node_ok (or_default (data_nodes example_data) []) = false /\
  loadData default_settings 500 500
    (or_default (data_nodes example_data) []) (data_edges example_data)
  = Js.Throw "TypeError: Cannot read properties of undefined".
Proof.
  split; [|split; [|split]].
  - intros s width height nodes edges Hn. unfold loadData.
    destruct (load_scales s width height nodes edges) as [sc|msg] eqn:Hsc;
      [|reflexivity].
    unfold load_scales in Hsc.
    destruct (if showEdges s then _ else _) as [w|]; simpl in Hsc;
      [|discriminate].
    destruct (node_extents nodes _) as [e|] eqn:E; simpl in Hsc;
      [|discriminate].
    rewrite (node_extents_ok _ _ _ E) in Hn. discriminate.
  - intros s width height nodes Hs. unfold loadData, load_scales.
    rewrite Hs. reflexivity.
  - reflexivity.
  - vm_compute. reflexivity.
Qed.

(** The example scenario: node [a] has [x = 0] and [y = 0]. *)
Lemma zero_coordinate_nodes_are_not_loaded_witness :
  forallb node_ok [demo_node "a" 0 0 10; demo_node "b" 100 0 10] = false /\
  Js.throws
    (loadData default_settings 500 500
       [demo_node "a" 0 0 10; demo_node "b" 100 0 10]
       (Some [demo_edge "a" "b" None (Some 1)])) = true /\
  Js.throws
    (loadData default_settings 500 500
       [demo_node "a" 1 1 10; demo_node "b" 100 1 10] (Some [])) = true.
Proof.
  destruct zero_coordinate_nodes_are_not_loaded as (H1 & H2 & _).
  split; [vm_compute; reflexivity|]. split.
  - apply H1. vm_compute. reflexivity.
  - apply H2. vm_compute. reflexivity.
Defined.

(** C8 (amended).  For every node of an input that loads: an absent [x]
    (resp. [y]) is read from [position.x] (resp. [position.y]) of the
    record, which then has a [position]; the size is read from [size]
    alone, there is no alternate field for it; and zero is never put in
    the place of a missing value: the slot of an absent size, and of a
    coordinate absent from both places, holds [NaN] (d3's [undefined]). *)
Theorem absent_coordinate_falls_back_size_does_not
  s width height nodes edges sc l :
  load_scales s width height nodes edges = Js.Normal sc ->
  loadData s width height nodes edges = Js.Normal l ->
  forall i node,
    nth_error nodes i = Some node ->
    exists x y,
      node_coordinate_x node = Js.Normal x /\
      node_coordinate_y node = Js.Normal y /\
      nth_error (nodesPositions (loaded_matrices l)) i
        = Some (D3.apply (scale_x sc) x, D3.apply (scale_y sc) y, i) /\
      nth_error (sizes (loaded_matrices l)) i
        = Some (D3.apply (scale_size sc) (node_size node)) /\
      (node_x node = None ->
       exists p, node_position node = Some p /\ x = pos_x p) /\
      (node_y node = None ->
       exists p, node_position node = Some p /\ y = pos_y p) /\
      (node_size node = None ->
       is_nan (D3.apply (scale_size sc) (node_size node)) = true /\
       is_zero (D3.apply (scale_size sc) (node_size node)) = false) /\
      (x = None ->
       is_nan (D3.apply (scale_x sc) x) = true /\
       is_zero (D3.apply (scale_x sc) x) = false) /\
      (y = None ->
       is_nan (D3.apply (scale_y sc) y) = true /\
       is_zero (D3.apply (scale_y sc) y) = false).
Proof.
  intros Hsc Hl i node Hi.
  destruct (loadData_arrays s width height nodes edges sc l Hsc Hl)
    as (Hn & Hp & _ & Hs & _).
  assert (Hok : node_ok node = true).
  { rewrite forallb_forall in Hn. apply Hn. eapply nth_error_In, Hi. }
  destruct (node_coordinates_total node Hok) as [Hx Hy].
  do 2 eexists. split; [exact Hx|]. split; [exact Hy|].
  split; [|split; [|split; [|split; [|split; [|split]]]]].
  - rewrite Hp. now rewrite (nth_error_node_entries sc nodes 0 i node).
  - rewrite Hs. change (D3.apply (scale_size sc) (node_size node))
      with (size_entry sc node). now apply map_nth_error.
  - intros E. unfold node_ok, has_coordinate in Hok. rewrite E in *.
    destruct (node_position node) as [p|]; [|discriminate]. now exists p.
  - intros E. unfold node_ok, has_coordinate in Hok. rewrite E in *.
    destruct (node_position node) as [p|]; [now exists p|].
    now rewrite andb_false_r in Hok.
  - intros ->. split; reflexivity.
  - intros ->. split; reflexivity.
  - intros ->. split; reflexivity.
Qed.

(** The node with only a [position] object: [x] comes from
    [position.x], the missing [y] gives [NaN]. *)
Lemma absent_coordinate_falls_back_size_does_not_witness :
  exists sc l,
    load_scales demo_settings 512 512 partial_nodes partial_edges
      = Js.Normal sc /\
    loadData demo_settings 512 512 partial_nodes partial_edges
      = Js.Normal l /\
    node_coordinate_x positioned_node = Js.Normal (Some 3) /\
    node_coordinate_y positioned_node = Js.Normal None /\
    (exists px py,
       nth_error (nodesPositions (loaded_matrices l)) 1 = Some (px, py, 1%nat) /\
       px = D3.apply (scale_x sc) (Some 3) /\ is_nan py = true).
Proof.
  do 2 eexists.
  split; [vm_compute; reflexivity|].
  split; [vm_compute; reflexivity|].
  match goal with
  | |- _ /\ _ /\ exists px py, nth_error (nodesPositions (loaded_matrices ?l)) _ = _ /\ px = D3.apply (scale_x ?sc) _ /\ _ =>
      destruct (absent_coordinate_falls_back_size_does_not
                  demo_settings 512 512 partial_nodes partial_edges sc l)
        with (i := 1%nat) (node := positioned_node)
        as (x & y & Hx & Hy & Hp & _ & Fx & Fy & _ & _ & Ny);
        try (vm_compute; reflexivity)
  end.
  destruct (Fx eq_refl) as (p & Ep & Exp).
  destruct (Fy eq_refl) as (q & Eq & Eyq).
  injection Ep as <-. injection Eq as <-. simpl in Exp, Eyq. subst x y.
  split; [exact Hx|]. split; [exact Hy|].
  do 2 eexists. split; [exact Hp|]. split; [reflexivity|].
  exact (proj1 (Ny eq_refl)).
Defined.

(** A node that has every field but [size]: its size slot holds [NaN];
    no other field was read in its place. *)
Lemma size_fallback_counterexample :
  exists l,
    loadData demo_settings 512 512 partial_nodes partial_edges = Js.Normal l /\
    node_size sizeless_node = None /\
    node_label sizeless_node <> None /\ node_x sizeless_node <> None /\
    node_position sizeless_node <> None /\ node_color sizeless_node <> None /\
    node_attributes sizeless_node <> None /\
    exists v,
      nth_error (sizes (loaded_matrices l)) 0 = Some v /\ is_nan v = true.
Proof.
  eexists. split; [vm_compute; reflexivity|].
  repeat split; try discriminate.
  eexists. split; vm_compute; reflexivity.
Qed.

(** ** Constructed objects pick safely *)

Lemma scan_bound minX minY maxX maxY ps : forall i j,
  In j (KDBush.scan minX minY maxX maxY i ps) ->
  (j < i + List.length ps)%nat.
Proof.
  induction ps as [|p ps IH]; intros i j H; simpl in H; [contradiction|].
  destruct (KDBush.inside minX minY maxX maxY p).
  - destruct H as [<-|H]; simpl; [lia|]. apply IH in H. lia.
  - apply IH in H. simpl. lia.
Qed.

(** An index that scans its own points only answers with points it holds. *)
Lemma index_built_valid g : index_built g -> candidates_valid g = true.
Proof.
  unfold index_built, candidates_valid, pointsInBBox. intros H.
  destruct (getScatterGlPos g None) as [mouseX mouseY].
  rewrite H at 1. simpl. apply forallb_forall. intros j Hj.
  apply scan_bound in Hj. apply Nat.ltb_lt. exact Hj.
Qed.


Lemma setHoveredNode_index g idx :
  searchIndex (Quiet.setHoveredNode g idx) = searchIndex g.
Proof.
  unfold Quiet.setHoveredNode.
  destruct (negb _); [|reflexivity].
  unfold set_state_hoveredNode.
  destruct (_ =? _)%Z; [reflexivity|].
  unfold hoveredNodeWatcher. destruct (_ && _); reflexivity.
Qed.

Lemma setSelectedNode_index g idx :
  searchIndex (Quiet.setSelectedNode g idx) = searchIndex g.
Proof.
  unfold Quiet.setSelectedNode.
  destruct (negb _); [|reflexivity].
  destruct (negb _); reflexivity.
Qed.

(** No operation touches the index. *)
Lemma perform_index g op g' :
  Quiet.perform g op = Js.Normal g' -> searchIndex g' = searchIndex g.
Proof.
  destruct op as [ev|ev| | |x y k| |ids]; simpl; intros H.
  - unfold Quiet.handleMouseMove in H.
    destruct (negb _).
    + destruct (raycast _) as [r|msg]; simpl in H; [|discriminate].
      destruct (truthy_index r); injection H as <-; simpl;
        now rewrite setHoveredNode_index.
    + now injection H as <-.
  - unfold Quiet.handleClick in H.
    destruct (raycast g) as [r|msg]; simpl in H; [|discriminate].
    destruct (truthy_index r); injection H as <-; simpl;
      now rewrite setSelectedNode_index.
  - now injection H as <-.
  - injection H as <-. unfold Quiet.handleMouseUp. simpl.
    now destruct (inAnimation _).
  - injection H as <-. unfold Quiet.handleZoom. simpl.
    now destruct (mouseDown _).
  - now injection H as <-.
  - unfold Quiet.highlight in H. destruct ids as [ids|]; simpl in H.
    + destruct (resolve_ids _ _) as [l|msg]; simpl in H; [|discriminate].
      injection H as <-. simpl. now rewrite setSelectedNode_index.
    + now injection H as <-.
Qed.


(** On such an object every operation returns, unless it is a highlight of
    an id the graph does not have. *)
Lemma perform_total g op :
  index_built g ->
  (forall ids, op = Highlight (Some ids) -> ids_known g ids = true) ->
  exists g', Quiet.perform g op = Js.Normal g'.
Proof.
  intros Hb Hk. destruct op as [ev|ev| | |x y k| |ids]; simpl; eauto.
  - unfold Quiet.handleMouseMove.
    destruct (negb _); [|eauto].
    match goal with
    | |- context [raycast ?h] =>
        destruct (raycast_total h (index_built_valid h Hb)) as [r ->]
    end.
    simpl. destruct (truthy_index r); eauto.
  - unfold Quiet.handleClick.
    destruct (raycast_total g (index_built_valid g Hb)) as [r ->]. simpl.
    destruct (truthy_index r); eauto.
  - unfold Quiet.highlight. destruct ids as [ids|]; simpl; [|eauto].
    destruct (resolve_ids_known (app_graph g) ids (Hk ids eq_refl))
      as (l & -> & _).
    simpl. eauto.
Qed.

(** ** Keys of the [Map] *)

Module KeyFacts.

Lemma SFeqb_sym a b : SFeqb a b = SFeqb b a.
Proof.
  unfold SFeqb.
  destruct a as [sa|sa| |sa ma ea], b as [sb|sb| |sb mb eb]; simpl;
    try destruct sa; try destruct sb; simpl; try reflexivity;
    change (Pos.compare_cont Eq) with Pos.compare;
    destruct (Z.compare_spec ea eb), (Z.compare_spec eb ea); try lia;
    simpl; try reflexivity;
    destruct (Pos.compare_spec ma mb), (Pos.compare_spec mb ma); try lia;
    reflexivity.
Qed.

Lemma eqb_sym x y : (x =? y) = (y =? x).
Proof. rewrite !eqb_spec. apply SFeqb_sym. Qed.

Lemma same_key_refl w : same_key w w = true.
Proof. unfold same_key, is_nan. now destruct (w =? w). Qed.

Lemma same_key_sym a b : same_key a b = same_key b a.
Proof. unfold same_key. now rewrite eqb_sym, andb_comm. Qed.

Lemma eqb_not_nan_l a b : (a =? b) = true -> is_nan a = false.
Proof.
  unfold is_nan. rewrite !eqb_spec. unfold SFeqb.
  destruct (Prim2SF a) as [sa|sa| |sa ma ea], (Prim2SF b) as [sb|sb| |sb mb eb];
    simpl; try discriminate; try reflexivity;
    try (destruct sa; reflexivity);
    intros _; destruct sa; simpl;
    change (Pos.compare_cont Eq) with Pos.compare;
    now rewrite Z.compare_refl, Pos.compare_refl.
Qed.

Lemma same_key_trans a b c :
  same_key a b = true -> same_key b c = true -> same_key a c = true.
Proof.
  unfold same_key. intros H1 H2.
  apply orb_true_iff in H1 as [H1|H1], H2 as [H2|H2].
  - now rewrite (FloatFacts.eqb_trans _ _ _ H1 H2).
  - apply andb_prop in H2 as [H2 _]. rewrite eqb_sym in H1.
    apply eqb_not_nan_l in H1. congruence.
  - apply andb_prop in H1 as [_ H1]. apply eqb_not_nan_l in H2. congruence.
  - apply andb_prop in H1 as [H1 _]. apply andb_prop in H2 as [_ H2].
    rewrite H1, H2. apply orb_true_r.
Qed.

Lemma same_map_key_refl w : same_map_key w w = true.
Proof. destruct w; [apply same_key_refl | reflexivity]. Qed.

Lemma same_map_key_sym a b : same_map_key a b = same_map_key b a.
Proof. destruct a, b; simpl; auto using same_key_sym. Qed.

Lemma same_map_key_trans a b c :
  same_map_key a b = true -> same_map_key b c = true -> same_map_key a c = true.
Proof.
  destruct a, b, c; simpl; try discriminate; auto. apply same_key_trans.
Qed.

(** The key stored for [w] is the same key as [w]. *)
Lemma stored_key_same w : same_map_key (stored_key w) w = true.
Proof.
  destruct w as [v|]; [|reflexivity]. simpl.
  destruct (v =? 0) eqn:E; [|apply same_key_refl].
  simpl. unfold same_key. now rewrite (eqb_sym 0 v), E.
Qed.

Lemma same_map_key_stored k w :
  same_map_key k (stored_key w) = same_map_key k w.
Proof.
  destruct (same_map_key k w) eqn:E.
  - apply (same_map_key_trans _ w); [exact E|].
    rewrite same_map_key_sym. apply stored_key_same.
  - destruct (same_map_key k (stored_key w)) eqn:E'; [|reflexivity].
    rewrite <- E. symmetry.
    apply (same_map_key_trans _ (stored_key w)); [exact E'|].
    apply stored_key_same.
Qed.

End KeyFacts.

(** *** Frames *)




Section FrameTotal.

Variables (n : nat) (g : ReglGraph).
Hypothesis Hcolors :
  Forall (fun e => color_value e <> None) (nodeColors (matrices g)).
Hypothesis Hlen : List.length (nodeColors (matrices g)) = n.
Hypothesis Hbuffers :
  Forall (fun b => map_get (edgesPositionsByWeight (matrices g)) (fst b) <> None)
         (buffers_edges (buffers g)).

Lemma opaque_color_at_total i :
  (0 <= i < Z.of_nat n)%Z -> exists c, opaque_color_at g i = Js.Normal c.
Proof.
  intros Hi. unfold opaque_color_at, at_index.
  destruct (Z.ltb_spec i 0); [lia|].
  destruct (nth_error (nodeColors (matrices g)) (Z.to_nat i)) as [e|] eqn:E.
  - rewrite Forall_forall in Hcolors.
    specialize (Hcolors e (nth_error_In _ _ E)).
    destruct (color_value e) as [[[[r gr] b] a]|]; [eauto | congruence].
  - apply nth_error_None in E. lia.
Qed.

Lemma opaque_colors_total l :
  Forall (fun i => (i < n)%nat) l -> exists cs, opaque_colors g l = Js.Normal cs.
Proof.
  induction l as [|i l IH]; intros H; simpl; [eauto|].
  apply Forall_cons_iff in H as [Hi Hl].
  destruct (opaque_color_at_total (Z.of_nat i)) as [c ->]; [lia|].
  destruct (IH Hl) as [cs ->]. simpl. eauto.
Qed.

Lemma overlay_total i l :
  (0 <= i < Z.of_nat n)%Z -> Forall (fun i => (i < n)%nat) l ->
  exists c, overlay g i l = Js.Normal c.
Proof.
  intros Hi Hl. unfold overlay.
  destruct (opaque_color_at_total i Hi) as [c ->].
  destruct (opaque_colors_total l Hl) as [cs ->]. simpl. eauto.
Qed.

Lemma edge_calls_total bs :
  Forall (fun b => map_get (edgesPositionsByWeight (matrices g)) (fst b) <> None)
         bs ->
  exists calls,
    edge_calls g bs = Js.Normal calls /\
    map (fun p => (ep_width p, ep_points p)) (edge_props calls)
    = map (fun b => (D3.number (fst b), snd b)) bs /\
    List.length calls = List.length bs.
Proof.
  induction bs as [|[k v] bs IH]; intros H; simpl.
  - exists []. auto.
  - apply Forall_cons_iff in H as [Hk Hb]. simpl in Hk.
    destruct (map_get _ k); [|congruence].
    destruct (IH Hb) as (calls & -> & Hm & Hl). simpl.
    eexists. split; [reflexivity|]. simpl. now rewrite Hm, Hl.
Qed.

Lemma frame_total :
  frame_in_range n (state g) -> exists calls, frame g = Js.Normal calls.
Proof.
  intros (H1 & H2 & H3 & H4). unfold frame. cbv zeta.
  destruct (edge_calls_total _ Hbuffers) as (ecalls & He & _).
  assert (Hedges : exists edges,
            (if (showEdges (settings g)
                 || negb (hoveredNode (state g) =? -1)%Z
                 || negb (selectedNode (state g) =? -1)%Z)
                && (if showEdgesOnMove (settings g) then true
                    else negb (mouseDown (state g)))
             then edge_calls g (buffers_edges (buffers g))
             else Js.Normal []) = Js.Normal edges).
  { destruct (_ && _); eauto. }
  destruct Hedges as [edges ->]. simpl.
  assert (Hh : exists h,
            (if negb (hoveredNode (state g) =? -1)%Z
             then c <- overlay g (hoveredNode (state g))
                         (hoverNeighbors (state g)) ;; Js.Normal [c]
             else Js.Normal []) = Js.Normal h).
  { destruct (Z.eqb_spec (hoveredNode (state g)) (-1)); simpl; [eauto|].
    destruct (overlay_total (hoveredNode (state g)) (hoverNeighbors (state g)))
      as [c ->]; [lia | exact H3 |].
    simpl. eauto. }
  destruct Hh as [h ->]. simpl.
  destruct (Z.eqb_spec (selectedNode (state g)) (-1)); simpl; [eauto|].
  destruct (overlay_total (selectedNode (state g)) (selectedNeighbors (state g)))
    as [c ->]; [lia | exact H4 |].
  simpl. eauto.
Qed.

End FrameTotal.

Lemma map_get_self m : forall k v,
  In (k, v) m -> map_get m k <> None.
Proof.
  intros k v Hin. unfold map_get.
  destruct (find (fun b => same_map_key (fst b) k) m) eqn:E; [discriminate|].
  apply (find_none _ _ E) in Hin. simpl in Hin.
  now rewrite KeyFacts.same_map_key_refl in Hin.
Qed.

(** *** Frames that are always drawn *)

Lemma render_returns g :
  (exists calls, frame g = Js.Normal calls) ->
  render g = Js.Normal (Quiet.render g).
Proof. intros [calls H]. unfold render. now rewrite H. Qed.

(** With no node hovered or selected the frame has no pass that reads a
    colour. *)
Lemma frame_unpicked g :
  hoveredNode (state g) = (-1)%Z -> selectedNode (state g) = (-1)%Z ->
  Forall (fun b => map_get (edgesPositionsByWeight (matrices g)) (fst b) <> None)
         (buffers_edges (buffers g)) ->
  exists calls, frame g = Js.Normal calls.
Proof.
  intros Hh Hs Hb. unfold frame. cbv zeta. rewrite Hh, Hs.
  destruct (edge_calls_total g _ Hb) as (ecalls & He & _). rewrite He.
  destruct (_ && _); simpl; eauto.
Qed.

(** The first frame, drawn by [init], is one of these: the constructor
    returns whenever the data loads. *)
Lemma constructor_returns_quiet dpr container data options g :
  Quiet.constructor dpr container data options = Js.Normal g ->
  constructor dpr container data options = Js.Normal g.
Proof.
  unfold constructor, Quiet.constructor.
  destruct container as [c|]; [|discriminate].
  destruct data as [d|]; [|discriminate].
  destruct (data_nodes d) as [nodes|]; [|discriminate].
  destruct (_ && _); [discriminate|].
  unfold init, Quiet.init.
  destruct (loadData _ _ _ _ _) as [l|msg]; simpl; [|discriminate].
  intros H. injection H as <-.
  apply render_returns, frame_unpicked; try reflexivity.
  unfold loadBuffers. simpl.
  match goal with
  | |- context [if ?b then _ else _] => destruct b
  end; [|apply Forall_nil].
  apply Forall_forall. intros [k v] Hin. simpl. eapply map_get_self, Hin.
Qed.

(** * What is loaded, raised and drawn

    What the constructor accepts, what [loadData] builds, what the
    handlers raise and draw, the frame of [render()] and the colours of
    [glslColor]. *)

(** ** Loading *)

Lemma getNode_addNode_inv g nid d nid' :
  NGraph.getNode (NGraph.addNode g nid d) nid' <> None ->
  nid' = nid \/ NGraph.getNode g nid' <> None.
Proof.
  destruct (String.eqb nid nid') eqn:E.
  - apply String.eqb_eq in E. auto.
  - intros H. right. revert H.
    unfold NGraph.addNode, NGraph.getNode.
    destruct (find (fun n => String.eqb (NGraph.id n) nid) (NGraph.nodes g));
      simpl.
    + induction (NGraph.nodes g) as [|m l IH]; simpl; [auto|].
      destruct (String.eqb (NGraph.id m) nid) eqn:E1; simpl.
      * rewrite E. destruct (String.eqb (NGraph.id m) nid'); [discriminate|].
        exact IH.
      * destruct (String.eqb (NGraph.id m) nid'); [discriminate | exact IH].
    + rewrite find_app.
      destruct (find (fun n => String.eqb (NGraph.id n) nid') (NGraph.nodes g));
        [discriminate|]. simpl. now rewrite E.
Qed.

Lemma load_nodes_ids s sc nodes : forall i acc acc' nid,
  load_nodes s sc nodes i acc = Js.Normal acc' ->
  NGraph.getNode (loaded_graph acc') nid <> None ->
  NGraph.getNode (loaded_graph acc) nid <> None \/ In nid (map node_id nodes).
Proof.
  induction nodes as [|node nodes IH]; intros i acc acc' nid H G; simpl in H.
  - injection H as <-. auto.
  - destruct (load_node s sc acc i node) as [a|] eqn:E; simpl in H;
      [|discriminate].
    destruct (IH _ _ _ _ H G) as [G'|G']; [|right; now right].
    unfold load_node in E.
    destruct (node_coordinate_x node); simpl in E; [|discriminate].
    destruct (node_coordinate_y node); simpl in E; [|discriminate].
    injection E as <-. simpl in G'.
    apply getNode_addNode_inv in G' as [->|G']; [right; now left | now left].
Qed.

Lemma endpoint_ok_in nodes nid :
  endpoint_ok nodes (Some nid) = true <-> In nid (map node_id nodes).
Proof.
  simpl. rewrite existsb_exists, in_map_iff. split.
  - intros (n & Hn & E). apply String.eqb_eq in E. eauto.
  - intros (n & E & Hn). exists n. split; [exact Hn|]. now apply String.eqb_eq.
Qed.

Lemma load_edge_nodes s sc acc i edge acc' :
  load_edge s sc acc i edge = Js.Normal acc' ->
  NGraph.nodes (loaded_graph acc') = NGraph.nodes (loaded_graph acc).
Proof.
  unfold load_edge.
  destruct (first_truthy (edge_sourceID edge) _); [|discriminate].
  destruct (first_truthy (edge_targetID edge) _); [|discriminate].
  destruct (NGraph.getNode _ _); [|discriminate].
  destruct (NGraph.getNode _ _); [|discriminate].
  intros H. injection H as <-. reflexivity.
Qed.

Lemma load_edges_nodes s sc edges : forall i acc acc',
  load_edges s sc edges i acc = Js.Normal acc' ->
  NGraph.nodes (loaded_graph acc') = NGraph.nodes (loaded_graph acc).
Proof.
  induction edges as [|edge edges IH]; intros i acc acc' H; simpl in H.
  - now injection H as <-.
  - destruct (load_edge s sc acc i edge) as [a|] eqn:E; simpl in H;
      [|discriminate].
    rewrite (IH _ _ _ H). eapply load_edge_nodes, E.
Qed.

Lemma load_edges_ok s sc nodes edges : forall i acc acc',
  (forall nid, NGraph.getNode (loaded_graph acc) nid <> None ->
               In nid (map node_id nodes)) ->
  load_edges s sc edges i acc = Js.Normal acc' ->
  forallb (edge_ok nodes) edges = true.
Proof.
  induction edges as [|edge edges IH]; intros i acc acc' Hg H; simpl in *.
  - reflexivity.
  - destruct (load_edge s sc acc i edge) as [a|] eqn:E; simpl in H;
      [|discriminate].
    apply andb_true_intro. split.
    + clear H. unfold load_edge in E. unfold edge_ok.
      destruct (first_truthy (edge_sourceID edge) _) as [from|]; [|discriminate].
      destruct (first_truthy (edge_targetID edge) _) as [to|]; [|discriminate].
      destruct (NGraph.getNode _ from) eqn:Gf; [|discriminate].
      destruct (NGraph.getNode _ to) eqn:Gt; [|discriminate].
      apply andb_true_intro. split; apply endpoint_ok_in, Hg; congruence.
    + apply (IH (S i) a acc'); [|exact H].
      intros nid. unfold NGraph.getNode.
      rewrite (load_edge_nodes _ _ _ _ _ _ E). apply Hg.
Qed.

(** The edges of whatever [loadData] returns join nodes of the data. *)
Lemma loadData_edges_ok s width height nodes edges l :
  loadData s width height nodes edges = Js.Normal l ->
  forallb node_ok nodes = true /\ edges_ok s nodes edges = true.
Proof.
  intros H. unfold loadData in H.
  destruct (load_scales s width height nodes edges) as [sc|] eqn:Hsc;
    simpl in H; [|discriminate].
  destruct (loadData_arrays s width height nodes edges sc l Hsc) as [Hn _].
  { unfold loadData. rewrite Hsc. exact H. }
  split; [exact Hn|].
  destruct (load_nodes s sc nodes 0 empty_loaded) as [acc|] eqn:Hacc;
    simpl in H; [|discriminate].
  unfold edges_ok. unfold load_scales in Hsc.
  destruct (showEdges s); [|reflexivity].
  destruct edges as [edges|]; [|discriminate].
  destruct edges as [|e0 rest]; [discriminate|].
  apply (load_edges_ok s sc nodes (e0 :: rest) 0 acc l); [|exact H].
  intros nid G.
  destruct (load_nodes_ids _ _ _ _ _ _ nid Hacc G) as [G'|G']; [|exact G'].
  now contradiction G'.
Qed.

Lemma showEdges_merge options :
  showEdges (merge_settings default_settings options)
  = match opt_showEdges options with None => true | Some b => b end.
Proof. unfold merge_settings. simpl. now destruct (opt_showEdges options). Qed.

Lemma constructor_returns dpr container data options :
  (exists g, Quiet.constructor dpr container data options = Js.Normal g) <->
  input_ok container data options = true.
Proof.
  unfold Quiet.constructor, input_ok.
  destruct container as [c|]; [|split; [intros [g H]|intros H]; discriminate].
  destruct data as [d|]; [|split; [intros [g H]|intros H]; discriminate].
  destruct (data_nodes d) as [nodes|];
    [|split; [intros [g H]|intros H]; discriminate].
  rewrite <- showEdges_merge.
  set (s := merge_settings default_settings options).
  split.
  - intros [g H].
    destruct (_ && _); [discriminate|].
    unfold Quiet.init in H.
    destruct (loadData s _ _ nodes (data_edges d)) as [l|] eqn:E; simpl in H;
      [|discriminate].
    apply loadData_edges_ok in E as [Hn He]. now rewrite Hn, He.
  - intros H. apply andb_prop in H as [Hn He].
    assert (Hp : showEdges s
                 && match data_edges d with None => true | Some _ => false end
                 = false).
    { unfold edges_ok in He. destruct (showEdges s); [|reflexivity].
      now destruct (data_edges d). }
    rewrite Hp. unfold Quiet.init.
    destruct (loadData_spec s (clientWidth c - containerMargin s)
                (clientHeight c - containerMargin s) nodes (data_edges d) Hn He)
      as (sc & l & _ & -> & _).
    simpl. eauto.
Qed.

Lemma ids_distinct_NoDup nodes :
  ids_distinct nodes = true -> NoDup (map node_id nodes).
Proof.
  induction nodes as [|node nodes IH]; simpl; intros H; constructor.
  - apply andb_prop in H as [H _]. intros Hin.
    apply in_map_iff in Hin as (n & E & Hn).
    apply negb_true_iff in H.
    assert (X : existsb (fun n0 => String.eqb (node_id n0) (node_id node)) nodes
                = true).
    { apply existsb_exists. exists n. split; [exact Hn|].
      now apply String.eqb_eq. }
    congruence.
  - apply IH. now apply andb_prop in H as [_ H].
Qed.

Lemma length_graph_entries sc nodes : forall i,
  List.length (graph_entries sc i nodes) = List.length nodes.
Proof.
  induction nodes as [|n nodes IH]; intros i; simpl; [reflexivity|].
  now rewrite IH.
Qed.

Lemma nth_error_graph_entries sc nodes : forall i k node,
  nth_error nodes k = Some node ->
  nth_error (graph_entries sc i nodes) k
  = Some (NGraph.Node (node_id node) (node_data_entry sc (i + k) node)).
Proof.
  induction nodes as [|n nodes IH]; intros i k node H.
  - now destruct k.
  - destruct k as [|k]; simpl in *.
    + injection H as <-. now rewrite Nat.add_0_r.
    + rewrite (IH (S i) k node H). do 3 f_equal; lia.
Qed.

Lemma map_id_graph_entries sc nodes : forall i,
  map NGraph.id (graph_entries sc i nodes) = map node_id nodes.
Proof.
  induction nodes as [|n nodes IH]; intros i; simpl; [reflexivity|].
  now rewrite IH.
Qed.

Lemma getNode_none_iff g nid :
  NGraph.getNode g nid = None <-> ~ In nid (map NGraph.id (NGraph.nodes g)).
Proof.
  unfold NGraph.getNode. induction (NGraph.nodes g) as [|n l IH]; simpl.
  - tauto.
  - destruct (String.eqb (NGraph.id n) nid) eqn:E.
    + apply String.eqb_eq in E. split; [discriminate | intros H; tauto].
    + apply String.eqb_neq in E. rewrite IH. tauto.
Qed.

(** With ids that are new and distinct, the node loop appends one graph
    node per input node. *)
Lemma load_nodes_graph s sc nodes : forall i acc acc',
  load_nodes s sc nodes i acc = Js.Normal acc' ->
  NoDup (map node_id nodes) ->
  (forall nid, In nid (map node_id nodes) ->
               NGraph.getNode (loaded_graph acc) nid = None) ->
  NGraph.nodes (loaded_graph acc')
  = NGraph.nodes (loaded_graph acc) ++ graph_entries sc i nodes.
Proof.
  induction nodes as [|node nodes IH]; intros i acc acc' H Hd Hf; simpl in H.
  - injection H as <-. simpl. now rewrite app_nil_r.
  - destruct (load_node s sc acc i node) as [a|] eqn:E; simpl in H;
      [|discriminate].
    unfold load_node in E. unfold node_coordinate_x, node_coordinate_y in E.
    destruct (coordinate (node_x node) _ _) as [x|] eqn:Ex; simpl in E;
      [|discriminate].
    destruct (coordinate (node_y node) _ _) as [y|] eqn:Ey; simpl in E;
      [|discriminate].
    apply coordinate_normal in Ex as [_ ->].
    apply coordinate_normal in Ey as [_ ->].
    injection E as <-.
    inversion Hd as [|? ? Hnin Hd']; subst.
    assert (Hnew : NGraph.getNode (loaded_graph acc) (node_id node) = None).
    { apply Hf. now left. }
    rewrite (IH _ _ _ H Hd'); simpl.
    + unfold NGraph.addNode. rewrite Hnew. simpl.
      now rewrite <- app_assoc.
    + intros nid Hin. apply getNode_none_iff.
      unfold NGraph.addNode. rewrite Hnew. simpl.
      rewrite map_app, in_app_iff. simpl.
      intros [Hk|[Hk|[]]].
      * assert (Hn := Hf nid (or_intror Hin)).
        apply getNode_none_iff in Hn. contradiction.
      * subst nid. contradiction.
Qed.

Lemma find_graph_entries sc nodes : forall i k node,
  NoDup (map node_id nodes) ->
  nth_error nodes k = Some node ->
  find (fun n => String.eqb (NGraph.id n) (node_id node))
       (graph_entries sc i nodes)
  = Some (NGraph.Node (node_id node) (node_data_entry sc (i + k) node)).
Proof.
  induction nodes as [|n nodes IH]; intros i k node Hd H.
  - now destruct k.
  - inversion Hd as [|? ? Hnin Hd']; subst.
    destruct k as [|k]; simpl in *.
    + injection H as <-. rewrite String.eqb_refl. now rewrite Nat.add_0_r.
    + destruct (String.eqb (node_id n) (node_id node)) eqn:E.
      * apply String.eqb_eq in E. exfalso. apply Hnin. rewrite E.
        apply in_map. eapply nth_error_In, H.
      * rewrite (IH (S i) k node Hd' H). do 3 f_equal; lia.
Qed.

(** What [loadData] returns for nodes with distinct ids: the graph holds
    one node per input node, in order. *)
Lemma loadData_graph s width height nodes edges sc l :
  load_scales s width height nodes edges = Js.Normal sc ->
  loadData s width height nodes edges = Js.Normal l ->
  ids_distinct nodes = true ->
  NGraph.nodes (loaded_graph l) = graph_entries sc 0 nodes.
Proof.
  intros Hsc H Hd. apply ids_distinct_NoDup in Hd.
  unfold loadData in H. rewrite Hsc in H. simpl in H.
  destruct (load_nodes s sc nodes 0 empty_loaded) as [acc|] eqn:Hacc;
    simpl in H; [|discriminate].
  assert (Hg : NGraph.nodes (loaded_graph acc) = graph_entries sc 0 nodes).
  { rewrite (load_nodes_graph _ _ _ _ _ _ Hacc Hd); [reflexivity|].
    intros nid _. reflexivity. }
  destruct (showEdges s).
  - destruct edges as [edges|]; [|discriminate].
    now rewrite (load_edges_nodes _ _ _ _ _ _ H).
  - now injection H as <-.
Qed.

(** *** Links *)

Section Buckets.

Import KeyFacts.

Local Abbreviation buckets := (list (option Js.number * list KDBush.position)).

Lemma bucket_push_total m w p q :
  bucket_total (bucket_push m w p q) = (bucket_total m + 2)%nat.
Proof.
  unfold bucket_total. induction m as [|[k v] m IH]; simpl; [reflexivity|].
  destruct (same_map_key k w); simpl.
  - rewrite length_app. simpl. lia.
  - rewrite IH. lia.
Qed.

Lemma bucket_push_even m w p q :
  Forall (fun b => Nat.even (List.length (snd b)) = true) m ->
  Forall (fun b => Nat.even (List.length (snd b)) = true) (bucket_push m w p q).
Proof.
  induction m as [|[k v] m IH]; simpl; intros H.
  - repeat constructor.
  - inversion H as [|? ? Hv Hm]; subst. destruct (same_map_key k w).
    + constructor; [|exact Hm]. simpl in *. rewrite length_app. simpl.
      rewrite Nat.add_comm. exact Hv.
    + constructor; [exact Hv | now apply IH].
Qed.

(** What a push does to each bucket. *)
Lemma bucket_push_spec m w p q :
  keys_distinct m ->
  keys_distinct (bucket_push m w p q) /\
  (forall k v, In (k, v) m ->
     In (k, v ++ (if same_map_key k w then [p; q] else [])) (bucket_push m w p q)) /\
  (forall k v', In (k, v') (bucket_push m w p q) ->
     (exists v, In (k, v) m /\
                v' = v ++ (if same_map_key k w then [p; q] else [])) \/
     (k = stored_key w /\ v' = [p; q] /\
      forall k0 v0, In (k0, v0) m -> same_map_key k0 w = false)).
Proof.
  unfold keys_distinct.
  induction m as [|[k0 v0] m IH]; simpl; intros Hd.
  - split; [repeat constructor|]. split; [intros k v []|].
    intros k v' [E|[]]. injection E as <- <-. right. repeat split.
    intros ? ? [].
  - inversion Hd as [|? ? Hh Hd']; subst.
    destruct (same_map_key k0 w) eqn:E0.
    + assert (Hrest : forall k v, In (k, v) m -> same_map_key k w = false).
      { intros k v Hin. rewrite Forall_forall in Hh.
        specialize (Hh _ Hin). simpl in Hh.
        destruct (same_map_key k w) eqn:Ek; [|reflexivity].
        rewrite same_map_key_sym in Ek.
        now rewrite (same_map_key_trans _ _ _ E0 Ek) in Hh. }
      split; [constructor; assumption|]. split.
      * intros k v [E|Hin].
        -- injection E as <- <-. rewrite E0. now left.
        -- right. rewrite (Hrest _ _ Hin), app_nil_r. exact Hin.
      * intros k v' [E|Hin].
        -- injection E as <- <-. left. exists v0. rewrite E0. auto.
        -- left. exists v'. rewrite (Hrest _ _ Hin), app_nil_r. auto.
    + destruct (IH Hd') as (Hd2 & Hin2 & Hout2).
      split; [|split].
      * constructor; [|exact Hd2].
        apply Forall_forall. intros [k v'] Hin. simpl.
        destruct (Hout2 _ _ Hin) as [(v & Hv & _)|(-> & _)].
        -- rewrite Forall_forall in Hh. exact (Hh _ Hv).
        -- now rewrite same_map_key_stored.
      * intros k v [E|Hin].
        -- injection E as <- <-. rewrite E0, app_nil_r. now left.
        -- right. now apply Hin2.
      * intros k v' [E|Hin].
        -- injection E as <- <-. left. exists v0. rewrite E0, app_nil_r. auto.
        -- destruct (Hout2 _ _ Hin) as [(v & Hv & Ev)|(-> & -> & Hn)].
           ++ left. exists v. auto.
           ++ right. repeat split. intros k1 v1 [E|H1].
              ** now injection E as <- <-.
              ** eapply Hn, H1.
Qed.

Variables (s : Settings) (sc : Scales).

Lemma bucket_of_app gr k l1 l2 :
  bucket_of gr sc k (l1 ++ l2) = bucket_of gr sc k l1 ++ bucket_of gr sc k l2.
Proof. unfold bucket_of. apply flat_map_app. Qed.

Lemma edge_ends_nodes gr gr' edge :
  NGraph.nodes gr = NGraph.nodes gr' -> edge_ends gr edge = edge_ends gr' edge.
Proof. unfold edge_ends, NGraph.getNode. now intros ->. Qed.

Lemma bucket_of_nodes gr gr' k edges :
  NGraph.nodes gr = NGraph.nodes gr' ->
  bucket_of gr sc k edges = bucket_of gr' sc k edges.
Proof.
  intros H. unfold bucket_of. apply flat_map_ext. intros e.
  now rewrite (edge_ends_nodes gr gr' e H).
Qed.

Lemma load_edge_buckets gr acc i edge acc' seen :
  NGraph.nodes (loaded_graph acc) = NGraph.nodes gr ->
  load_edge s sc acc i edge = Js.Normal acc' ->
  buckets_hold sc gr (edgesPositionsByWeight (loaded_matrices acc)) seen ->
  buckets_hold sc gr (edgesPositionsByWeight (loaded_matrices acc'))
               (seen ++ [edge]) /\
  List.length (edge_ends gr edge) = 2%nat.
Proof.
  intros Hn E (Hd & Hp & Hc).
  assert (exists p q,
            edge_ends gr edge = [p; q] /\
            edgesPositionsByWeight (loaded_matrices acc')
            = bucket_push (edgesPositionsByWeight (loaded_matrices acc))
                          (edge_key sc edge) p q) as (p & q & Ee & Em).
  { unfold load_edge in E. unfold edge_ends, NGraph.getNode. rewrite <- Hn.
    fold (NGraph.getNode (loaded_graph acc)).
    destruct (first_truthy (edge_sourceID edge) _) as [from|]; [|discriminate].
    destruct (first_truthy (edge_targetID edge) _) as [to|]; [|discriminate].
    fold (NGraph.getNode (loaded_graph acc) from).
    fold (NGraph.getNode (loaded_graph acc) to).
    destruct (NGraph.getNode _ from); [|discriminate].
    destruct (NGraph.getNode _ to); [|discriminate].
    injection E as <-. simpl. eauto. }
  split; [|now rewrite Ee].
  rewrite Em.
  destruct (bucket_push_spec _ (edge_key sc edge) p q Hd)
    as (Hd2 & Hin2 & Hout2).
  assert (Hlast : forall k,
            bucket_of gr sc k [edge]
            = if same_map_key k (edge_key sc edge) then [p; q] else []).
  { intros k. unfold bucket_of. simpl. rewrite app_nil_r, Ee. reflexivity. }
  split; [exact Hd2|]. split.
  - intros k v' Hin. rewrite bucket_of_app, Hlast.
    destruct (Hout2 _ _ Hin) as [(v & Hv & ->)|(-> & -> & Hnone)].
    + now rewrite (Hp _ _ Hv).
    + rewrite stored_key_same.
      assert (X : bucket_of gr sc (stored_key (edge_key sc edge)) seen = []).
      { unfold bucket_of. clear -Hc Hnone.
        induction seen as [|e seen IH]; simpl; [reflexivity|].
        rewrite IH by (intros e' He'; apply Hc; now right).
        destruct (Hc e (or_introl eq_refl)) as (k & v & Hkv & Hk).
        destruct (same_map_key (stored_key (edge_key sc edge)) (edge_key sc e))
          eqn:Ek; [|reflexivity].
        rewrite same_map_key_sym, same_map_key_stored in Ek.
        assert (Hx := Hnone _ _ Hkv).
        now rewrite (same_map_key_trans _ _ _ Hk Ek) in Hx. }
      now rewrite X.
  - intros e Hin. apply in_app_iff in Hin as [Hin|[<-|[]]].
    + destruct (Hc e Hin) as (k & v & Hkv & Hk).
      exists k. eexists. split; [apply Hin2, Hkv | exact Hk].
    + destruct (existsb (fun b => same_map_key (fst b) (edge_key sc edge))
                  (edgesPositionsByWeight (loaded_matrices acc))) eqn:Ex.
      * apply existsb_exists in Ex as ([k v] & Hkv & Hk). simpl in Hk.
        exists k. eexists. split; [apply Hin2, Hkv | exact Hk].
      * exists (stored_key (edge_key sc edge)), [p; q].
        split; [|apply stored_key_same].
        clear -Ex. induction (edgesPositionsByWeight (loaded_matrices acc))
          as [|[k v] m IH]; simpl in *; [now left|].
        apply orb_false_iff in Ex as [-> Ex]. right. now apply IH.
Qed.

Lemma load_edges_buckets gr edges : forall i acc acc' seen,
  NGraph.nodes (loaded_graph acc) = NGraph.nodes gr ->
  load_edges s sc edges i acc = Js.Normal acc' ->
  buckets_hold sc gr (edgesPositionsByWeight (loaded_matrices acc)) seen ->
  buckets_hold sc gr (edgesPositionsByWeight (loaded_matrices acc'))
               (seen ++ edges) /\
  Forall (fun e => List.length (edge_ends gr e) = 2%nat) edges.
Proof.
  induction edges as [|edge edges IH]; intros i acc acc' seen Hn H Hb;
    simpl in H.
  - injection H as <-. rewrite app_nil_r. split; [exact Hb | constructor].
  - destruct (load_edge s sc acc i edge) as [a|] eqn:E; simpl in H;
      [|discriminate].
    destruct (load_edge_buckets gr acc i edge a seen Hn E Hb) as [Hb' Hl].
    destruct (IH (S i) a acc' (seen ++ [edge])) as [Hb'' Hl''];
      [|exact H|exact Hb'|].
    + now rewrite (load_edge_nodes _ _ _ _ _ _ E).
    + rewrite <- app_assoc in Hb''. split; [exact Hb''|].
      constructor; assumption.
Qed.

Lemma load_edge_counts acc i edge acc' :
  load_edge s sc acc i edge = Js.Normal acc' ->
  bucket_total (edgesPositionsByWeight (loaded_matrices acc'))
  = (bucket_total (edgesPositionsByWeight (loaded_matrices acc)) + 2)%nat /\
  (Forall (fun b => Nat.even (List.length (snd b)) = true)
          (edgesPositionsByWeight (loaded_matrices acc)) ->
   Forall (fun b => Nat.even (List.length (snd b)) = true)
          (edgesPositionsByWeight (loaded_matrices acc'))) /\
  NGraph.links (loaded_graph acc')
  = NGraph.links (loaded_graph acc)
    ++ match link_entry s sc i edge with Some k => [k] | None => [] end /\
  link_entry s sc i edge <> None.
Proof.
  unfold load_edge, link_entry.
  destruct (first_truthy (edge_sourceID edge) _) as [from|]; [|discriminate].
  destruct (first_truthy (edge_targetID edge) _) as [to|]; [|discriminate].
  destruct (NGraph.getNode _ from); [|discriminate].
  destruct (NGraph.getNode _ to); [|discriminate].
  intros H. injection H as <-. simpl.
  split; [apply bucket_push_total|].
  split; [apply bucket_push_even|]. split; [reflexivity | discriminate].
Qed.

Lemma load_edges_counts edges : forall i acc acc',
  load_edges s sc edges i acc = Js.Normal acc' ->
  bucket_total (edgesPositionsByWeight (loaded_matrices acc'))
  = (bucket_total (edgesPositionsByWeight (loaded_matrices acc))
     + 2 * List.length edges)%nat /\
  (Forall (fun b => Nat.even (List.length (snd b)) = true)
          (edgesPositionsByWeight (loaded_matrices acc)) ->
   Forall (fun b => Nat.even (List.length (snd b)) = true)
          (edgesPositionsByWeight (loaded_matrices acc'))) /\
  exists ls,
    NGraph.links (loaded_graph acc') = NGraph.links (loaded_graph acc) ++ ls /\
    map Some ls = link_entries s sc i edges.
Proof.
  induction edges as [|edge edges IH]; intros i acc acc' H; simpl in H.
  - injection H as <-. simpl. repeat split; auto.
    exists []. now rewrite app_nil_r.
  - destruct (load_edge s sc acc i edge) as [a|] eqn:E; simpl in H;
      [|discriminate].
    destruct (load_edge_counts _ _ _ _ E) as (Ht & Hev & Hl & Hle).
    destruct (IH _ _ _ H) as (Ht' & Hev' & ls & Hl' & Hls).
    split; [simpl; lia|]. split; [auto|].
    destruct (link_entry s sc i edge) as [k|] eqn:Ek; [|congruence].
    exists (k :: ls). split.
    + rewrite Hl', Hl, <- app_assoc. reflexivity.
    + simpl. now rewrite Ek, Hls.
Qed.

End Buckets.

(** *** What the constructor builds *)

Lemma constructor_loaded dpr container data options g :
  Quiet.constructor dpr container data options = Js.Normal g ->
  exists c d nodes sc l,
    container = Some c /\ data = Some d /\ data_nodes d = Some nodes /\
    let s := merge_settings default_settings options in
    let width := clientWidth c - containerMargin s in
    let height := clientHeight c - containerMargin s in
    load_scales s width height nodes (data_edges d) = Js.Normal sc /\
    loadData s width height nodes (data_edges d) = Js.Normal l /\
    settings g = s /\ app_width g = width /\ app_height g = height /\
    app_graph g = loaded_graph l /\ app_nodeIndex g = loaded_nodeIndex l /\
    matrices g = loaded_matrices l /\
    searchIndex g = KDBush.build (nodesPositions (loaded_matrices l)) /\
    buffers g
    = {| buffers_nodes := Some (nodesPositions (loaded_matrices l));
         buffers_edges :=
           if showEdges s then edgesPositionsByWeight (loaded_matrices l)
           else [] |} /\
    state g
    = set_transform initial_state (GlMatrix.translate GlMatrix.create 0 0)
                    (GlMatrix.projection width height) /\
    trace g = [Render (state g)].
Proof.
  unfold Quiet.constructor.
  destruct container as [c|]; [|discriminate].
  destruct data as [d|]; [|discriminate].
  destruct (data_nodes d) as [nodes|] eqn:En; [|discriminate].
  destruct (_ && _); [discriminate|].
  unfold Quiet.init.
  set (s := merge_settings default_settings options).
  destruct (loadData s _ _ nodes (data_edges d)) as [l|] eqn:E; simpl;
    [|discriminate].
  intros H. injection H as <-.
  assert (exists sc, load_scales s (clientWidth c - containerMargin s)
                       (clientHeight c - containerMargin s) nodes (data_edges d)
                     = Js.Normal sc) as [sc Hsc].
  { unfold loadData in E. destruct (load_scales _ _ _ _ _); [eauto|discriminate]. }
  exists c, d, nodes, sc, l. simpl. repeat split; auto.
Qed.

(** *** No operation touches the loaded data *)

Lemma same_data_refl g : same_data g g.
Proof. unfold same_data. repeat split. Qed.

Lemma same_data_trans g1 g2 g3 :
  same_data g1 g2 -> same_data g2 g3 -> same_data g1 g3.
Proof.
  unfold same_data.
  intros (A1 & A2 & A3 & A4 & A5 & A6 & A7 & A8 & A9)
         (B1 & B2 & B3 & B4 & B5 & B6 & B7 & B8 & B9).
  repeat split; congruence.
Qed.

Lemma setHoveredNode_data g idx : same_data g (Quiet.setHoveredNode g idx).
Proof.
  unfold Quiet.setHoveredNode.
  destruct (negb _); [|unfold same_data; simpl; repeat split].
  unfold set_state_hoveredNode.
  destruct (_ =? _)%Z; [unfold same_data; simpl; repeat split|].
  unfold hoveredNodeWatcher. destruct (_ && _); unfold same_data; simpl;
    repeat split.
Qed.

Lemma setSelectedNode_data g idx : same_data g (Quiet.setSelectedNode g idx).
Proof.
  unfold Quiet.setSelectedNode.
  destruct (negb _); [|apply same_data_refl].
  destruct (negb _); unfold same_data; simpl; repeat split.
Qed.

Lemma perform_data g op g' : Quiet.perform g op = Js.Normal g' -> same_data g g'.
Proof.
  destruct op as [ev|ev| | |x y k| |ids]; simpl; intros H.
  - unfold Quiet.handleMouseMove in H.
    destruct (negb _).
    + destruct (raycast _) as [r|msg]; simpl in H; [|discriminate].
      destruct (truthy_index r); injection H as <-;
        match goal with
        | |- context [Quiet.setHoveredNode ?h ?i] =>
            destruct (setHoveredNode_data h i)
              as (A1 & A2 & A3 & A4 & A5 & A6 & A7 & A8 & A9)
        end; unfold same_data; simpl in *; repeat split; assumption.
    + injection H as <-. unfold same_data; simpl; repeat split.
  - unfold Quiet.handleClick in H.
    destruct (raycast g) as [r|msg]; simpl in H; [|discriminate].
    destruct (truthy_index r); injection H as <-;
      match goal with
      | |- context [Quiet.setSelectedNode ?h ?i] =>
          destruct (setSelectedNode_data h i)
            as (A1 & A2 & A3 & A4 & A5 & A6 & A7 & A8 & A9)
      end; unfold same_data; simpl in *; repeat split; assumption.
  - injection H as <-. unfold same_data; simpl; repeat split.
  - injection H as <-. unfold Quiet.handleMouseUp. simpl.
    destruct (inAnimation _); unfold same_data; simpl; repeat split.
  - injection H as <-. unfold Quiet.handleZoom. simpl.
    destruct (mouseDown _); unfold same_data; simpl; repeat split.
  - injection H as <-. unfold same_data; simpl; repeat split.
  - unfold Quiet.highlight in H. destruct ids as [ids|]; simpl in H.
    + destruct (resolve_ids _ _) as [l|msg]; simpl in H; [|discriminate].
      injection H as <-.
      match goal with
      | |- context [Quiet.setSelectedNode ?h ?i] =>
          destruct (setSelectedNode_data h i)
            as (A1 & A2 & A3 & A4 & A5 & A6 & A7 & A8 & A9)
      end; unfold same_data; simpl in *; repeat split; assumption.
    + injection H as <-. unfold same_data; simpl; repeat split.
Qed.

Lemma perform_all_data ops : forall g g',
  Quiet.perform_all g ops = Js.Normal g' -> same_data g g'.
Proof.
  induction ops as [|op ops IH]; intros g g' H; simpl in H.
  - injection H as <-. apply same_data_refl.
  - destruct (Quiet.perform g op) as [g1|msg] eqn:E; simpl in H; [|discriminate].
    eapply same_data_trans; [eapply perform_data, E | eapply IH, H].
Qed.

Lemma nth_error_link_entries s sc edges : forall i k edge,
  nth_error edges k = Some edge ->
  nth_error (link_entries s sc i edges) k = Some (link_entry s sc (i + k) edge).
Proof.
  induction edges as [|e edges IH]; intros i k edge H.
  - now destruct k.
  - destruct k as [|k]; simpl in *.
    + injection H as <-. now rewrite Nat.add_0_r.
    + rewrite (IH (S i) k edge H). do 2 f_equal. lia.
Qed.

Lemma length_link_entries s sc edges : forall i,
  List.length (link_entries s sc i edges) = List.length edges.
Proof.
  induction edges as [|n edges IH]; intros i; simpl; [reflexivity|].
  now rewrite IH.
Qed.

(** The pieces of a successful [loadData] with edges. *)
Lemma loadData_steps s width height nodes edges l :
  showEdges s = true ->
  loadData s width height nodes (Some edges) = Js.Normal l ->
  exists sc acc,
    load_scales s width height nodes (Some edges) = Js.Normal sc /\
    load_nodes s sc nodes 0 empty_loaded = Js.Normal acc /\
    load_edges s sc edges 0 acc = Js.Normal l /\
    NGraph.links (loaded_graph acc) = [] /\
    edgesPositionsByWeight (loaded_matrices acc) = [] /\
    NGraph.nodes (loaded_graph l) = NGraph.nodes (loaded_graph acc) /\
    (forall nid, In nid (map node_id nodes) ->
                 NGraph.getNode (loaded_graph l) nid <> None).
Proof.
  intros Hs H. unfold loadData in H.
  destruct (load_scales s width height nodes (Some edges)) as [sc|] eqn:Hsc;
    simpl in H; [|discriminate].
  destruct (loadData_arrays s width height nodes (Some edges) sc l Hsc)
    as [Hn _].
  { unfold loadData. rewrite Hsc. exact H. }
  destruct (load_nodes_spec s sc nodes 0 empty_loaded Hn)
    as (acc & Hacc & _ & _ & _ & _ & He & Hl & Hg).
  rewrite Hacc in H. simpl in H. rewrite Hs in H.
  exists sc, acc. repeat split; auto.
  - now apply load_edges_nodes in H.
  - intros nid Hin. unfold NGraph.getNode.
    rewrite (load_edges_nodes _ _ _ _ _ _ H). apply Hg. now right.
Qed.

(** X1.  With edges shown, the graph of a loaded input has one link per
    edge, in input order (the attributes of the edges not reusing the name
    of a field of the link's data): link [i] carries the index [i], the line width
    and the colour of edge [i] (the default colour when it names none),
    runs from [sourceID || source] to [targetID || target], and both ends
    are nodes of the graph. *)
Theorem links_follow_edges s width height nodes edges sc l :
  showEdges s = true ->
  edge_attributes_plain edges = true ->
  load_scales s width height nodes (Some edges) = Js.Normal sc ->
  loadData s width height nodes (Some edges) = Js.Normal l ->
  List.length (NGraph.links (loaded_graph l)) = List.length edges /\
  forall i edge,
    nth_error edges i = Some edge ->
    exists k,
      link_entry s sc i edge = Some k /\
      nth_error (NGraph.links (loaded_graph l)) i = Some k /\
      NGraph.link_index (NGraph.ldata k) = i /\
      NGraph.weight (NGraph.ldata k) = edge_width sc edge /\
      NGraph.getNode (loaded_graph l) (NGraph.fromId k) <> None /\
      NGraph.getNode (loaded_graph l) (NGraph.toId k) <> None.
Proof.
  intros Hs _ Hsc H.
  destruct (loadData_edges_ok _ _ _ _ _ _ H) as [_ Hok].
  destruct (loadData_steps _ _ _ _ _ _ Hs H)
    as (sc' & acc & Hsc' & Hacc & He & Hl0 & _ & _ & Hg).
  rewrite Hsc in Hsc'. injection Hsc' as <-.
  destruct (load_edges_counts s sc edges 0 acc l He) as (_ & _ & ls & Hls & Hm).
  rewrite Hl0 in Hls. simpl in Hls. rewrite Hls.
  split.
  - rewrite <- (length_map Some), Hm. apply length_link_entries.
  - intros i edge Hi.
    assert (Hk := nth_error_link_entries s sc edges 0 i edge Hi).
    rewrite <- Hm, nth_error_map in Hk. simpl in Hk.
    destruct (nth_error ls i) as [k|] eqn:Ek; [|discriminate].
    simpl in Hk. injection Hk as Hk. exists k. split; [now symmetry|].
    split; [reflexivity|].
    unfold edges_ok in Hok. rewrite Hs in Hok.
    destruct edges as [|e0 rest]; [discriminate|].
    rewrite forallb_forall in Hok.
    assert (Hedge := Hok edge (nth_error_In _ _ Hi)).
    unfold edge_ok in Hedge. apply andb_prop in Hedge as [Hf Ht].
    unfold link_entry in Hk.
    destruct (first_truthy (edge_sourceID edge) _) as [from|]; [|discriminate].
    destruct (first_truthy (edge_targetID edge) _) as [to|]; [|discriminate].
    injection Hk as Hk. subst k. simpl.
    repeat split; apply Hg, endpoint_ok_in; assumption.
Qed.

(** The demo data: two links, the second from [b] to [c], of width 5. *)
Lemma links_follow_edges_witness :
  exists sc l k,
    load_scales demo_settings 512 512 (or_default (data_nodes demo_data) [])
      (data_edges demo_data) = Js.Normal sc /\
    loadData demo_settings 512 512 (or_default (data_nodes demo_data) [])
      (data_edges demo_data) = Js.Normal l /\
    List.length (NGraph.links (loaded_graph l)) = 2%nat /\
    nth_error (NGraph.links (loaded_graph l)) 1 = Some k /\
    NGraph.fromId k = "b" /\ NGraph.toId k = "c" /\
    NGraph.weight (NGraph.ldata k) = 5.
Proof.
  destruct (loadData_spec demo_settings 512 512
              (or_default (data_nodes demo_data) []) (data_edges demo_data))
    as (sc & l & Hsc & Hl & _); try (vm_compute; reflexivity).
  destruct (links_follow_edges demo_settings 512 512
              (or_default (data_nodes demo_data) [])
              [demo_edge "a" "b" None (Some 1); demo_edge "b" "c" None (Some 2)]
              sc l eq_refl eq_refl Hsc Hl) as (Hlen & Hi).
  destruct (Hi 1%nat (demo_edge "b" "c" None (Some 2)) eq_refl)
    as (k & Hk & Hn & _ & Hw & _).
  exists sc, l, k. split; [exact Hsc|]. split; [exact Hl|].
  split; [exact Hlen|]. split; [exact Hn|].
  rewrite Hw. vm_compute in Hsc. injection Hsc as <-.
  vm_compute in Hk. injection Hk as <-. repeat split.
Defined.

(** X2.  With edges shown, [edgesPositionsByWeight] of a loaded input
    splits the edges by line width, the width being the key as the code
    holds it (a number, or [undefined] where the scale answers
    [undefined]; [NaN] and [undefined] are two keys, [-0] and [+0] one):
    the keys are pairwise different, the bucket of key [k] lists, in input
    order, the two end positions of every edge whose width is [k], and
    every edge is in a bucket.  So each bucket holds an even number of
    positions ([length / 2] segments, a whole number) and all buckets
    together hold two per edge. *)
Theorem buckets_split_edges_by_width s width height nodes edges sc l :
  showEdges s = true ->
  attributes_plain nodes = true ->
  load_scales s width height nodes (Some edges) = Js.Normal sc ->
  loadData s width height nodes (Some edges) = Js.Normal l ->
  let m := edgesPositionsByWeight (loaded_matrices l) in
  ForallOrdPairs (fun a b => same_map_key (fst a) (fst b) = false) m /\
  (forall k v, In (k, v) m -> v = bucket_of (loaded_graph l) sc k edges) /\
  (forall e, In e edges ->
     List.length (edge_ends (loaded_graph l) e) = 2%nat /\
     exists k v, In (k, v) m /\ same_map_key k (edge_key sc e) = true) /\
  Forall (fun b => Nat.even (List.length (snd b)) = true) m /\
  bucket_total m = (2 * List.length edges)%nat.
Proof.
  intros Hs _ Hsc H m.
  destruct (loadData_steps _ _ _ _ _ _ Hs H)
    as (sc' & acc & Hsc' & Hacc & He & _ & Hm0 & Hn & _).
  rewrite Hsc in Hsc'. injection Hsc' as <-.
  destruct (load_edges_buckets s sc (loaded_graph l) edges 0 acc l [])
    as ((Hd & Hp & Hc) & Hl); [now symmetry | exact He | |].
  { rewrite Hm0. split; [constructor|]. split; [intros ? ? []|intros ? []]. }
  destruct (load_edges_counts s sc edges 0 acc l He) as (Ht & Hev & _).
  rewrite Hm0 in Ht, Hev. simpl in Hp, Hc.
  split; [exact Hd|]. split; [exact Hp|]. split.
  - intros e Hin. split; [|now apply Hc].
    rewrite Forall_forall in Hl. now apply Hl.
  - split; [apply Hev; constructor | exact Ht].
Qed.

(** The demo nodes with three edges of sizes [0], [0] and [NaN]: the first
    two get the width [NaN] (the weights are read from the absent
    [weight] fields), the third gets [undefined], and the buckets are two,
    keyed [NaN] and [undefined], of four and two positions. *)
Lemma buckets_split_edges_by_width_witness :
  exists l,
    loadData demo_settings 512 512 (or_default (data_nodes demo_data) [])
      (Some mixed_size_edges) = Js.Normal l /\
    bucket_total (edgesPositionsByWeight (loaded_matrices l)) = 6%nat /\
    edgesPositionsByWeight (loaded_matrices l)
    = [(Some nan, [(56, 56, 0%nat); (456, 456, 1%nat);
                   (456, 456, 1%nat); (256, 256, 2%nat)]);
       (None, [(56, 56, 0%nat); (256, 256, 2%nat)])].
Proof.
  destruct (loadData_spec demo_settings 512 512
              (or_default (data_nodes demo_data) []) (Some mixed_size_edges))
    as (sc & l & Hsc & Hl & _); try (vm_compute; reflexivity).
  destruct (buckets_split_edges_by_width demo_settings 512 512
              (or_default (data_nodes demo_data) [])
              mixed_size_edges sc l eq_refl eq_refl Hsc Hl)
    as (_ & _ & _ & _ & Ht).
  exists l. split; [exact Hl|]. split; [exact Ht|].
  vm_compute in Hl. injection Hl as <-. vm_compute. reflexivity.
Defined.

(** *** Nodes with distinct ids *)


(** In an object built from nodes with distinct ids, the id of input node
    [i] finds the graph node made for it, and a graph node is found under
    the id at its index. *)
Lemma constructed_lookup dpr c d options g nodes :
  Quiet.constructor dpr (Some c) (Some d) options = Js.Normal g ->
  data_nodes d = Some nodes ->
  ids_distinct nodes = true ->
  exists sc,
    app_nodeIndex g = map node_id nodes /\
    nodesPositions (matrices g) = node_entries sc 0 nodes /\
    NGraph.nodes (app_graph g) = graph_entries sc 0 nodes /\
    (forall i node,
       nth_error nodes i = Some node ->
       NGraph.getNode (app_graph g) (node_id node)
       = Some (NGraph.Node (node_id node) (node_data_entry sc i node))) /\
    (forall nid n,
       NGraph.getNode (app_graph g) nid = Some n ->
       nth_error (map node_id nodes) (NGraph.index (NGraph.data n)) = Some nid).
Proof.
  intros Hc Hn Hd.
  destruct (constructor_loaded _ _ _ _ _ Hc)
    as (c' & d' & nodes' & sc & l & Ec & Ed & En & Hsc & Hl & _ & _ & _ & Hg
        & Hi & Hm & _).
  injection Ec as <-. injection Ed as <-. rewrite Hn in En.
  injection En as <-.
  destruct (loadData_arrays _ _ _ _ _ _ _ Hsc Hl) as (_ & Hp & _ & _ & Hidx).
  assert (Hgr := loadData_graph _ _ _ _ _ _ _ Hsc Hl Hd).
  exists sc. rewrite Hi, Hm, Hg, Hidx, Hp, Hgr.
  split; [reflexivity|]. split; [reflexivity|]. split; [reflexivity|].
  assert (Hnd := ids_distinct_NoDup _ Hd).
  split.
  - intros i node Hin. unfold NGraph.getNode. rewrite Hgr.
    now rewrite (find_graph_entries sc nodes 0 i node Hnd Hin).
  - intros nid n Hf. unfold NGraph.getNode in Hf. rewrite Hgr in Hf.
    assert (Hid : NGraph.id n = nid).
    { apply find_some in Hf as [_ E]. now apply String.eqb_eq in E. }
    apply find_some in Hf as [Hin _].
    apply In_nth_error in Hin as [k Hk].
    assert (Hlt : (k < List.length nodes)%nat).
    { rewrite <- (length_graph_entries sc nodes 0).
      apply nth_error_Some. congruence. }
    destruct (nth_error nodes k) as [node|] eqn:Ek;
      [|apply nth_error_None in Ek; lia].
    rewrite (nth_error_graph_entries sc nodes 0 k node Ek) in Hk.
    injection Hk as <-. simpl in *. subst nid.
    now apply map_nth_error.
Qed.

Lemma find_replace_eq nid d nid' (l : list NGraph.node) :
  find (fun n => String.eqb (NGraph.id n) nid')
       (map (fun n => if String.eqb (NGraph.id n) nid
                      then NGraph.Node nid d else n) l)
  = if String.eqb nid nid'
    then option_map (fun _ => NGraph.Node nid d)
           (find (fun n => String.eqb (NGraph.id n) nid) l)
    else find (fun n => String.eqb (NGraph.id n) nid') l.
Proof.
  destruct (String.eqb nid nid') eqn:E2.
  - apply String.eqb_eq in E2. subst nid'.
    induction l as [|n l IH]; simpl; [reflexivity|].
    destruct (String.eqb (NGraph.id n) nid) eqn:E1; simpl.
    + now rewrite String.eqb_refl.
    + now rewrite E1.
  - induction l as [|n l IH]; simpl; [reflexivity|].
    destruct (String.eqb (NGraph.id n) nid) eqn:E1; simpl.
    + apply String.eqb_eq in E1. now rewrite E1, E2.
    + now destruct (String.eqb (NGraph.id n) nid').
Qed.

(** [getNode] after [addNode]: the new data under the id, the rest as it
    was. *)
Lemma getNode_addNode_eq g nid d nid' :
  NGraph.getNode (NGraph.addNode g nid d) nid'
  = if String.eqb nid nid' then Some (NGraph.Node nid d)
    else NGraph.getNode g nid'.
Proof.
  unfold NGraph.addNode, NGraph.getNode.
  destruct (find (fun n => String.eqb (NGraph.id n) nid) (NGraph.nodes g))
    as [m|] eqn:E; simpl.
  - rewrite find_replace_eq, E. reflexivity.
  - rewrite find_app. simpl.
    destruct (String.eqb nid nid') eqn:E2.
    + apply String.eqb_eq in E2. subst nid'. now rewrite E.
    + destruct (find (fun n => String.eqb (NGraph.id n) nid') (NGraph.nodes g));
        reflexivity.
Qed.

Lemma last_with_id_bound nodes : forall i nid k,
  last_with_id nodes i nid = Some k ->
  (i <= k < i + List.length nodes)%nat /\
  exists node, nth_error nodes (k - i) = Some node /\ node_id node = nid.
Proof.
  induction nodes as [|n nodes IH]; intros i nid k H; simpl in H;
    [discriminate|].
  destruct (last_with_id nodes (S i) nid) as [k'|] eqn:E.
  - injection H as <-. destruct (IH _ _ _ E) as (Hb & node & Hn & Hid).
    simpl. split; [lia|]. exists node. split; [|exact Hid].
    replace (k' - i)%nat with (S (k' - S i)) by lia. exact Hn.
  - destruct (String.eqb (node_id n) nid) eqn:E1; [|discriminate].
    injection H as <-. apply String.eqb_eq in E1. simpl. split; [lia|].
    exists n. now rewrite Nat.sub_diag.
Qed.


(** The node loop, id by id: an id of the input leads to the node made
    for the last input node that has it. *)
Lemma load_nodes_lookup s sc nodes : forall i acc acc' nid,
  load_nodes s sc nodes i acc = Js.Normal acc' ->
  NGraph.getNode (loaded_graph acc') nid
  = match last_with_id nodes i nid with
    | Some k =>
        option_map (fun node => NGraph.Node nid (node_data_entry sc k node))
                   (nth_error nodes (k - i))
    | None => NGraph.getNode (loaded_graph acc) nid
    end.
Proof.
  induction nodes as [|node nodes IH]; intros i acc acc' nid H; simpl in H.
  - now injection H as <-.
  - destruct (load_node s sc acc i node) as [a|] eqn:E; simpl in H;
      [|discriminate].
    rewrite (IH _ _ _ nid H). simpl.
    destruct (last_with_id nodes (S i) nid) as [k|] eqn:Ek.
    + destruct (last_with_id_bound _ _ _ _ Ek) as [Hb _].
      replace (k - i)%nat with (S (k - S i)) by lia. reflexivity.
    + unfold load_node in E. unfold node_coordinate_x, node_coordinate_y in E.
      destruct (coordinate (node_x node) _ _) as [x|] eqn:Ex; simpl in E;
        [|discriminate].
      destruct (coordinate (node_y node) _ _) as [y|] eqn:Ey; simpl in E;
        [|discriminate].
      apply coordinate_normal in Ex as [_ ->].
      apply coordinate_normal in Ey as [_ ->].
      injection E as <-. simpl. rewrite getNode_addNode_eq.
      destruct (String.eqb (node_id node) nid) eqn:E1; [|reflexivity].
      apply String.eqb_eq in E1. subst nid. now rewrite Nat.sub_diag.
Qed.

(** Every id of a loaded graph leads to [node_of_id]. *)
Lemma loadData_lookup s width height nodes edges sc l nid :
  load_scales s width height nodes edges = Js.Normal sc ->
  loadData s width height nodes edges = Js.Normal l ->
  NGraph.getNode (loaded_graph l) nid = node_of_id sc nodes nid.
Proof.
  intros Hsc H. unfold loadData in H. rewrite Hsc in H. simpl in H.
  destruct (load_nodes s sc nodes 0 empty_loaded) as [acc|] eqn:Hacc;
    simpl in H; [|discriminate].
  assert (Hg : NGraph.getNode (loaded_graph acc) nid = node_of_id sc nodes nid).
  { rewrite (load_nodes_lookup _ _ _ _ _ _ nid Hacc). unfold node_of_id.
    destruct (last_with_id nodes 0 nid) as [k|]; [|reflexivity].
    now rewrite Nat.sub_0_r. }
  destruct (showEdges s).
  - destruct edges as [edges|]; [|discriminate].
    unfold NGraph.getNode. rewrite (load_edges_nodes _ _ _ _ _ _ H). exact Hg.
  - now injection H as <-.
Qed.



(** The loaded data of a constructed object, after any operations. *)
Lemma constructed_data dpr c d options g nodes ops g' :
  Quiet.constructor dpr (Some c) (Some d) options = Js.Normal g ->
  data_nodes d = Some nodes ->
  Quiet.perform_all g ops = Js.Normal g' ->
  exists sc l,
    let s := merge_settings default_settings options in
    let width := clientWidth c - containerMargin s in
    let height := clientHeight c - containerMargin s in
    load_scales s width height nodes (data_edges d) = Js.Normal sc /\
    loadData s width height nodes (data_edges d) = Js.Normal l /\
    settings g' = s /\
    app_graph g' = loaded_graph l /\
    app_nodeIndex g' = map node_id nodes /\
    matrices g' = loaded_matrices l /\
    nodesPositions (matrices g') = node_entries sc 0 nodes /\
    nodeColors (matrices g') = map (node_color_entry s) nodes /\
    sizes (matrices g') = map (size_entry sc) nodes /\
    searchIndex g' = KDBush.build (node_entries sc 0 nodes) /\
    buffers g'
    = {| buffers_nodes := Some (node_entries sc 0 nodes);
         buffers_edges :=
           if showEdges s then edgesPositionsByWeight (loaded_matrices l)
           else [] |} /\
    (forall nid,
       NGraph.getNode (app_graph g') nid = node_of_id sc nodes nid).
Proof.
  intros Hc Hn Hp.
  destruct (constructor_loaded _ _ _ _ _ Hc)
    as (c' & d' & nodes' & sc & l & Ec & Ed & En & Hsc & Hl & Hs & _ & _ & Hg
        & Hi & Hm & Hx & Hb & _).
  injection Ec as <-. injection Ed as <-. rewrite Hn in En.
  injection En as <-.
  destruct (loadData_arrays _ _ _ _ _ _ _ Hsc Hl) as (_ & Hpos & Hcol & Hsz & Hidx).
  destruct (perform_all_data _ _ _ Hp)
    as (A1 & _ & _ & A4 & A5 & A6 & A7 & A8 & _).
  exists sc, l. simpl.
  rewrite A1, A4, A5, A6, A7, A8, Hs, Hg, Hi, Hm, Hx, Hb, Hidx, Hpos, Hcol, Hsz.
  repeat split; auto.
  intros nid. eapply loadData_lookup; eassumption.
Qed.



(** ** Neighbours *)

Section Neighbors.

Variables (sc : Scales) (nodes : list NodeInput) (gr : NGraph.t).
Hypothesis Hdistinct : ids_distinct nodes = true.
Hypothesis Hlookup : forall nid, NGraph.getNode gr nid = node_of_id sc nodes nid.





End Neighbors.



(** *** Without edges *)

Lemma no_links_no_neighbors g nid :
  NGraph.links (app_graph g) = [] -> getNodeNeighbors g nid = [].
Proof.
  intros H. unfold getNodeNeighbors, NGraph.linkedNodes.
  destruct nid as [nid|]; [|reflexivity].
  destruct (NGraph.getNode _ _); [|reflexivity]. now rewrite H.
Qed.

Lemma setHoveredNode_no_neighbors g idx :
  NGraph.links (app_graph g) = [] ->
  selectedNeighbors (state g) = [] ->
  hoverNeighbors (state (Quiet.setHoveredNode g idx)) = [] /\
  selectedNeighbors (state (Quiet.setHoveredNode g idx)) = [].
Proof.
  intros Hl Hs. unfold Quiet.setHoveredNode.
  destruct (negb _); [|simpl; auto].
  unfold set_state_hoveredNode.
  destruct (_ =? _)%Z.
  - simpl. split; [|exact Hs]. now apply no_links_no_neighbors.
  - unfold hoveredNodeWatcher. destruct (_ && _); simpl;
      (split; [|exact Hs]);
      match goal with
      | |- getNodeNeighbors ?h ?i = [] => apply (no_links_no_neighbors h i)
      end; exact Hl.
Qed.

Lemma setSelectedNode_no_neighbors g idx :
  NGraph.links (app_graph g) = [] ->
  hoverNeighbors (state g) = [] ->
  selectedNeighbors (state g) = [] ->
  hoverNeighbors (state (Quiet.setSelectedNode g idx)) = [] /\
  selectedNeighbors (state (Quiet.setSelectedNode g idx)) = [].
Proof.
  intros Hl Hh Hs. unfold Quiet.setSelectedNode.
  destruct (negb _); [|auto].
  destruct (negb _); simpl; (split; [exact Hh|]); [|reflexivity].
  match goal with
  | |- getNodeNeighbors ?h ?i = [] => apply (no_links_no_neighbors h i)
  end. exact Hl.
Qed.

Lemma perform_no_neighbors g op g' :
  NGraph.links (app_graph g) = [] ->
  hoverNeighbors (state g) = [] -> selectedNeighbors (state g) = [] ->
  Quiet.perform g op = Js.Normal g' ->
  hoverNeighbors (state g') = [] /\ selectedNeighbors (state g') = [].
Proof.
  intros Hl Hh Hs.
  destruct op as [ev|ev| | |x y k| |ids]; simpl; intros H.
  - unfold Quiet.handleMouseMove in H.
    destruct (negb _).
    + destruct (raycast _) as [r|msg]; simpl in H; [|discriminate].
      destruct (truthy_index r); injection H as <-; simpl;
        now apply setHoveredNode_no_neighbors.
    + injection H as <-. simpl. auto.
  - unfold Quiet.handleClick in H.
    destruct (raycast g) as [r|msg]; simpl in H; [|discriminate].
    destruct (truthy_index r); injection H as <-; simpl;
      now apply setSelectedNode_no_neighbors.
  - injection H as <-. auto.
  - injection H as <-. unfold Quiet.handleMouseUp. simpl.
    destruct (inAnimation _); auto.
  - injection H as <-. unfold Quiet.handleZoom. simpl.
    destruct (mouseDown _); auto.
  - injection H as <-. auto.
  - unfold Quiet.highlight in H. destruct ids as [ids|]; simpl in H.
    + destruct (resolve_ids _ _) as [l|msg]; simpl in H; [|discriminate].
      injection H as <-. simpl. now apply setSelectedNode_no_neighbors.
    + injection H as <-. auto.
Qed.

Lemma perform_all_no_neighbors ops : forall g g',
  NGraph.links (app_graph g) = [] ->
  hoverNeighbors (state g) = [] -> selectedNeighbors (state g) = [] ->
  Quiet.perform_all g ops = Js.Normal g' ->
  hoverNeighbors (state g') = [] /\ selectedNeighbors (state g') = [].
Proof.
  induction ops as [|op ops IH]; intros g g' Hl Hh Hs H; simpl in H.
  - injection H as <-. auto.
  - destruct (Quiet.perform g op) as [g1|msg] eqn:E; simpl in H; [|discriminate].
    destruct (perform_no_neighbors _ _ _ Hl Hh Hs E) as [Hh1 Hs1].
    apply (IH g1 g'); auto.
    destruct (perform_data _ _ _ E) as (_ & _ & _ & -> & _). exact Hl.
Qed.

(** X5.  With [showEdges: false] the edges of the data are not looked at:
    they may be absent or name unknown nodes.  The constructor returns
    whenever the nodes have their coordinates; the graph then has no
    link, there are no edge buckets and no edge buffers, and whatever is
    done to the object afterwards no node ever has a neighbor. *)
Theorem without_edges_nothing_is_linked dpr c nodes edges options :
  opt_showEdges options = Some false ->
  forallb node_ok nodes = true ->
  exists g,
    constructor dpr (Some c)
      (Some {| data_nodes := Some nodes; data_edges := edges |}) options
    = Js.Normal g /\
    forall ops g',
      perform_all g ops = Js.Normal g' ->
      NGraph.links (app_graph g') = [] /\
      edgesPositionsByWeight (matrices g') = [] /\
      buffers_edges (buffers g') = [] /\
      (forall i, neighbors_of g' i = []) /\
      hoverNeighbors (state g') = [] /\ selectedNeighbors (state g') = [].
Proof.
  intros Ho Hn.
  set (s := merge_settings default_settings options).
  assert (Hs : showEdges s = false).
  { unfold s. now rewrite showEdges_merge, Ho. }
  assert (Hin : input_ok (Some c)
                  (Some {| data_nodes := Some nodes; data_edges := edges |})
                  options = true).
  { unfold input_ok. simpl. rewrite Hn. unfold edges_ok. fold s.
    now rewrite Hs. }
  apply constructor_returns with (dpr := dpr) in Hin as [g Hg].
  exists g. split; [apply constructor_returns_quiet, Hg|]. intros ops g' Hp.
  apply perform_all_quiet in Hp.
  destruct (constructor_loaded _ _ _ _ _ Hg)
    as (c' & d' & nodes' & sc & l & _ & Ed & En & _ & Hl & _ & _ & _ & Hgr
        & _ & Hm & _ & Hb & Hst & _).
  injection Ed as <-. simpl in En. injection En as <-. simpl in Hl.
  fold s in Hl, Hb. rewrite Hs in Hb. clearbody s.
  assert (Hlinks : NGraph.links (loaded_graph l) = [] /\
                   edgesPositionsByWeight (loaded_matrices l) = []).
  { unfold loadData in Hl.
    destruct (load_scales s _ _ nodes edges) as [sc'|]; simpl in Hl;
      [|discriminate].
    destruct (load_nodes_spec s sc' nodes 0 empty_loaded Hn)
      as (acc & Hacc & _ & _ & _ & _ & He & Hk & _).
    rewrite Hacc in Hl. simpl in Hl. rewrite Hs in Hl.
    injection Hl as <-. auto. }
  destruct Hlinks as [Hk He].
  destruct (perform_all_data _ _ _ Hp)
    as (_ & _ & _ & A4 & _ & A6 & _ & A8 & _).
  assert (Hk' : NGraph.links (app_graph g') = []) by now rewrite A4, Hgr.
  split; [exact Hk'|]. split; [now rewrite A6, Hm|].
  split; [now rewrite A8, Hb|]. split.
  - intros i. now apply no_links_no_neighbors.
  - apply (perform_all_no_neighbors ops g g'); auto.
    + now rewrite Hgr.
    + now rewrite Hst.
    + now rewrite Hst.
Qed.

(** The demo nodes with edges that name no node of the data. *)
Lemma without_edges_nothing_is_linked_witness :
  exists g,
    constructor 1 (Some demo_container)
      (Some {| data_nodes := data_nodes demo_data;
               data_edges := Some [demo_edge "x" "y" None None] |})
      (Build_Options None (Some false) None None None None None None None None
                     None None None None None)
    = Js.Normal g /\
    exists g',
      perform_all g [MouseMove (mouse_at 456 456)] = Js.Normal g' /\
      hoveredNode (state g') = 1%Z /\ hoverNeighbors (state g') = [] /\
      neighbors_of g' 1 = [].
Proof.
  destruct (without_edges_nothing_is_linked 1 demo_container
              (or_default (data_nodes demo_data) [])
              (Some [demo_edge "x" "y" None None])
              (Build_Options None (Some false) None None None None None None
                             None None None None None None None)
              eq_refl eq_refl) as (g & Hg & H).
  exists g. split; [exact Hg|].
  vm_compute in Hg. injection Hg as Hg. subst g.
  eexists. split; [vm_compute; reflexivity|].
  match goal with
  | |- hoveredNode (state ?g') = _ /\ _ =>
      destruct (H [MouseMove (mouse_at 456 456)] g')
        as (_ & _ & _ & Hn & Hh & _); [vm_compute; reflexivity|]
  end.
  split; [reflexivity|]. split; [exact Hh | apply Hn].
Defined.

(** ** Handlers *)

(** *** Events of a click *)

Lemma getNodeByIndex_state g s i :
  getNodeByIndex (with_state g s) i = getNodeByIndex g i.
Proof. reflexivity. Qed.

Lemma raycast_in_index g idx :
  raycast g = Js.Normal (Some idx) ->
  (idx < List.length (KDBush.points (searchIndex g)))%nat.
Proof.
  intros H. unfold raycast in H.
  destruct (closest g (pointsInBBox g) (scaledPointSize g, None))
    as [[m c]|msg] eqn:E; simpl in H; [|discriminate].
  injection H as ->.
  pose proof (closest_picked g (scaledPointSize g) (pointsInBBox g) []
                (scaledPointSize g, None) (m, Some idx) eq_refl E) as P.
  unfold picked in P; simpl in P. destruct P as (_ & Hd & _).
  unfold point_distance in Hd.
  destruct (getScatterGlPos g None).
  destruct (nth_error (KDBush.points (searchIndex g)) idx) eqn:En;
    [|discriminate].
  apply nth_error_Some. congruence.
Qed.

Lemma setSelectedNode_effects g idx :
  let g' := Quiet.setSelectedNode g idx in
  selectedNode (state g') = or_default idx (-1)%Z /\
  highlightedNodes (state g') = highlightedNodes (state g) /\
  trace g' = trace g ++ selection_effects g g'.
Proof.
  unfold selection_effects, Quiet.setSelectedNode.
  set (i := or_default idx (-1)%Z). cbv zeta.
  destruct (Z.eqb_spec (selectedNode (state g)) i) as [E|E]; cbn [negb].
  - rewrite Z.eqb_refl, app_nil_r. auto.
  - destruct (Z.eqb_spec i (-1)) as [E1|E1]; cbn [negb];
      with_strategy opaque [Z.eqb] simpl;
      (destruct (Z.eqb_spec i (selectedNode (state g))); [congruence|]);
      (destruct (Z.eqb_spec i (-1)); [try congruence|try congruence]);
      (split; [reflexivity|]); (split; [reflexivity|]);
      rewrite <- ?app_assoc; reflexivity.
Qed.

(** X6.  A click that returns leaves these effects, in order: the frame
    drawn by [highlight()], the effects of the change of selection
    ([nodeselect] and a frame when a node becomes selected, a frame when
    the selection is cleared, nothing when it stays: clicking the selected
    node again does not unselect it), and last the one [click] event,
    which carries the selected node or [null]. *)
Theorem click_raises_select_then_click g event g' :
  handleClick g event = Js.Normal g' ->
  trace g' =
    trace g
    ++ [Render (set_highlightedNodes (state g) [])]
    ++ selection_effects g g'
    ++ [Raise "click" (ArgClick (clicked_node g')) (state g')] /\
  highlightedNodes (state g') = [] /\
  (forall idx, raycast g = Js.Normal (Some (S idx)) ->
               selectedNode (state g') = Z.of_nat (S idx)) /\
  (raycast g = Js.Normal None \/ raycast g = Js.Normal (Some 0%nat) ->
   selectedNode (state g') = (-1)%Z).
Proof.
  intros H. apply handleClick_quiet in H. revert H.
  unfold Quiet.handleClick. intros H.
  destruct (raycast g) as [r|msg]; simpl in H; [|discriminate].
  set (g1 := Quiet.render (with_state g (set_highlightedNodes (state g) []))) in H.
  assert (Hsel : exists idx,
            g' = raiseEvent (Quiet.setSelectedNode g1 idx)
                   "click" (ArgClick (clicked_node (Quiet.setSelectedNode g1 idx))) /\
            or_default idx (-1)%Z
            = if truthy_index r then Z.of_nat (or_default r 0%nat) else (-1)%Z).
  { destruct r as [[|k]|]; simpl in H; injection H as <-.
    - exists None. split; [|reflexivity]. unfold clicked_node.
      destruct (setSelectedNode_effects g1 None) as (-> & _). reflexivity.
    - exists (Some (Z.of_nat (S k))). split; [|reflexivity].
      unfold clicked_node.
      destruct (setSelectedNode_effects g1 (Some (Z.of_nat (S k)))) as (-> & _).
      reflexivity.
    - exists None. split; [|reflexivity]. unfold clicked_node.
      destruct (setSelectedNode_effects g1 None) as (-> & _). reflexivity. }
  destruct Hsel as (idx & -> & Hidx).
  destruct (setSelectedNode_effects g1 idx) as (Hs & Hh & Ht).
  split.
  - change (trace (raiseEvent (Quiet.setSelectedNode g1 idx) "click"
                     (ArgClick (clicked_node (Quiet.setSelectedNode g1 idx)))))
      with (trace (Quiet.setSelectedNode g1 idx)
            ++ [Raise "click" (ArgClick (clicked_node (Quiet.setSelectedNode g1 idx)))
                  (state (Quiet.setSelectedNode g1 idx))]).
    rewrite Ht. unfold g1 at 1. simpl.
    rewrite <- !app_assoc. reflexivity.
  - split; [exact Hh|]. simpl. rewrite Hs, Hidx. split.
    + intros k E. injection E as ->. reflexivity.
    + intros [E|E]; injection E as ->; reflexivity.
Qed.

(** The demo data: a click on [b] raises [nodeselect] for [b], then
    [click] with [b]; a second click on it raises [click] alone. *)
Lemma click_raises_select_then_click_witness :
  exists g,
    demo = Js.Normal g /\
    exists g1,
      handleClick (with_state g (set_mousePosition (state g) (456, 456)))
                  (mouse_at 456 456) = Js.Normal g1 /\
      selectedNode (state g1) = 1%Z /\
      map (fun e => match e with
                    | Raise name _ _ => name
                    | Render _ => "render"
                    end) (trace g1)
      = ["render"; "render"; "nodeselect"; "render"; "click"] /\
      exists g2,
        handleClick g1 (mouse_at 456 456) = Js.Normal g2 /\
        selectedNode (state g2) = 1%Z /\
        selection_effects g1 g2 = [] /\
        exists st,
          trace g2 = trace g1 ++ [Render st]
                     ++ [Raise "click" (ArgClick (clicked_node g2)) (state g2)].
Proof.
  eexists. split; [vm_compute; reflexivity|].
  eexists. split; [vm_compute; reflexivity|].
  split; [vm_compute; reflexivity|]. split; [vm_compute; reflexivity|].
  eexists. split; [vm_compute; reflexivity|].
  split; [vm_compute; reflexivity|].
  match goal with
  | |- selection_effects ?g1 ?g2 = [] /\ _ =>
      destruct (click_raises_select_then_click g1 (mouse_at 456 456) g2)
        as (Ht & _); [vm_compute; reflexivity|];
      assert (He : selection_effects g1 g2 = []) by (vm_compute; reflexivity)
  end.
  split; [exact He|]. eexists. rewrite Ht, He. reflexivity.
Defined.

(** *** Events of a move of the pointer *)

Lemma setHoveredNode_effects g idx :
  let g' := Quiet.setHoveredNode g idx in
  let new := or_default idx (-1)%Z in
  hoveredNode (state g') = new /\
  mousePosition (state g') = mousePosition (state g) /\
  trace g' =
    trace g ++
    if (new =? hoveredNode (state g))%Z then []
    else if (new =? -1)%Z
         then [Raise "nodeout" (ArgNode (getNodeByIndex g (hoveredNode (state g))))
                 (set_hoveredNode (state g) new);
               Render (state g')]
         else [Raise "nodeover" (ArgNode (getNodeByIndex g new))
                 (set_hoveredNode (state g) new);
               Render (state g')].
Proof.
  unfold Quiet.setHoveredNode.
  set (i := or_default idx (-1)%Z). cbv zeta.
  destruct (Z.eqb_spec (hoveredNode (state g)) i) as [E|E]; cbn [negb].
  - rewrite <- E at 2. rewrite Z.eqb_refl, app_nil_r. simpl. auto.
  - unfold set_state_hoveredNode.
    destruct (Z.eqb_spec (hoveredNode (state g)) i) as [E'|_]; [congruence|].
    destruct (Z.eqb_spec i (hoveredNode (state g))) as [E'|_]; [congruence|].
    unfold hoveredNodeWatcher.
    destruct (Z.eqb_spec i (-1)) as [E1|E1].
    + destruct (Z.eqb_spec (hoveredNode (state g)) (-1)) as [E2|E2];
        [congruence|].
      cbn [negb andb]. with_strategy opaque [Z.eqb] simpl.
      split; [reflexivity|]. split; [reflexivity|].
      rewrite <- ?app_assoc; reflexivity.
    + cbn [negb andb]. with_strategy opaque [Z.eqb] simpl.
      split; [reflexivity|]. split; [reflexivity|].
      rewrite <- ?app_assoc; reflexivity.
Qed.

(** X7.  A move of the pointer that returns raises at most one hover
    event, followed by a frame: none when the hovered node stays the same
    (or a drag is going on), [nodeout] for the node left when the pointer
    goes from a node to no node, and [nodeover] for the new node
    otherwise.  Going from one node straight to another raises [nodeover]
    for the new one and no [nodeout] for the old one. *)
Theorem move_raises_one_hover_event g event g' :
  handleMouseMove g event = Js.Normal g' ->
  trace g' = trace g ++ hover_effects g g' /\
  mousePosition (state g') = getRelativeMousePosition event /\
  (mouseDown (state g) = true -> hoveredNode (state g') = hoveredNode (state g)) /\
  (hoveredNode (state g) <> (-1)%Z -> hoveredNode (state g') <> (-1)%Z ->
   silent "nodeout" (hover_effects g g') = true).
Proof.
  intros H. apply handleMouseMove_quiet in H. revert H.
  unfold Quiet.handleMouseMove. intros H.
  set (g0 := with_state g (set_mousePosition (state g)
                             (getRelativeMousePosition event))) in H.
  assert (Hlast : hoveredNode (state g) <> (-1)%Z ->
                  hoveredNode (state g') <> (-1)%Z ->
                  silent "nodeout" (hover_effects g g') = true).
  { intros _ Hn. unfold hover_effects.
    destruct (_ =? hoveredNode (state g))%Z; [reflexivity|].
    destruct (Z.eqb_spec (hoveredNode (state g')) (-1)); [congruence|].
    reflexivity. }
  destruct (mouseDown (state g0)) eqn:Ed; cbn [negb] in H.
  - injection H as <-. unfold hover_effects. simpl.
    rewrite Z.eqb_refl, app_nil_r. repeat split; auto.
  - destruct (raycast g0) as [r|msg]; simpl in H; [|discriminate].
    assert (Hg : exists idx t c,
              g' = with_tooltip (setCursorStyle (Quiet.setHoveredNode g0 idx) c) t).
    { destruct (truthy_index r); injection H as <-; eauto. }
    destruct Hg as (idx & t & c & Hg).
    destruct (setHoveredNode_effects g0 idx) as (Hh & Hm & Ht).
    assert (Hst : state g' = state (Quiet.setHoveredNode g0 idx)) by now subst g'.
    assert (Htr : trace g' = trace (Quiet.setHoveredNode g0 idx)) by now subst g'.
    split; [|split; [|split]].
    + rewrite Htr, Ht. unfold hover_effects. rewrite Hst, Hh, Hm.
      reflexivity.
    + now rewrite Hst, Hm.
    + simpl in Ed. congruence.
    + exact Hlast.
Qed.

(** The demo data: from no node to [c], then straight from [c] to [b],
    then off every node. *)
Lemma move_raises_one_hover_event_witness :
  exists g,
    demo = Js.Normal g /\
    exists g1 g2 g3,
      handleMouseMove g (mouse_at 256 256) = Js.Normal g1 /\
      handleMouseMove g1 (mouse_at 456 456) = Js.Normal g2 /\
      handleMouseMove g2 (mouse_at 100 400) = Js.Normal g3 /\
      hoveredNode (state g1) = 2%Z /\ hoveredNode (state g2) = 1%Z /\
      hoveredNode (state g3) = (-1)%Z /\
      map (fun e => match e with
                    | Raise name _ _ => name
                    | Render _ => "render"
                    end) (hover_effects g1 g2) = ["nodeover"; "render"] /\
      trace g2 = trace g1 ++ hover_effects g1 g2 /\
      map (fun e => match e with
                    | Raise name _ _ => name
                    | Render _ => "render"
                    end) (hover_effects g2 g3) = ["nodeout"; "render"].
Proof.
  eexists. split; [vm_compute; reflexivity|].
  do 3 eexists.
  split; [vm_compute; reflexivity|]. split; [vm_compute; reflexivity|].
  split; [vm_compute; reflexivity|]. split; [vm_compute; reflexivity|].
  split; [vm_compute; reflexivity|]. split; [vm_compute; reflexivity|].
  split; [vm_compute; reflexivity|].
  match goal with
  | |- trace ?g2 = trace ?g1 ++ _ /\ _ =>
      destruct (move_raises_one_hover_event g1 (mouse_at 456 456) g2)
        as (Ht & _); [vm_compute; reflexivity|]
  end.
  split; [exact Ht | vm_compute; reflexivity].
Defined.

(** *** Drags *)

Lemma drag_step_spec g op :
  drag_step op = true -> mouseDown (state g) = true ->
  exists g',
    Quiet.perform g op = Js.Normal g' /\
    mouseDown (state g') = true /\
    hoveredNode (state g') = hoveredNode (state g) /\
    hoverNeighbors (state g') = hoverNeighbors (state g) /\
    selectedNode (state g') = selectedNode (state g) /\
    selectedNeighbors (state g') = selectedNeighbors (state g) /\
    highlightedNodes (state g') = highlightedNodes (state g) /\
    tooltip_shown g' = tooltip_shown g /\
    exists new, trace g' = trace g ++ new /\ frames_and_zooms new = true.
Proof.
  intros Hop Hd. destruct op as [ev|ev| | |x y k| |ids]; try discriminate;
    simpl.
  - unfold Quiet.handleMouseMove. simpl. rewrite Hd. simpl.
    eexists. split; [reflexivity|]. simpl. repeat split; auto.
    exists []. now rewrite app_nil_r.
  - unfold Quiet.handleZoom. simpl. rewrite Hd.
    eexists. split; [reflexivity|]. simpl. repeat split; auto.
    eexists. split; [rewrite <- app_assoc; reflexivity | reflexivity].
Qed.

Lemma frames_and_zooms_app l1 l2 :
  frames_and_zooms l1 = true -> frames_and_zooms l2 = true ->
  frames_and_zooms (l1 ++ l2) = true.
Proof. unfold frames_and_zooms. intros. rewrite forallb_app. now rewrite H, H0. Qed.

Lemma frames_and_zooms_silent l name :
  String.eqb "zoom" name = false ->
  frames_and_zooms l = true -> silent name l = true.
Proof.
  intros Hn. unfold frames_and_zooms, silent.
  induction l as [|e l IH]; simpl; [reflexivity|].
  intros H. apply andb_prop in H as [He Hl]. rewrite (IH Hl), andb_true_r.
  destruct e as [n a st|st]; simpl; [|reflexivity].
  apply String.eqb_eq in He. subst n. now rewrite Hn.
Qed.

(** *** The indices held by the state *)

Section InRange.

Variable n : nat.

Lemma getNodeNeighbors_range g x :
  indices_below n (app_graph g) ->
  Forall (fun i => (i < n)%nat) (getNodeNeighbors g x).
Proof.
  intros Hg. unfold getNodeNeighbors, NGraph.linkedNodes.
  destruct x as [nid|]; [|constructor].
  destruct (NGraph.getNode _ nid); [|constructor].
  apply Forall_forall. intros i Hi.
  apply in_map_iff in Hi as (nd & <- & Hin).
  apply in_flat_map in Hin as (k & _ & Hin).
  destruct (String.eqb (NGraph.fromId k) nid).
  - destruct (NGraph.getNode _ (NGraph.toId k)) eqn:E; [|contradiction].
    destruct Hin as [<-|[]]. eapply Hg, E.
  - destruct (String.eqb (NGraph.toId k) nid); [|contradiction].
    destruct (NGraph.getNode _ (NGraph.fromId k)) eqn:E; [|contradiction].
    destruct Hin as [<-|[]]. eapply Hg, E.
Qed.




Lemma picked_is_pickable g r :
  List.length (KDBush.points (searchIndex g)) = n ->
  raycast g = Js.Normal r ->
  pickable n (or_default (if truthy_index r then index_value r else None)
                         (-1)%Z).
Proof.
  intros Hn H. destruct r as [[|k]|]; simpl; try (now left).
  right. apply raycast_in_index in H. rewrite Hn in H. lia.
Qed.



End InRange.





(** ** Frames and settings *)

(** *** Data and settings under actions *)

Lemma same_loaded_refl g : same_loaded g g.
Proof. unfold same_loaded. repeat split. Qed.

Lemma same_loaded_trans g1 g2 g3 :
  same_loaded g1 g2 -> same_loaded g2 g3 -> same_loaded g1 g3.
Proof.
  unfold same_loaded.
  intros (A2 & A3 & A4 & A5 & A6 & A7 & A8 & A9)
         (B2 & B3 & B4 & B5 & B6 & B7 & B8 & B9).
  repeat split; congruence.
Qed.

Lemma act_loaded g a g' : Quiet.act g a = Js.Normal g' -> same_loaded g g'.
Proof.
  destruct a as [op|u]; simpl; intros H.
  - apply perform_data in H.
    destruct H as (_ & A2 & A3 & A4 & A5 & A6 & A7 & A8 & A9).
    unfold same_loaded. repeat split; assumption.
  - injection H as <-. destruct u; unfold same_loaded; simpl; repeat split.
Qed.

Lemma act_all_loaded l : forall g g',
  Quiet.act_all g l = Js.Normal g' -> same_loaded g g'.
Proof.
  induction l as [|a l IH]; intros g g' H; simpl in H.
  - injection H as <-. apply same_loaded_refl.
  - destruct (Quiet.act g a) as [g1|msg] eqn:E; simpl in H; [|discriminate].
    eapply same_loaded_trans; [eapply act_loaded, E | eapply IH, H].
Qed.

(** *** The states frames are drawn from *)

Section Rendered.

Variable n : nat.











End Rendered.




(** ** Calls that return

    On an object whose frames can be drawn every call returns, with the
    object its quiet counterpart leaves, and the frames of that object
    can be drawn again. *)

Section Returns.

Variable n : nat.

Lemma drawable_frame g : drawable n g -> exists calls, frame g = Js.Normal calls.
Proof.
  intros (H1 & H2 & _ & _ & H5 & H6). now apply (frame_total n g).
Qed.

Lemma drawable_render g : drawable n g -> render g = Js.Normal (Quiet.render g).
Proof. intros H. apply render_returns, drawable_frame, H. Qed.

(** What [drawable] reads. *)
Lemma drawable_with g g' :
  same_data g g' -> frame_in_range n (state g') ->
  drawable n g -> drawable n g'.
Proof.
  intros (_ & _ & _ & Hg & _ & Hm & Hx & Hb & _) Hs (H1 & H2 & H3 & H4 & H5 & _).
  unfold drawable. rewrite Hm, Hx, Hg, Hb. repeat split; auto; apply Hs.
Qed.

Lemma setHoveredNode_frame_range g idx :
  indices_below n (app_graph g) ->
  (-1 <= or_default idx (-1) < Z.of_nat n)%Z ->
  frame_in_range n (state g) ->
  frame_in_range n (state (Quiet.setHoveredNode g idx)).
Proof.
  intros Hg Hi (H1 & H2 & H3 & H4).
  unfold Quiet.setHoveredNode.
  destruct (Z.eqb_spec (hoveredNode (state g)) (or_default idx (-1)%Z)) as [E|E];
    cbn [negb].
  - unfold frame_in_range. simpl. repeat split; auto; lia.
  - unfold set_state_hoveredNode.
    destruct (Z.eqb_spec (hoveredNode (state g)) (or_default idx (-1)%Z));
      [congruence|].
    unfold hoveredNodeWatcher, frame_in_range. destruct (_ && _); simpl;
      (split; [exact Hi|]); (split; [exact H2|]);
      (split; [|exact H4]);
      match goal with
      | |- Forall _ (getNodeNeighbors ?h ?i) =>
          now apply (getNodeNeighbors_range n h i)
      end.
Qed.

Lemma setSelectedNode_frame_range g idx :
  indices_below n (app_graph g) ->
  (-1 <= or_default idx (-1) < Z.of_nat n)%Z ->
  frame_in_range n (state g) ->
  frame_in_range n (state (Quiet.setSelectedNode g idx)).
Proof.
  intros Hg Hi (H1 & H2 & H3 & H4).
  unfold Quiet.setSelectedNode.
  destruct (negb _); [|unfold frame_in_range; repeat split; auto; lia].
  unfold frame_in_range. destruct (negb _); simpl;
    (split; [exact H1|]); (split; [exact Hi|]); (split; [exact H3|]);
    [|constructor].
  match goal with
  | |- Forall _ (getNodeNeighbors ?h ?i) =>
      now apply (getNodeNeighbors_range n h i)
  end.
Qed.

Lemma setHoveredNode_returns g idx :
  drawable n g -> (-1 <= or_default idx (-1) < Z.of_nat n)%Z ->
  setHoveredNode g idx = Js.Normal (Quiet.setHoveredNode g idx) /\
  drawable n (Quiet.setHoveredNode g idx).
Proof.
  intros Hd Hi.
  assert (Hd' : drawable n (Quiet.setHoveredNode g idx)).
  { apply (drawable_with g); [apply setHoveredNode_data | | exact Hd].
    apply setHoveredNode_frame_range; auto; apply Hd. }
  split; [|exact Hd'].
  unfold setHoveredNode, Quiet.setHoveredNode in *. cbv zeta in *.
  destruct (negb _); [|reflexivity].
  apply drawable_render.
  apply (drawable_with _ _ (same_data_refl _)) in Hd'; exact Hd' || apply Hd'.
Qed.

Lemma setSelectedNode_returns g idx :
  drawable n g -> (-1 <= or_default idx (-1) < Z.of_nat n)%Z ->
  setSelectedNode g idx = Js.Normal (Quiet.setSelectedNode g idx) /\
  drawable n (Quiet.setSelectedNode g idx).
Proof.
  intros Hd Hi.
  assert (Hd' : drawable n (Quiet.setSelectedNode g idx)).
  { apply (drawable_with g); [apply setSelectedNode_data | | exact Hd].
    apply setSelectedNode_frame_range; auto; apply Hd. }
  split; [|exact Hd'].
  unfold setSelectedNode, Quiet.setSelectedNode in *. cbv zeta in *.
  destruct (negb (selectedNode (state g) =? _)%Z); [|reflexivity].
  apply drawable_render. exact Hd'.
Qed.

Lemma picked_in_range g r :
  List.length (KDBush.points (searchIndex g)) = n ->
  raycast g = Js.Normal r ->
  (-1 <= or_default (if truthy_index r then index_value r else None) (-1)
   < Z.of_nat n)%Z.
Proof.
  intros Hn H. destruct (picked_is_pickable n g r Hn H) as [->|]; lia.
Qed.


Lemma highlight_returns g ids :
  drawable n g ->
  match ids with Some ids => ids_known g ids = true | None => True end ->
  exists g',
    highlight g ids = Js.Normal g' /\ Quiet.highlight g ids = Js.Normal g' /\
    drawable n g'.
Proof.
  intros Hd Hk. unfold highlight, Quiet.highlight.
  destruct ids as [ids|].
  - destruct (resolve_ids_known (app_graph g) ids Hk) as (l & -> & _). simpl.
    match goal with
    | |- context [setSelectedNode ?h None] =>
        destruct (setSelectedNode_returns h None) as [-> Hd1];
        [exact Hd | simpl; lia |]
    end.
    simpl. rewrite (drawable_render _ Hd1).
    eexists. split; [reflexivity|]. split; [reflexivity|]. exact Hd1.
  - simpl.
    match goal with
    | |- context [render ?h] =>
        assert (Hd1 : drawable n h) by exact Hd;
        rewrite (drawable_render _ Hd1)
    end.
    eexists. split; [reflexivity|]. split; [reflexivity|]. exact Hd1.
Qed.

Lemma handleMouseMove_returns g event :
  drawable n g ->
  candidates_valid (mouse_moved g event) = true ->
  exists g',
    handleMouseMove g event = Js.Normal g' /\
    Quiet.handleMouseMove g event = Js.Normal g' /\ drawable n g'.
Proof.
  intros Hd Hv. unfold handleMouseMove, Quiet.handleMouseMove. cbv zeta.
  fold (mouse_moved g event).
  assert (Hd1 : drawable n (mouse_moved g event)) by exact Hd.
  destruct (negb _); [|eauto].
  destruct (raycast_total _ Hv) as [r Hr]. rewrite Hr. simpl.
  assert (Hi := picked_in_range _ r (proj1 (proj2 (proj2 Hd1))) Hr).
  destruct (truthy_index r);
    match goal with
    | |- context [setHoveredNode ?h ?i] =>
        destruct (setHoveredNode_returns h i Hd1 Hi) as [-> Hd2]
    end; simpl; eexists; (split; [reflexivity|]); (split; [reflexivity|]);
    exact Hd2.
Qed.

Lemma handleClick_returns g event :
  drawable n g -> candidates_valid g = true ->
  exists g',
    handleClick g event = Js.Normal g' /\
    Quiet.handleClick g event = Js.Normal g' /\ drawable n g'.
Proof.
  intros Hd Hv. unfold handleClick, Quiet.handleClick.
  destruct (raycast_total _ Hv) as [r Hr]. rewrite Hr. simpl.
  assert (Hi := picked_in_range _ r (proj1 (proj2 (proj2 Hd))) Hr).
  destruct (highlight_returns g None Hd I) as (g1 & -> & E & Hd1).
  simpl in E. injection E as E. simpl. rewrite E.
  destruct (truthy_index r);
    match goal with
    | |- context [setSelectedNode ?h ?i] =>
        destruct (setSelectedNode_returns h i Hd1 Hi) as [-> Hd2]
    end; simpl; eexists; (split; [reflexivity|]); (split; [reflexivity|]);
    exact Hd2.
Qed.

Lemma handleMouseUp_returns g :
  drawable n g ->
  handleMouseUp g = Js.Normal (Quiet.handleMouseUp g) /\
  drawable n (Quiet.handleMouseUp g).
Proof.
  intros Hd. unfold handleMouseUp, Quiet.handleMouseUp. cbv zeta.
  match goal with
  | |- render ?h = _ /\ _ => assert (Hd1 : drawable n h)
  end.
  { simpl. destruct (inAnimation (state g)); exact Hd. }
  split; [now apply drawable_render | exact Hd1].
Qed.

Lemma handleZoom_returns g x y k :
  drawable n g ->
  handleZoom g x y k = Js.Normal (Quiet.handleZoom g x y k) /\
  drawable n (Quiet.handleZoom g x y k).
Proof.
  intros Hd. unfold handleZoom, Quiet.handleZoom. cbv zeta.
  assert (Hd1 : drawable n (updateTransform g x y k)) by exact Hd.
  rewrite (drawable_render _ Hd1). simpl.
  split; [reflexivity|]. destruct (mouseDown (state g)); exact Hd1.
Qed.

(** Every operation returns, unless it is a highlight of an id the graph
    does not have. *)
Lemma perform_returns g op :
  drawable n g -> index_built g ->
  (forall ids, op = Highlight (Some ids) -> ids_known g ids = true) ->
  exists g',
    perform g op = Js.Normal g' /\ Quiet.perform g op = Js.Normal g' /\
    drawable n g'.
Proof.
  intros Hd Hb Hk. destruct op as [ev|ev| | |x y k| |ids]; simpl.
  - apply handleMouseMove_returns; [exact Hd|].
    now apply index_built_valid.
  - apply handleClick_returns; [exact Hd | now apply index_built_valid].
  - eexists. split; [reflexivity|]. split; [reflexivity|]. exact Hd.
  - destruct (handleMouseUp_returns g Hd) as [-> Hd1]. eauto.
  - destruct (handleZoom_returns g x y k Hd) as [-> Hd1]. eauto.
  - eexists. split; [reflexivity|]. split; [reflexivity|]. exact Hd.
  - apply highlight_returns; [exact Hd|].
    destruct ids as [ids|]; [now apply Hk | exact I].
Qed.

Lemma ids_known_same g g' ids :
  app_graph g' = app_graph g -> ids_known g' ids = ids_known g ids.
Proof. unfold ids_known. now intros ->. Qed.

Lemma ops_known_same g g' ops :
  app_graph g' = app_graph g -> ops_known g' ops = ops_known g ops.
Proof.
  intros H. unfold ops_known.
  induction ops as [|op ops IH]; simpl; [reflexivity|]. rewrite IH.
  destruct op as [| | | | | |[ids|]]; auto.
  now rewrite (ids_known_same g g' ids H).
Qed.

Lemma perform_all_returns ops : forall g,
  drawable n g -> index_built g -> ops_known g ops = true ->
  exists g',
    perform_all g ops = Js.Normal g' /\ Quiet.perform_all g ops = Js.Normal g' /\
    drawable n g' /\ index_built g'.
Proof.
  induction ops as [|op ops IH]; intros g Hd Hb Hk; simpl.
  - exists g. auto.
  - simpl in Hk. apply andb_prop in Hk as [Hop Hk].
    destruct (perform_returns g op Hd Hb) as (g1 & E & Eq & Hd1).
    { intros ids ->. exact Hop. }
    rewrite E, Eq. simpl.
    destruct (perform_data _ _ _ Eq) as (_ & _ & _ & A4 & _ & _ & A7 & _).
    apply IH; auto.
    + unfold index_built in *. now rewrite (perform_index g op g1 Eq).
    + now rewrite (ops_known_same g g1 ops A4).
Qed.

End Returns.




(** ** Frames that can still be drawn

    Whether a frame can be drawn depends on the colours of the nodes its
    passes redraw and on the keys of the edge buffers: a state that
    redraws no more nodes, on the same data, has a frame that can be
    drawn too. *)

Lemma opaque_color_at_same g g' i :
  matrices g' = matrices g -> opaque_color_at g' i = opaque_color_at g i.
Proof. intros H. unfold opaque_color_at. now rewrite H. Qed.

Lemma opaque_colors_same g g' l :
  matrices g' = matrices g -> opaque_colors g' l = opaque_colors g l.
Proof.
  intros H. induction l as [|i l IH]; simpl; [reflexivity|].
  now rewrite IH, (opaque_color_at_same g g' _ H).
Qed.

Lemma overlay_returns_same g g' i l :
  matrices g' = matrices g ->
  (exists c, overlay g i l = Js.Normal c) ->
  exists c, overlay g' i l = Js.Normal c.
Proof.
  intros H [c Hc]. unfold overlay in *.
  rewrite (opaque_color_at_same g g' i H), (opaque_colors_same g g' l H).
  destruct (opaque_color_at g i); simpl in *; [|discriminate].
  destruct (opaque_colors g l); simpl in *; [|discriminate].
  eauto.
Qed.

Lemma edge_calls_returns_same g g' bs :
  matrices g' = matrices g ->
  (exists c, edge_calls g bs = Js.Normal c) ->
  exists c, edge_calls g' bs = Js.Normal c.
Proof.
  intros H. induction bs as [|[k v] bs IH]; simpl; [eauto|].
  rewrite H. destruct (map_get _ k); [|intros [c Hc]; discriminate].
  intros [c Hc].
  destruct (edge_calls g bs) as [cs|] eqn:E; simpl in Hc; [|discriminate].
  destruct IH as [cs' ->]; [eauto|]. simpl. eauto.
Qed.

Lemma draws_parts g :
  draws g <->
  (edges_drawn g = true ->
   exists e, edge_calls g (buffers_edges (buffers g)) = Js.Normal e) /\
  (hoveredNode (state g) <> (-1)%Z ->
   exists c, overlay g (hoveredNode (state g)) (hoverNeighbors (state g))
             = Js.Normal c) /\
  (selectedNode (state g) <> (-1)%Z ->
   exists c, overlay g (selectedNode (state g)) (selectedNeighbors (state g))
             = Js.Normal c).
Proof.
  unfold draws, frame, edges_drawn. cbv zeta.
  destruct (_ && _).
  - destruct (edge_calls g _) as [e|msg]; simpl.
    + destruct (Z.eqb_spec (hoveredNode (state g)) (-1)) as [Eh|Eh]; simpl.
      * destruct (Z.eqb_spec (selectedNode (state g)) (-1)) as [Es|Es]; simpl.
        -- split; [|eauto]. intros _. repeat split; eauto; congruence.
        -- destruct (overlay g (selectedNode _) _); simpl.
           ++ split; [|eauto]. intros _. repeat split; eauto; congruence.
           ++ split; [intros [c Hc]; discriminate|].
              intros (_ & _ & H). destruct (H Es) as [c Hc]. discriminate.
      * destruct (overlay g (hoveredNode _) _); simpl.
        -- destruct (Z.eqb_spec (selectedNode (state g)) (-1)) as [Es|Es]; simpl.
           ++ split; [|eauto]. intros _. repeat split; eauto; congruence.
           ++ destruct (overlay g (selectedNode _) _); simpl.
              ** split; [|eauto]. intros _. repeat split; eauto; congruence.
              ** split; [intros [c Hc]; discriminate|].
                 intros (_ & _ & H). destruct (H Es) as [c Hc]. discriminate.
        -- split; [intros [c Hc]; discriminate|].
           intros (_ & H & _). destruct (H Eh) as [c Hc]. discriminate.
    + split; [intros [c Hc]; discriminate|].
      intros (H & _). destruct (H eq_refl) as [c Hc]. discriminate.
  - simpl.
    destruct (Z.eqb_spec (hoveredNode (state g)) (-1)) as [Eh|Eh]; simpl.
    + destruct (Z.eqb_spec (selectedNode (state g)) (-1)) as [Es|Es]; simpl.
      * split; [|eauto]. intros _. repeat split; try discriminate; congruence.
      * destruct (overlay g (selectedNode _) _); simpl.
        -- split; [|eauto]. intros _.
           repeat split; try discriminate; eauto; congruence.
        -- split; [intros [c Hc]; discriminate|].
           intros (_ & _ & H). destruct (H Es) as [c Hc]. discriminate.
    + destruct (overlay g (hoveredNode _) _); simpl.
      * destruct (Z.eqb_spec (selectedNode (state g)) (-1)) as [Es|Es]; simpl.
        -- split; [|eauto]. intros _.
           repeat split; try discriminate; eauto; congruence.
        -- destruct (overlay g (selectedNode _) _); simpl.
           ++ split; [|eauto]. intros _.
              repeat split; try discriminate; eauto; congruence.
           ++ split; [intros [c Hc]; discriminate|].
              intros (_ & _ & H). destruct (H Es) as [c Hc]. discriminate.
      * split; [intros [c Hc]; discriminate|].
        intros (_ & H & _). destruct (H Eh) as [c Hc]. discriminate.
Qed.

(** A part of the state is cleared ([-1] and whatever neighbors) or
    kept. *)
Lemma draws_fewer g g' :
  settings g' = settings g -> matrices g' = matrices g ->
  buffers g' = buffers g ->
  (hoveredNode (state g') = (-1)%Z \/
   hoveredNode (state g') = hoveredNode (state g) /\
   hoverNeighbors (state g') = hoverNeighbors (state g)) ->
  (selectedNode (state g') = (-1)%Z \/
   selectedNode (state g') = selectedNode (state g) /\
   selectedNeighbors (state g') = selectedNeighbors (state g)) ->
  (mouseDown (state g') = true \/
   mouseDown (state g') = mouseDown (state g)) ->
  draws g -> draws g'.
Proof.
  intros Hs Hm Hb Hh Hsel Hd H.
  apply draws_parts in H as (He & Hho & Hse). apply draws_parts.
  split; [|split].
  - intros E. rewrite Hb. apply (edge_calls_returns_same g g' _ Hm), He.
    revert E. unfold edges_drawn. rewrite Hs.
    destruct Hh as [->|[-> _]], Hsel as [->|[-> _]], Hd as [->| ->];
      destruct (showEdges (settings g)), (showEdgesOnMove (settings g)),
        (hoveredNode (state g) =? -1)%Z, (selectedNode (state g) =? -1)%Z,
        (mouseDown (state g)); simpl; intros E;
      try discriminate E; reflexivity.
  - intros Hne. destruct Hh as [Hh|[Hh Hn]]; [contradiction|].
    rewrite Hh, Hn. apply (overlay_returns_same g g' _ _ Hm), Hho.
    now rewrite <- Hh.
  - intros Hne. destruct Hsel as [Hx|[Hx Hn]]; [contradiction|].
    rewrite Hx, Hn. apply (overlay_returns_same g g' _ _ Hm), Hse.
    now rewrite <- Hx.
Qed.

Lemma draws_render g : draws g -> render g = Js.Normal (Quiet.render g).
Proof. apply render_returns. Qed.










(** The steps of a drag return when the frame could be drawn before. *)
Lemma drag_step_returns g op :
  draws g -> drag_step op = true -> mouseDown (state g) = true ->
  exists g',
    perform g op = Js.Normal g' /\ Quiet.perform g op = Js.Normal g' /\
    draws g'.
Proof.
  intros Hd Hop Hm. destruct op as [ev|ev| | |x y k| |ids]; try discriminate;
    simpl.
  - unfold handleMouseMove, Quiet.handleMouseMove. simpl. rewrite Hm. simpl.
    eexists. split; [reflexivity|]. split; [reflexivity|].
    apply (draws_fewer g); simpl; auto.
  - unfold handleZoom, Quiet.handleZoom. cbv zeta.
    assert (Hd1 : draws (updateTransform g x y k))
      by (apply (draws_fewer g); simpl; auto).
    rewrite (draws_render _ Hd1). simpl. rewrite Hm.
    eexists. split; [reflexivity|]. split; [reflexivity|].
    apply (draws_fewer g); simpl; auto.
Qed.


(** ** A pick of index 0 *)




(** ** Neighbor sets *)









(** ** Selection and highlight *)




(** ** Drags *)

(** X8.  While the button is down nothing is picked: from [mousedown] on,
    moves of the pointer and zoom events (a pan) leave the hovered node,
    the selection, the highlight and the tooltip as they were; they raise
    no [nodeover], [nodeout], [nodeselect] or [click], only frames and
    [zoom] events.  All of them return when the frame of the object could
    be drawn as the button went down. *)
Theorem nothing_is_picked_during_a_drag g ops :
  draws g ->
  forallb drag_step ops = true ->
  exists g',
    perform_all (handleMouseDown g) ops = Js.Normal g' /\
    mouseDown (state g') = true /\
    hoveredNode (state g') = hoveredNode (state g) /\
    hoverNeighbors (state g') = hoverNeighbors (state g) /\
    selectedNode (state g') = selectedNode (state g) /\
    selectedNeighbors (state g') = selectedNeighbors (state g) /\
    highlightedNodes (state g') = highlightedNodes (state g) /\
    tooltip_shown g' = tooltip_shown g /\
    exists new,
      trace g' = trace g ++ new /\ frames_and_zooms new = true /\
      silent "nodeover" new = true /\ silent "nodeout" new = true /\
      silent "nodeselect" new = true /\ silent "click" new = true.
Proof.
  intros Hdraws Hops.
  assert (H : forall h,
            draws h -> mouseDown (state h) = true ->
            exists g',
              perform_all h ops = Js.Normal g' /\
              mouseDown (state g') = true /\
              hoveredNode (state g') = hoveredNode (state h) /\
              hoverNeighbors (state g') = hoverNeighbors (state h) /\
              selectedNode (state g') = selectedNode (state h) /\
              selectedNeighbors (state g') = selectedNeighbors (state h) /\
              highlightedNodes (state g') = highlightedNodes (state h) /\
              tooltip_shown g' = tooltip_shown h /\
              exists new, trace g' = trace h ++ new /\
                          frames_and_zooms new = true).
  { induction ops as [|op ops IH]; intros h Hdr Hd; simpl.
    - exists h. repeat split; auto. exists []. now rewrite app_nil_r.
    - simpl in Hops. apply andb_prop in Hops as [Hop Hops].
      destruct (drag_step_returns h op Hdr Hop Hd) as (h0 & E & Eq & Hdr1).
      destruct (drag_step_spec h op Hop Hd)
        as (h1 & E1 & Hd1 & A1 & A2 & A3 & A4 & A5 & A6 & n1 & T1 & Q1).
      rewrite Eq in E1. injection E1 as ->. rewrite E.
      destruct (IH Hops h1 Hdr1 Hd1)
        as (g' & Hg' & Hd' & B1 & B2 & B3 & B4 & B5 & B6 & n2 & T2 & Q2).
      exists g'. simpl. split; [exact Hg'|]. split; [exact Hd'|].
      repeat (split; [congruence|]).
      exists (n1 ++ n2). split; [now rewrite T2, T1, app_assoc|].
      now apply frames_and_zooms_app. }
  destruct (H (handleMouseDown g)) as
    (g' & Hg' & Hd' & B1 & B2 & B3 & B4 & B5 & B6 & new & T & Q).
  { apply (draws_fewer g); simpl; auto. }
  { reflexivity. }
  exists g'. split; [exact Hg'|]. split; [exact Hd'|].
  repeat (split; [assumption|]).
  exists new. split; [exact T|]. split; [exact Q|].
  repeat split; now apply frames_and_zooms_silent.
Qed.

(** The demo data: button down, then the pointer passes over [b] and the
    graph is panned; nothing is hovered. *)
Lemma nothing_is_picked_during_a_drag_witness :
  exists g,
    demo = Js.Normal g /\
    exists g',
      perform_all (handleMouseDown g)
        [MouseMove (mouse_at 456 456); Zoom 10 10 1; MouseMove (mouse_at 256 256)]
      = Js.Normal g' /\
      hoveredNode (state g') = (-1)%Z /\ tooltip_shown g' = None /\
      cursor g' = "move".
Proof.
  eexists. split; [vm_compute; reflexivity|].
  match goal with
  | |- exists g', perform_all (handleMouseDown ?g) ?ops = _ /\ _ =>
      destruct (nothing_is_picked_during_a_drag g ops
                  ltac:(eexists; vm_compute; reflexivity) eq_refl)
        as (g' & Hg' & _ & Hh & _ & _ & _ & _ & Ht & _)
  end.
  exists g'. split; [exact Hg'|]. split; [exact Hh|]. split; [exact Ht|].
  vm_compute in Hg'. injection Hg' as <-. reflexivity.
Defined.

Lemma map_get_distinct m : forall k v,
  keys_distinct m -> In (k, v) m -> map_get m k = Some v.
Proof.
  unfold keys_distinct, map_get.
  induction m as [|[k0 v0] m IH]; intros k v Hd Hin; [contradiction|].
  inversion Hd as [|? ? Hh Hd']; subst. simpl.
  destruct Hin as [E|Hin].
  - injection E as <- <-. now rewrite KeyFacts.same_map_key_refl.
  - rewrite Forall_forall in Hh. specialize (Hh _ Hin). simpl in Hh.
    rewrite Hh. now apply IH.
Qed.

(** The buckets of a loaded input with edges. *)
Lemma buckets_hold_loaded s width height nodes edges sc l :
  showEdges s = true ->
  load_scales s width height nodes (Some edges) = Js.Normal sc ->
  loadData s width height nodes (Some edges) = Js.Normal l ->
  keys_distinct (edgesPositionsByWeight (loaded_matrices l)) /\
  Forall (fun b => Nat.even (List.length (snd b)) = true)
         (edgesPositionsByWeight (loaded_matrices l)) /\
  bucket_total (edgesPositionsByWeight (loaded_matrices l))
  = (2 * List.length edges)%nat.
Proof.
  intros Hs Hsc H.
  destruct (loadData_steps _ _ _ _ _ _ Hs H)
    as (sc' & acc & Hsc' & Hacc & He & _ & Hm0 & Hn & _).
  rewrite Hsc in Hsc'. injection Hsc' as <-.
  destruct (load_edges_buckets s sc (loaded_graph l) edges 0 acc l [])
    as ((Hd & _ & _) & _); [now symmetry | exact He | |].
  { rewrite Hm0. split; [constructor|]. split; [intros ? ? []|intros ? []]. }
  destruct (load_edges_counts s sc edges 0 acc l He) as (Ht & Hev & _).
  rewrite Hm0 in Ht, Hev.
  split; [exact Hd|]. split; [apply Hev; constructor | exact Ht].
Qed.

Lemma edge_calls_segments g bs : forall calls,
  keys_distinct (edgesPositionsByWeight (matrices g)) ->
  incl bs (edgesPositionsByWeight (matrices g)) ->
  edge_calls g bs = Js.Normal calls ->
  map (fun p => (ep_width p, ep_points p)) (edge_props calls)
  = map (fun b => (D3.number (fst b), snd b)) bs /\
  edge_props calls
  = flat_map (fun c => match c with DrawEdges p => [p] | _ => [] end) calls /\
  Forall (fun p =>
            ep_segments p = Js.of_nat (List.length (ep_points p)) / 2 /\
            ep_hovered p = hoveredNode (state g) /\
            ep_selected p = selectedNode (state g))
         (edge_props calls).
Proof.
  induction bs as [|[k v] bs IH]; intros calls Hd Hi H; simpl in H.
  - injection H as <-. simpl. repeat split. constructor.
  - rewrite (map_get_distinct _ k v Hd) in H by (apply Hi; now left).
    destruct (edge_calls g bs) as [cs|] eqn:E; simpl in H; [|discriminate].
    injection H as <-.
    destruct (IH cs Hd) as (Hm & _ & Hf); [|reflexivity|].
    { intros b Hb. apply Hi. now right. }
    simpl. rewrite Hm. repeat split. constructor; [|exact Hf].
    simpl. auto.
Qed.

Lemma overlay_is_points g i l c :
  overlay g i l = Js.Normal c -> edge_props [c] = [].
Proof.
  unfold overlay.
  destruct (opaque_color_at g i); simpl; [|discriminate].
  destruct (opaque_colors g l); simpl; [|discriminate].
  intros H. now injection H as <-.
Qed.

Lemma edge_props_app l1 l2 :
  edge_props (l1 ++ l2) = edge_props l1 ++ edge_props l2.
Proof. unfold edge_props. apply flat_map_app. Qed.

(** The edge calls of a frame are those made for the buffers. *)
Lemma frame_edges g calls :
  frame g = Js.Normal calls ->
  exists edges,
    (if (showEdges (settings g)
         || negb (hoveredNode (state g) =? -1)%Z
         || negb (selectedNode (state g) =? -1)%Z)
        && (if showEdgesOnMove (settings g) then true
            else negb (mouseDown (state g)))
     then edge_calls g (buffers_edges (buffers g))
     else Js.Normal []) = Js.Normal edges /\
    edge_props calls = edge_props edges.
Proof.
  unfold frame. cbv zeta.
  destruct (if _ && _ then _ else _) as [edges|]; simpl; [|discriminate].
  intros H. exists edges. split; [reflexivity|].
  assert (Hh : forall i l x,
            (if negb (i =? -1)%Z
             then c <- overlay g i l ;; Js.Normal [c]
             else Js.Normal []) = Js.Normal x -> edge_props x = []).
  { intros i l x. destruct (negb (i =? -1)%Z);
      [|intros E; injection E as <-; reflexivity].
    destruct (overlay g i l) as [c|] eqn:E; simpl; [|discriminate].
    intros X. injection X as <-. eapply overlay_is_points, E. }
  destruct (if negb (hoveredNode _ =? -1)%Z then _ else _) as [h|] eqn:Eh;
    simpl in H; [|discriminate].
  apply Hh in Eh.
  destruct (if negb (selectedNode _ =? -1)%Z then _ else _) as [sl|] eqn:Es;
    simpl in H; [|discriminate].
  assert (Hs : edge_props sl = []).
  { destruct (negb (selectedNode _ =? -1)%Z);
      [|injection Es as <-; reflexivity].
    destruct (overlay g _ _) as [c|] eqn:E; simpl in Es; [|discriminate].
    injection Es as <-. apply overlay_is_points in E.
    destruct (drawSelectedCircle _); simpl in *; now rewrite ?E. }
  injection H as <-.
  change (edge_props (Clear :: ?l)) with (edge_props l).
  rewrite edge_props_app.
  change (edge_props (DrawPoints ?p :: ?l)) with (edge_props l).
  rewrite !edge_props_app, Eh, Hs. simpl.
  destruct (negb (Nat.eqb _ 0)); simpl; now rewrite app_nil_r.
Qed.

(** X11.  On an object constructed with edges, and whatever the mouse,
    zoom, [reset] and [highlight] did to it, a frame draws either no edge
    (during a drag, unless [showEdgesOnMove] is set) or every edge once:
    one [drawEdges] call per key of [edgesPositionsByWeight], in the order
    of the keys, with the bucket of that key, the width [Number(key)]
    ([NaN] for the key [NaN] and for the key [undefined], which are two
    keys and two calls), as many segments as half the positions of the
    bucket, and two positions per edge over all calls. *)
Theorem a_frame_draws_every_edge_once dpr c d options g nodes edges ops g' calls :
  constructor dpr (Some c) (Some d) options = Js.Normal g ->
  data_nodes d = Some nodes -> data_edges d = Some edges ->
  opt_showEdges options <> Some false ->
  perform_all g ops = Js.Normal g' ->
  frame g' = Js.Normal calls ->
  if showEdgesOnMove (settings g') || negb (mouseDown (state g'))
  then
    map (fun p => (ep_width p, ep_points p)) (edge_props calls)
    = map (fun b => (D3.number (fst b), snd b))
          (edgesPositionsByWeight (matrices g')) /\
    list_sum (map (fun p => List.length (ep_points p)) (edge_props calls))
    = (2 * List.length edges)%nat /\
    Forall (fun p =>
              ep_segments p = Js.of_nat (List.length (ep_points p)) / 2 /\
              Nat.even (List.length (ep_points p)) = true /\
              ep_hovered p = hoveredNode (state g') /\
              ep_selected p = selectedNode (state g'))
           (edge_props calls)
  else edge_props calls = [].
Proof.
  intros Hc Hn He Ho Hp Hf.
  apply constructor_quiet in Hc. apply perform_all_quiet in Hp.
  destruct (constructed_data _ _ _ _ _ _ _ _ Hc Hn Hp)
    as (sc & l & Hsc & Hl & Hs & _ & _ & Hm & _ & _ & _ & _ & Hb & _).
  cbv zeta in Hsc, Hl. rewrite He in Hsc, Hl.
  set (s := merge_settings default_settings options) in *.
  assert (Hse : showEdges s = true).
  { unfold s. rewrite showEdges_merge.
    destruct (opt_showEdges options) as [[|]|]; congruence. }
  clearbody s.
  destruct (buckets_hold_loaded s _ _ nodes edges sc l Hse Hsc Hl)
    as (Hd & Hev & Ht).
  destruct (frame_edges _ _ Hf) as (ecalls & Hec & ->).
  rewrite Hs, Hse, Hb in Hec. rewrite Hs.
  cbn [orb andb buffers_edges] in Hec. rewrite Hse in Hec.
  assert (Hdrawn :
            edge_calls g' (edgesPositionsByWeight (matrices g'))
            = Js.Normal ecalls ->
            map (fun p => (ep_width p, ep_points p)) (edge_props ecalls)
            = map (fun b => (D3.number (fst b), snd b))
                  (edgesPositionsByWeight (matrices g')) /\
            list_sum (map (fun p => List.length (ep_points p)) (edge_props ecalls))
            = (2 * List.length edges)%nat /\
            Forall (fun p =>
                      ep_segments p = Js.of_nat (List.length (ep_points p)) / 2 /\
                      Nat.even (List.length (ep_points p)) = true /\
                      ep_hovered p = hoveredNode (state g') /\
                      ep_selected p = selectedNode (state g'))
                   (edge_props ecalls)).
  { intros E.
    destruct (edge_calls_segments g' (edgesPositionsByWeight (matrices g'))
                ecalls) as (Hmap & _ & Hseg);
      [now rewrite Hm | apply incl_refl | exact E |].
    split; [exact Hmap|].
    rewrite <- Hm in Hev, Ht.
    assert (Hpts : map ep_points (edge_props ecalls)
                   = map snd (edgesPositionsByWeight (matrices g'))).
    { apply (f_equal (map snd)) in Hmap. rewrite !map_map in Hmap.
      exact Hmap. }
    split.
    { rewrite <- (map_map ep_points (@List.length _)), Hpts, map_map.
      exact Ht. }
    rewrite Forall_forall in *. intros p Hin.
    destruct (Hseg p Hin) as (A & B & C). repeat split; auto.
    assert (Hp' : In (ep_points p)
                     (map snd (edgesPositionsByWeight (matrices g')))).
    { rewrite <- Hpts. now apply in_map. }
    apply in_map_iff in Hp' as (b & Hb1 & Hb2). rewrite <- Hb1.
    now apply Hev. }
  destruct (showEdgesOnMove s); cbn [orb].
  - apply Hdrawn. now rewrite Hm.
  - destruct (mouseDown (state g')); cbn [negb].
    + injection Hec as <-. reflexivity.
    + apply Hdrawn. now rewrite Hm.
Qed.

(** The demo data, with a node hovered: two calls, of widths 1 and 5,
    for the two edges; none once the button is down.  And the demo nodes
    with the edges of sizes [0], [0] and [NaN]: two calls, for the key
    [NaN] and for the key [undefined], both of width [NaN]. *)
Lemma a_frame_draws_every_edge_once_witness :
  exists g,
    demo = Js.Normal g /\
    exists g1 calls1,
      perform_all g [MouseMove (mouse_at 456 456)] = Js.Normal g1 /\
      frame g1 = Js.Normal calls1 /\
      map ep_width (edge_props calls1) = [1; 5] /\
      map ep_hovered (edge_props calls1) = [1%Z; 1%Z] /\
      list_sum (map (fun p => List.length (ep_points p)) (edge_props calls1))
      = 4%nat /\
      (exists g2 calls2,
         perform_all g1 [MouseDown] = Js.Normal g2 /\
         frame g2 = Js.Normal calls2 /\ edge_props calls2 = []) /\
      exists g3 calls3,
        constructor 1 (Some demo_container)
          (Some {| data_nodes := data_nodes demo_data;
                   data_edges := Some mixed_size_edges |})
          (with_graphMargin 56) = Js.Normal g3 /\
        map fst (edgesPositionsByWeight (matrices g3)) = [Some nan; None] /\
        frame g3 = Js.Normal calls3 /\
        map (fun p => (ep_width p, List.length (ep_points p)))
            (edge_props calls3) = [(nan, 4%nat); (nan, 2%nat)].
Proof.
  eexists. split; [vm_compute; reflexivity|].
  match goal with
  | |- exists g1 calls1, perform_all ?g _ = _ /\ _ => pose (g0 := g)
  end.
  do 2 eexists. split; [vm_compute; reflexivity|].
  split; [vm_compute; reflexivity|].
  split; [vm_compute; reflexivity|]. split; [vm_compute; reflexivity|].
  split.
  - match goal with
    | |- list_sum (map _ (edge_props ?calls1)) = _ =>
        pose proof (a_frame_draws_every_edge_once 1 demo_container demo_data
                      (with_graphMargin 56) g0
                      (or_default (data_nodes demo_data) [])
                      (or_default (data_edges demo_data) [])
                      [MouseMove (mouse_at 456 456)] _ calls1
                      ltac:(vm_compute; reflexivity) eq_refl eq_refl
                      ltac:(discriminate) ltac:(vm_compute; reflexivity)
                      ltac:(vm_compute; reflexivity)) as H1
    end.
    destruct H1 as (_ & Hsum & _). exact Hsum.
  - split.
    + do 2 eexists. split; [vm_compute; reflexivity|].
      split; vm_compute; reflexivity.
    + do 2 eexists. split; [vm_compute; reflexivity|].
      split; [vm_compute; reflexivity|].
      split; vm_compute; reflexivity.
Defined.

(** X12.  Edges left out when the object was constructed ([showEdges:
    false]) are never drawn afterwards: whatever is done to the object,
    hovering or selecting a node and turning [showEdges] on with
    [setOption] included, no frame has a [drawEdges] call. *)
Theorem edges_left_out_are_never_drawn dpr c d options g l g' :
  opt_showEdges options = Some false ->
  constructor dpr (Some c) (Some d) options = Js.Normal g ->
  act_all g l = Js.Normal g' ->
  buffers_edges (buffers g') = [] /\
  forall st s calls,
    frame (with_settings (with_state g' st) s) = Js.Normal calls ->
    edge_props calls = [].
Proof.
  intros Ho Hc Ha.
  apply constructor_quiet in Hc. apply act_all_quiet in Ha.
  destruct (constructor_loaded _ _ _ _ _ Hc)
    as (c0 & d0 & nodes0 & sc0 & l0 & _ & _ & _ & _ & _ & _ & _ & _ & _ & _ & _
        & _ & Hb & _).
  cbv zeta in Hb. rewrite showEdges_merge, Ho in Hb.
  destruct (act_all_loaded _ _ _ Ha) as (_ & _ & _ & _ & _ & _ & A8 & _).
  assert (He : buffers_edges (buffers g') = []) by now rewrite A8, Hb.
  split; [exact He|]. intros st s calls Hf.
  destruct (frame_edges _ _ Hf) as (ecalls & Hec & ->).
  simpl in Hec. rewrite He in Hec. simpl in Hec.
  destruct (_ && _); now injection Hec as <-.
Qed.

(** The demo nodes constructed without edges: [showEdges] is turned on,
    node [b] is hovered and selected, and the frame has no edge call. *)
Lemma edges_left_out_are_never_drawn_witness :
  exists g,
    constructor 1 (Some demo_container) (Some demo_data)
      (Build_Options (Some 56) (Some false) None None None None None None None
                     None None None None None None)
    = Js.Normal g /\
    exists g',
      act_all g [Configure (Some (ShowEdges true));
                 Handle (MouseMove (mouse_at 456 456));
                 Handle (Click (mouse_at 456 456))] = Js.Normal g' /\
      showEdges (settings g') = true /\ hoveredNode (state g') = 1%Z /\
      selectedNode (state g') = 1%Z /\
      exists calls, frame g' = Js.Normal calls /\ edge_props calls = [].
Proof.
  eexists. split; [vm_compute; reflexivity|].
  match goal with
  | |- exists g', act_all ?g _ = _ /\ _ => pose (g0 := g)
  end.
  eexists. split; [vm_compute; reflexivity|].
  match goal with
  | |- showEdges (settings ?g') = true /\ _ => pose (g1 := g')
  end.
  split; [reflexivity|]. split; [reflexivity|]. split; [reflexivity|].
  eexists. split; [vm_compute; reflexivity|].
  match goal with
  | |- edge_props ?calls = [] =>
      destruct (edges_left_out_are_never_drawn 1 demo_container demo_data
                  (Build_Options (Some 56) (Some false) None None None None
                                 None None None None None None None None None)
                  g0
                  [Configure (Some (ShowEdges true));
                   Handle (MouseMove (mouse_at 456 456));
                   Handle (Click (mouse_at 456 456))] g1 eq_refl
                  ltac:(vm_compute; reflexivity)
                  ltac:(vm_compute; reflexivity))
        as [_ H];
      apply (H (state g1) (settings g1) calls)
  end.
  vm_compute. reflexivity.
Defined.

(** What a frame depends on. *)
Lemma frame_ext g g' :
  showEdges (settings g') = showEdges (settings g) ->
  showEdgesOnMove (settings g') = showEdgesOnMove (settings g) ->
  defaultEdgesColor (settings g') = defaultEdgesColor (settings g) ->
  defaultEdgesOpacity (settings g') = defaultEdgesOpacity (settings g) ->
  drawSelectedCircle (settings g') = drawSelectedCircle (settings g) ->
  selectedCirclePoints (settings g') = selectedCirclePoints (settings g) ->
  selectedCircleColor (settings g') = selectedCircleColor (settings g) ->
  state g' = state g -> matrices g' = matrices g -> buffers g' = buffers g ->
  app_width g' = app_width g -> app_height g' = app_height g ->
  frame g' = frame g.
Proof.
  intros H1 H2 H3 H4 H5 H6 H7 Hs Hm Hb Hw Hh.
  assert (Hc : forall i, opaque_color_at g' i = opaque_color_at g i).
  { intros i. unfold opaque_color_at. now rewrite Hm. }
  assert (Hcs : forall l, opaque_colors g' l = opaque_colors g l).
  { induction l as [|i l IH]; simpl; [reflexivity|]. now rewrite Hc, IH. }
  assert (Ho : forall i l, overlay g' i l = overlay g i l).
  { intros i l. unfold overlay, size_at. now rewrite Hc, Hcs, Hm, Hs, Hw, Hh. }
  assert (He : forall bs, edge_calls g' bs = edge_calls g bs).
  { induction bs as [|[k v] bs IH]; simpl; [reflexivity|].
    now rewrite IH, Hm, H3, H4, Hs, Hw, Hh. }
  unfold frame, color_at, size_at.
  now rewrite H1, H2, H5, H6, H7, Hs, Hm, Hb, Hw, Hh, He, !Ho.
Qed.

(** What a pick depends on. *)
Lemma raycast_ext g g' :
  searchIndex g' = searchIndex g -> state g' = state g ->
  app_width g' = app_width g -> app_height g' = app_height g ->
  devicePixelRatio g' = devicePixelRatio g ->
  raycast g' = raycast g.
Proof.
  intros Hx Hs Hw Hh Hd.
  assert (Hp : getScatterGlPos g' None = getScatterGlPos g None).
  { unfold getScatterGlPos, getMouseGlPos, getNdcX, getNdcY.
    now rewrite Hs, Hw, Hh. }
  assert (Hr : scaledPointSize g' = scaledPointSize g).
  { unfold scaledPointSize. now rewrite Hd. }
  assert (Hb : pointsInBBox g' = pointsInBBox g).
  { unfold pointsInBBox. now rewrite Hp, Hr, Hx, Hw, Hh. }
  assert (Hpd : forall i, point_distance g' i = point_distance g i).
  { intros i. unfold point_distance. now rewrite Hp, Hx. }
  assert (Hc : forall l acc, closest g' l acc = closest g l acc).
  { induction l as [|i l IH]; intros acc; simpl; [reflexivity|].
    rewrite Hpd. destruct (point_distance g i); simpl; [apply IH | reflexivity]. }
  unfold raycast. now rewrite Hb, Hr, Hc.
Qed.

(** X13.  The settings that only [loadData] and the construction read
    ([graphMargin], [nodesSizeRange], [defaultNodesOpacity],
    [edgesWeightRange], [containerMargin], [zoomExtent], [log]) have no
    effect once the object exists: [setOption] stores the value and draws
    a frame, the frame it would have drawn before; so the call returns
    exactly when that frame can be drawn, and then the loaded data, the
    state, the pick of the mouse and the calls of the frame are what they
    were. *)
Theorem settings_read_at_load_change_nothing_later g u :
  read_at_load_only u = true ->
  (forall calls,
     frame g = Js.Normal calls ->
     exists g', setOption g (Some u) = Js.Normal g') /\
  (forall msg,
     frame g = Js.Throw msg -> setOption g (Some u) = Js.Throw msg) /\
  forall g',
    setOption g (Some u) = Js.Normal g' ->
    frame g' = frame g /\ raycast g' = raycast g /\
    same_loaded g g' /\ state g' = state g /\
    trace g' = trace g ++ [Render (state g)] /\
    settings g' = merge_settings (settings g) (as_options u).
Proof.
  intros Hu.
  assert (Hf : frame (with_settings g (merge_settings (settings g)
                                         (as_options u)))
               = frame g).
  { apply frame_ext; destruct u; try discriminate Hu; reflexivity. }
  split; [|split].
  - intros calls H. unfold setOption, render. rewrite Hf, H. simpl. eauto.
  - intros msg H. unfold setOption, render. rewrite Hf, H. reflexivity.
  - intros g' H. apply setOption_quiet in H. subst g'.
    split; [apply frame_ext; destruct u; try discriminate Hu; reflexivity|].
    split; [apply raycast_ext; reflexivity|].
    split; [unfold same_loaded; repeat split|]. repeat split.
Qed.

(** The demo data: a new [graphMargin] leaves the positions where they
    are. *)
Lemma settings_read_at_load_change_nothing_later_witness :
  exists g g',
    demo = Js.Normal g /\
    setOption g (Some (GraphMargin 100)) = Js.Normal g' /\
    graphMargin (settings g') = 100 /\
    frame g' = frame g /\
    nodesPositions (matrices g')
    = [(56, 56, 0%nat); (456, 456, 1%nat); (256, 256, 2%nat);
       (256, 256, 3%nat)].
Proof.
  do 2 eexists. split; [vm_compute; reflexivity|].
  split; [vm_compute; reflexivity|].
  match goal with
  | |- graphMargin (settings ?g') = _ /\ frame _ = frame ?g /\ _ =>
      destruct (settings_read_at_load_change_nothing_later g (GraphMargin 100)
                  eq_refl) as (_ & _ & H);
      destruct (H g' ltac:(vm_compute; reflexivity)) as (Hf & _)
  end.
  split; [reflexivity|]. split; [exact Hf|].
  vm_compute. reflexivity.
Defined.

(** ** Colours *)

Module RegExpFacts.

Import RegExp.

Lemma get_set_other j v : forall caps i,
  i <> j -> get (set j v caps) i = get caps i.
Proof.
  unfold get. induction j as [|j IH]; intros [|c caps] [|i] H; simpl;
    try reflexivity; try congruence.
  apply IH. congruence.
Qed.

(** A match leaves alone the groups its pattern does not mention. *)
Lemma rep_untouched i ma
  (Hma : forall s caps k res,
      ma s caps k = Some res ->
      exists s' caps', k s' caps' = Some res /\ get caps' i = get caps i) :
  forall hi lo s caps k res,
    rep ma lo hi s caps k = Some res ->
    exists s' caps', k s' caps' = Some res /\ get caps' i = get caps i.
Proof.
  induction hi as [|hi IH]; intros lo s caps k res H; simpl in H.
  - destruct (lo =? 0)%nat; [eauto | discriminate].
  - destruct (ma s caps _) as [r0|] eqn:E.
    + injection H as ->. apply Hma in E as (s1 & c1 & E1 & G1).
      apply IH in E1 as (s2 & c2 & E2 & G2).
      exists s2, c2. split; [exact E2 | congruence].
    + destruct (lo =? 0)%nat; [eauto | discriminate].
Qed.

Lemma m_untouched i r : forall s caps k res,
  mentions i r = false ->
  m r s caps k = Some res ->
  exists s' caps', k s' caps' = Some res /\ get caps' i = get caps i.
Proof.
  induction r as [|c|p|a IHa b IHb|a IHa b IHb|a IHa|a IHa lo hi|j a IHa];
    intros s caps k res Hm H; simpl in Hm, H.
  - eauto.
  - destruct s as [|c' s']; [discriminate|].
    destruct (Ascii.eqb c c'); [eauto | discriminate].
  - destruct s as [|c' s']; [discriminate|].
    destruct (p c'); [eauto | discriminate].
  - apply orb_false_iff in Hm as [Ha Hb].
    apply IHa in H as (s1 & c1 & E1 & G1); [|exact Ha].
    apply IHb in E1 as (s2 & c2 & E2 & G2); [|exact Hb].
    exists s2, c2. split; [exact E2 | congruence].
  - apply orb_false_iff in Hm as [Ha Hb].
    destruct (m a s caps k) as [r0|] eqn:E.
    + injection H as ->. now apply IHa in E.
    + now apply IHb in H.
  - destruct (m a s caps k) as [r0|] eqn:E.
    + injection H as ->. now apply IHa in E.
    + eauto.
  - eapply rep_untouched; [|exact H].
    intros s0 caps0 k0 res0 E. now apply IHa in E.
  - apply orb_false_iff in Hm as [Hj Ha].
    apply Nat.eqb_neq in Hj.
    apply IHa in H as (s1 & c1 & E1 & G1); [|exact Ha].
    exists s1, (set j (consumed s s1) c1). split; [exact E1|].
    rewrite get_set_other by exact Hj. exact G1.
Qed.

(** A group that a pattern does not mention is [undefined] in the result
    of [exec]. *)
Lemma exec_untouched groups r s caps i :
  mentions i r = false -> i <> 0%nat ->
  exec groups r s = Some caps -> get caps i = None.
Proof.
  intros Hm Hi H. unfold exec in H.
  apply m_untouched with (i := i) in H as (s' & caps' & E & G); [|exact Hm].
  destruct s'; [|discriminate]. injection E as <-.
  change (get (set 0 s caps') i = None).
  rewrite get_set_other by exact Hi. rewrite G.
  unfold get. clear. revert i.
  generalize (S groups) as n.
  induction n as [|n IH]; intros [|i]; simpl; auto.
Qed.

End RegExpFacts.

Lemma rgb_pattern_on_rgba rest :
  RegExp.exec 7 rgb_pattern ("rgba(" ++ rest)
  = RegExp.exec 7 rgba_alternative ("rgba(" ++ rest).
Proof. reflexivity. Qed.

(** X14.  A colour written [rgba(r, g, b, a)] loses its channels: the
    pattern of [glslColor] captures them in groups 4 to 6, the code reads
    groups 1 to 3, so each channel is [parseInt(undefined)], which the
    scale turns into [undefined] ([NaN] here); and the alpha of the string
    is dropped for the [opacity] argument.  Whatever follows [rgba(], the
    answer is [null] or that vector. *)
Theorem rgba_colours_lose_their_channels rest opacity :
  glslColor ("rgba(" ++ rest) opacity = None \/
  glslColor ("rgba(" ++ rest) opacity = Some (nan, nan, nan, opacity).
Proof.
  unfold glslColor, RegExp.test.
  destruct (RegExp.exec 7 rgb_pattern ("rgba(" ++ rest)) as [caps|] eqn:E.
  - right. rewrite rgb_pattern_on_rgba in E.
    rewrite (RegExpFacts.exec_untouched 7 rgba_alternative _ caps 1 eq_refl
               ltac:(discriminate) E).
    rewrite (RegExpFacts.exec_untouched 7 rgba_alternative _ caps 2 eq_refl
               ltac:(discriminate) E).
    rewrite (RegExpFacts.exec_untouched 7 rgba_alternative _ caps 3 eq_refl
               ltac:(discriminate) E).
    reflexivity.
  - left. reflexivity.
Qed.

(** [rgba(255,0,0,0.5)] is taken, and its channels are [NaN]. *)
Lemma rgba_colours_lose_their_channels_witness :
  glslColor "rgba(255,0,0,0.5)" 1 = Some (nan, nan, nan, 1).
Proof.
  destruct (rgba_colours_lose_their_channels "255,0,0,0.5)" 1) as [H|H].
  - vm_compute in H. discriminate H.
  - exact H.
Defined.

Module ColourFacts.

Lemma hexdigit_cases a : RegExp.hexdigit a = true -> In a hex_digits.
Proof.
  destruct a as [[] [] [] [] [] [] [] []]; intros H;
    try discriminate H; vm_compute; tauto.
Qed.

Lemma parseInt_hex a b :
  RegExp.hexdigit a = true -> RegExp.hexdigit b = true ->
  ParseInt.parseInt (Some (String a (String b ""))) (Some 16%nat)
  = Js.of_Z (16 * hex_value a + hex_value b).
Proof.
  intros Ha Hb. apply hexdigit_cases in Ha, Hb.
  unfold hex_digits in Ha, Hb. simpl in Ha, Hb.
  repeat (destruct Ha as [<-|Ha]; [|]); try contradiction;
    repeat (destruct Hb as [<-|Hb]; [|]); try contradiction;
    vm_compute; reflexivity.
Qed.

Lemma channel_range a b :
  RegExp.hexdigit a = true -> RegExp.hexdigit b = true ->
  (0 <=? channel a b) = true /\ (channel a b <=? 1) = true.
Proof.
  intros Ha Hb. apply hexdigit_cases in Ha, Hb.
  unfold hex_digits in Ha, Hb. simpl in Ha, Hb.
  repeat (destruct Ha as [<-|Ha]; [|]); try contradiction;
    repeat (destruct Hb as [<-|Hb]; [|]); try contradiction;
    vm_compute; auto.
Qed.

End ColourFacts.

Lemma rgb_pattern_on_hash s : RegExp.test 7 rgb_pattern (String "#" s) = false.
Proof. reflexivity. Qed.

Section HexDigits.

Variables a b c d e f : ascii.
Hypothesis Ha : RegExp.hexdigit a = true.
Hypothesis Hb : RegExp.hexdigit b = true.
Hypothesis Hc : RegExp.hexdigit c = true.
Hypothesis Hd : RegExp.hexdigit d = true.
Hypothesis He : RegExp.hexdigit e = true.
Hypothesis Hf : RegExp.hexdigit f = true.

Ltac hex_step :=
  with_strategy opaque [RegExp.hexdigit Ascii.eqb] cbn;
  rewrite ?Ha, ?Hb, ?Hc, ?Hd, ?He, ?Hf, ?Ascii.eqb_refl;
  try change (RegExp.hexdigit "#"%char) with false;
  try match goal with
      | |- context [if Ascii.eqb ?x ?y then None else None] =>
          destruct (Ascii.eqb x y)
      end.

Lemma hex_pattern_six :
  RegExp.test 1 hex_pattern
    (String "#" (String a (String b (String c (String d (String e (String f "")))))))
  = true.
Proof.
  unfold RegExp.test, RegExp.exec, hex_pattern.
  repeat hex_step; reflexivity.
Qed.

Lemma hex_pattern_three :
  RegExp.test 1 hex_pattern (String "#" (String a (String c (String e "")))) = true.
Proof.
  unfold RegExp.test, RegExp.exec, hex_pattern.
  repeat hex_step; reflexivity.
Qed.

Lemma hexToRgb_six :
  hexToRgb (String "#" (String a (String b (String c (String d (String e (String f "")))))))
  = Some (ParseInt.parseInt (Some (String a (String b ""))) (Some 16%nat),
          ParseInt.parseInt (Some (String c (String d ""))) (Some 16%nat),
          ParseInt.parseInt (Some (String e (String f ""))) (Some 16%nat)).
Proof.
  unfold hexToRgb, RegExp.exec, shorthand_pattern, full_pattern.
  repeat hex_step; reflexivity.
Qed.

Lemma hexToRgb_three :
  hexToRgb (String "#" (String a (String c (String e ""))))
  = Some (ParseInt.parseInt (Some (String a (String a ""))) (Some 16%nat),
          ParseInt.parseInt (Some (String c (String c ""))) (Some 16%nat),
          ParseInt.parseInt (Some (String e (String e ""))) (Some 16%nat)).
Proof.
  unfold hexToRgb, RegExp.exec, shorthand_pattern, full_pattern.
  repeat hex_step; reflexivity.
Qed.

End HexDigits.

(** X15.  A colour of six hexadecimal digits gives the three channels its
    pairs of digits stand for, each between 0 and 1, with the opacity
    asked for; a colour of three digits is the colour with each digit
    doubled. *)
Theorem hex_colours_give_their_channels a b c d e f opacity :
  forallb RegExp.hexdigit [a; b; c; d; e; f] = true ->
  glslColor (String "#" (String a (String b (String c (String d (String e (String f "")))))))
    opacity
  = Some (channel a b, channel c d, channel e f, opacity) /\
  glslColor (String "#" (String a (String c (String e ""))))  opacity
  = glslColor (String "#" (String a (String a (String c (String c (String e (String e "")))))))
      opacity /\
  Forall (fun v => (0 <=? v) = true /\ (v <=? 1) = true)
    [channel a b; channel c d; channel e f].
Proof.
  intros H. simpl in H.
  repeat (apply andb_prop in H; destruct H as [? H]).
  assert (Hsix : forall a b c d e f,
             RegExp.hexdigit a = true -> RegExp.hexdigit b = true ->
             RegExp.hexdigit c = true -> RegExp.hexdigit d = true ->
             RegExp.hexdigit e = true -> RegExp.hexdigit f = true ->
             glslColor (String "#" (String a (String b (String c (String d
                          (String e (String f ""))))))) opacity
             = Some (channel a b, channel c d, channel e f, opacity)).
  { clear. intros a b c d e f Ha Hb Hc Hd He Hf.
    unfold glslColor. rewrite rgb_pattern_on_hash, hex_pattern_six by assumption.
    rewrite hexToRgb_six by assumption.
    rewrite !ColourFacts.parseInt_hex by assumption. reflexivity. }
  split; [|split].
  - apply Hsix; assumption.
  - rewrite Hsix by assumption.
    unfold glslColor. rewrite rgb_pattern_on_hash.
    rewrite (hex_pattern_three a c e) by assumption.
    rewrite hexToRgb_three by assumption.
    rewrite !ColourFacts.parseInt_hex by assumption. reflexivity.
  - repeat (apply Forall_cons; [apply ColourFacts.channel_range; assumption|]).
    apply Forall_nil.
Qed.

Lemma hex_colours_give_their_channels_witness :
  glslColor "#ff8000" 1 = Some (channel "f" "f", channel "8" "0", channel "0" "0", 1) /\
  glslColor "#f80" 1 = glslColor "#ff8800" 1 /\
  Forall (fun v => (0 <=? v) = true /\ (v <=? 1) = true)
    [channel "f" "f"; channel "8" "0"; channel "0" "0"].
Proof.
  exact (hex_colours_give_their_channels "f" "f" "8" "0" "0" "0" 1 eq_refl).
Defined.

Module PatternFacts.

Lemma m_lit p : forall s caps k res,
  RegExp.m (RegExp.lit p) s caps k = Some res -> prefix p s = true.
Proof.
  induction p as [|c p IH]; intros s caps k res H.
  - destruct s; reflexivity.
  - simpl in H. destruct s as [|c' s]; [discriminate|].
    simpl. destruct (Ascii.eqb_spec c c') as [->|Hne]; [|discriminate].
    destruct (ascii_dec c' c') as [_|Hn]; [|now elim Hn].
    eapply IH; eassumption.
Qed.

Lemma rep_class_exact p n : forall s caps k res,
  RegExp.rep (RegExp.m (RegExp.Class p)) n n s caps k = Some res ->
  exists s', k s' caps = Some res /\
             String.length s = (n + String.length s')%nat /\
             forallb p (firstn n (list_ascii_of_string s)) = true.
Proof.
  induction n as [|n IH]; intros s caps k res H.
  - exists s. simpl in H. auto.
  - cbn [RegExp.rep RegExp.m Nat.pred Nat.eqb] in H.
    destruct s as [|c s]; [discriminate|].
    destruct (p c) eqn:Hp; [|discriminate].
    destruct (RegExp.rep _ n n s caps k) as [r|] eqn:E; [|discriminate].
    injection H as <-. apply IH in E as (s' & Hk & Hl & Hall).
    exists s'. simpl. rewrite Hp, Hl, Hall. auto.
Qed.

Lemma length_list_ascii s :
  List.length (list_ascii_of_string s) = String.length s.
Proof. induction s; simpl; congruence. Qed.

Lemma hex_pattern_accepts color :
  RegExp.test 1 hex_pattern color = true -> hex_colour color = true.
Proof.
  unfold RegExp.test, RegExp.exec, hex_pattern. intros H.
  destruct (RegExp.m _ color _ _) as [res|] eqn:E; [clear H|discriminate].
  cbn [RegExp.m] in E.
  destruct color as [|c0 digits]; [discriminate|].
  destruct (Ascii.eqb_spec "#" c0) as [<-|]; [|discriminate].
  cbn [hex_colour].
  match type of E with
  | match ?x with _ => _ end = _ => destruct x as [r3|] eqn:E3
  end.
  - apply rep_class_exact in E3 as (s' & Hk & Hl & Hall).
    destruct s'; [|discriminate]. simpl in Hl.
    rewrite firstn_all2 in Hall by (rewrite length_list_ascii; lia).
    rewrite Hall, Hl. reflexivity.
  - apply rep_class_exact in E as (s' & Hk & Hl & Hall).
    destruct s'; [|discriminate]. simpl in Hl.
    rewrite firstn_all2 in Hall by (rewrite length_list_ascii; lia).
    rewrite Hall, Hl. reflexivity.
Qed.

Lemma rgb_pattern_accepts color :
  RegExp.test 7 rgb_pattern color = true ->
  prefix "rgb(" color = true \/ prefix "rgba(" color = true.
Proof.
  unfold RegExp.test, RegExp.exec, rgb_pattern. intros H.
  destruct (RegExp.m _ color _ _) as [res|] eqn:E; [clear H|discriminate].
  cbn [RegExp.m RegExp.seq fold_right] in E.
  match type of E with
  | match ?x with _ => _ end = _ => destruct x as [r3|] eqn:E3
  end.
  - left. exact (m_lit "rgb(" _ _ _ _ E3).
  - right. exact (m_lit "rgba(" _ _ _ _ E).
Qed.

End PatternFacts.

(** X16.  A colour that starts with neither [rgb(] nor [rgba(] and is not a
    [#] with three or six hexadecimal digits is not understood: the
    result is [null], whatever the opacity. *)
Theorem other_colours_are_not_understood color opacity :
  prefix "rgb(" color = false ->
  prefix "rgba(" color = false ->
  hex_colour color = false ->
  glslColor color opacity = None.
Proof.
  intros Hrgb Hrgba Hhex. unfold glslColor.
  destruct (RegExp.test 7 rgb_pattern color) eqn:E1.
  - apply PatternFacts.rgb_pattern_accepts in E1 as [E|E]; congruence.
  - destruct (RegExp.test 1 hex_pattern color) eqn:E2; [|reflexivity].
    apply PatternFacts.hex_pattern_accepts in E2. congruence.
Qed.

Lemma other_colours_are_not_understood_witness :
  glslColor "red" 1 = None /\ glslColor "#ff00" 1 = None /\
  glslColor "hsl(0, 100%, 50%)" 1 = None.
Proof.
  split; [|split]; apply other_colours_are_not_understood; reflexivity.
Defined.

Module RgbFacts.

Lemma digit_cases c : RegExp.digit c = true -> In c decimal_digits.
Proof.
  destruct c as [[] [] [] [] [] [] [] []]; intros H;
    try discriminate H; vm_compute; tauto.
Qed.

Lemma digit_not_space c : RegExp.digit c = true -> RegExp.space c = false.
Proof.
  intros H. apply digit_cases in H. simpl in H.
  repeat (destruct H as [<-|H]; [reflexivity|]). contradiction.
Qed.

Ltac each_digit H :=
  apply digit_cases in H; unfold decimal_digits in H; simpl in H;
  repeat (destruct H as [<-|H]; [|]); try contradiction.

Lemma parseInt_decimal r :
  digits_1_3 r = true ->
  ParseInt.parseInt (Some r) None = Js.of_Z (decimal r).
Proof.
  unfold digits_1_3. intros H.
  apply andb_prop in H as [H Hd]. apply andb_prop in H as [H1 H3].
  destruct r as [|a [|b [|c [|]]]]; try discriminate.
  - simpl in Hd. apply andb_prop in Hd as [Ha _].
    each_digit Ha; vm_compute; reflexivity.
  - simpl in Hd. apply andb_prop in Hd as [Ha Hd]. apply andb_prop in Hd as [Hb _].
    each_digit Ha; each_digit Hb; vm_compute; reflexivity.
  - simpl in Hd. apply andb_prop in Hd as [Ha Hd]. apply andb_prop in Hd as [Hb Hd].
    apply andb_prop in Hd as [Hc _].
    each_digit Ha; each_digit Hb; each_digit Hc; vm_compute; reflexivity.
Qed.

Lemma length_append (s t : string) :
  String.length (s ++ t) = (String.length s + String.length t)%nat.
Proof. induction s; simpl; congruence. Qed.

Lemma substring_front (s t : string) :
  substring 0 (String.length s) (s ++ t) = s.
Proof. induction s; simpl; [destruct t; reflexivity|congruence]. Qed.

Lemma consumed_front (s t : string) : RegExp.consumed (s ++ t) t = s.
Proof.
  unfold RegExp.consumed. rewrite length_append.
  replace (String.length s + String.length t - String.length t)%nat
    with (String.length s) by lia.
  apply substring_front.
Qed.

Lemma rep_S ma lo hi s caps k :
  RegExp.rep ma lo (S hi) s caps k
  = match ma s caps (fun s' caps' => RegExp.rep ma (Nat.pred lo) hi s' caps' k) with
    | Some res => Some res
    | None => if (lo =? 0)%nat then k s caps else None
    end.
Proof. reflexivity. Qed.

Lemma m_class p c s caps k :
  RegExp.m (RegExp.Class p) (String c s) caps k = if p c then k s caps else None.
Proof. reflexivity. Qed.

(** A greedy run of a class takes all of [cs] when what follows is not of
    the class. *)
Lemma rep_class_greedy p : forall hi lo cs rest caps k res,
  forallb p (list_ascii_of_string cs) = true ->
  (lo <= String.length cs <= hi)%nat ->
  match rest with EmptyString => True | String c _ => p c = false end ->
  k rest caps = Some res ->
  RegExp.rep (RegExp.m (RegExp.Class p)) lo hi (cs ++ rest) caps k = Some res.
Proof.
  induction hi as [|hi IH]; intros lo cs rest caps k res Hall Hlen Hrest Hk.
  - destruct cs; [|simpl in Hlen; lia]. simpl in *.
    replace lo with O by lia. exact Hk.
  - rewrite rep_S. destruct cs as [|c cs].
    + simpl in Hlen. replace lo with O by lia. cbn [append Nat.eqb].
      destruct rest as [|c rest]; [exact Hk|].
      rewrite m_class, Hrest. exact Hk.
    + simpl in Hall. apply andb_prop in Hall as [Hc Hall].
      cbn [append]. rewrite m_class, Hc.
      rewrite (IH (Nat.pred lo) cs rest caps k res); auto.
      simpl in Hlen. lia.
Qed.

Lemma m_seq a b s caps k :
  RegExp.m (RegExp.Seq a b) s caps k
  = RegExp.m a s caps (fun s' caps' => RegExp.m b s' caps' k).
Proof. reflexivity. Qed.

Lemma m_char c s caps k : RegExp.m (RegExp.Char c) (String c s) caps k = k s caps.
Proof. simpl. rewrite Ascii.eqb_refl. reflexivity. Qed.

Lemma m_empty s caps k : RegExp.m RegExp.Empty s caps k = k s caps.
Proof. reflexivity. Qed.

Lemma m_alt_left a b s caps k res :
  RegExp.m a s caps k = Some res -> RegExp.m (RegExp.Alt a b) s caps k = Some res.
Proof. intros H. simpl. rewrite H. reflexivity. Qed.

Lemma group_digits i r rest caps (k : RegExp.continuation) res :
  digits_1_3 r = true ->
  match rest with EmptyString => True | String c _ => RegExp.digit c = false end ->
  k rest (RegExp.set i r caps) = Some res ->
  RegExp.m (RegExp.Group i (RegExp.Rep (RegExp.Class RegExp.digit) 1 3))
    (r ++ rest) caps k = Some res.
Proof.
  unfold digits_1_3. intros H Hrest Hk.
  apply andb_prop in H as [H Hd]. apply andb_prop in H as [H1 H3].
  apply Nat.leb_le in H1, H3.
  change (RegExp.rep (RegExp.m (RegExp.Class RegExp.digit)) 1 3 (r ++ rest) caps
            (fun s' caps' =>
               k s' (RegExp.set i (RegExp.consumed (r ++ rest) s') caps'))
          = Some res).
  apply rep_class_greedy; auto.
  rewrite consumed_front. exact Hk.
Qed.

Lemma opt_gap blank g rest caps (k : RegExp.continuation) res :
  digits_1_3 g = true ->
  k (g ++ rest)%string caps = Some res ->
  RegExp.m (RegExp.Opt (RegExp.Class RegExp.space)) (gap blank ++ g ++ rest) caps k
  = Some res.
Proof.
  intros Hg Hk. destruct blank; cbn [gap append RegExp.m].
  - change (RegExp.space " ") with true. cbn iota. rewrite Hk. reflexivity.
  - unfold digits_1_3 in Hg.
    destruct g as [|c g]; [discriminate|].
    apply andb_prop in Hg as [_ Hd]. simpl in Hd. apply andb_prop in Hd as [Hc _].
    cbn [append] in *. rewrite (digit_not_space c Hc). exact Hk.
Qed.

Ltac pattern_step :=
  cbv beta; cbn [append];
  first [ rewrite m_seq
        | rewrite m_char
        | rewrite m_empty
        | apply group_digits; [assumption|reflexivity|]
        | apply opt_gap; [assumption|] ].

Lemma rgb_pattern_on_rgb r g b blank1 blank2 :
  digits_1_3 r = true -> digits_1_3 g = true -> digits_1_3 b = true ->
  RegExp.exec 7 rgb_pattern (rgb_text r g b blank1 blank2)
  = Some [Some (rgb_text r g b blank1 blank2); Some r; Some g; Some b;
          None; None; None; None].
Proof.
  intros Hr Hg Hb. unfold RegExp.exec, rgb_pattern.
  apply m_alt_left.
  cbn [RegExp.seq fold_right RegExp.lit]. unfold rgb_text at 1.
  repeat pattern_step. reflexivity.
Qed.

End RgbFacts.

(** X17.  An [rgb(r,g,b)] colour, with or without a blank after each comma,
    gives each number on the scale that takes 255 to 1, with the opacity
    asked for.  Any number of one to three digits is taken: nothing keeps
    a channel from exceeding 1. *)
Theorem rgb_colours_are_scaled_not_checked r g b blank1 blank2 opacity :
  digits_1_3 r = true -> digits_1_3 g = true -> digits_1_3 b = true ->
  glslColor (rgb_text r g b blank1 blank2) opacity
  = Some (scaleRGBToVec4 (Js.of_Z (decimal r)),
          scaleRGBToVec4 (Js.of_Z (decimal g)),
          scaleRGBToVec4 (Js.of_Z (decimal b)), opacity).
Proof.
  intros Hr Hg Hb. unfold glslColor, RegExp.test.
  rewrite RgbFacts.rgb_pattern_on_rgb by assumption.
  unfold RegExp.get. cbn [nth_error].
  rewrite !RgbFacts.parseInt_decimal by assumption. reflexivity.
Qed.

Lemma rgb_colours_are_scaled_not_checked_witness :
  glslColor "rgb(999, 128,0)" 1
  = Some (scaleRGBToVec4 999, scaleRGBToVec4 128, scaleRGBToVec4 0, 1) /\
  (1 <? scaleRGBToVec4 999) = true.
Proof.
  split; [|reflexivity].
  exact (rgb_colours_are_scaled_not_checked "999" "128" "0" true false 1
           eq_refl eq_refl eq_refl).
Defined.

(** ** Highlight, tooltip and the constructor *)






Section Tooltip.

Lemma getNodeByIndex_data g g' i :
  same_data g g' -> getNodeByIndex g' i = getNodeByIndex g i.
Proof.
  intros (_ & _ & _ & Hg & Hi & _). unfold getNodeByIndex, nodeIndex_get.
  now rewrite Hg, Hi.
Qed.

Lemma setHoveredNode_tooltip g idx :
  tooltip_shown (Quiet.setHoveredNode g idx) = tooltip_shown g /\
  hoveredNode (state (Quiet.setHoveredNode g idx)) = or_default idx (-1)%Z.
Proof.
  unfold Quiet.setHoveredNode. set (i := or_default idx (-1)%Z). cbv zeta.
  destruct (Z.eqb_spec (hoveredNode (state g)) i) as [E|E]; cbn [negb].
  - split; [reflexivity|exact E].
  - unfold set_state_hoveredNode.
    destruct (Z.eqb_spec (hoveredNode (state g)) i) as [E'|_]; [contradiction|].
    unfold hoveredNodeWatcher. destruct (_ && _); split; reflexivity.
Qed.

Lemma setSelectedNode_tooltip g idx :
  tooltip_shown (Quiet.setSelectedNode g idx) = tooltip_shown g /\
  hoveredNode (state (Quiet.setSelectedNode g idx)) = hoveredNode (state g).
Proof.
  unfold Quiet.setSelectedNode. cbv zeta.
  destruct (negb (selectedNode (state g) =? _)%Z); [|split; reflexivity].
  destruct (negb (or_default idx (-1) =? -1)%Z); split; reflexivity.
Qed.

Lemma highlight_tooltip g ids g' :
  Quiet.highlight g ids = Js.Normal g' ->
  tooltip_shown g' = tooltip_shown g /\
  hoveredNode (state g') = hoveredNode (state g).
Proof.
  unfold Quiet.highlight. destruct ids as [ids|]; simpl.
  - destruct (resolve_ids (app_graph g) ids) as [l|msg]; simpl; [|discriminate].
    intros H. injection H as <-. simpl.
    match goal with
    | |- context [Quiet.setSelectedNode ?h None] =>
        destruct (setSelectedNode_tooltip h None) as [-> ->]
    end.
    split; reflexivity.
  - intros H. injection H as <-. split; reflexivity.
Qed.

Lemma follows_same g g' :
  same_data g g' ->
  tooltip_shown g' = tooltip_shown g ->
  hoveredNode (state g') = hoveredNode (state g) ->
  tooltip_follows_hover g -> tooltip_follows_hover g'.
Proof.
  unfold tooltip_follows_hover. intros Hd -> -> ->.
  now rewrite (getNodeByIndex_data g g' _ Hd).
Qed.

Lemma shown_tooltip h c t :
  t = (if (hoveredNode (state h) =? -1)%Z then None
       else Some (getNodeByIndex h (hoveredNode (state h)))) ->
  tooltip_follows_hover (with_tooltip (setCursorStyle h c) t).
Proof. intros ->. reflexivity. Qed.

Lemma perform_tooltip g op g' :
  Quiet.perform g op = Js.Normal g' ->
  tooltip_follows_hover g -> tooltip_follows_hover g'.
Proof.
  intros H. pose proof (perform_data g op g' H) as Hd.
  destruct op as [ev|ev| | |x y k| |ids]; simpl in H.
  - unfold Quiet.handleMouseMove in H.
    set (g0 := with_state g _) in H.
    destruct (negb (mouseDown (state g0))).
    + destruct (raycast g0) as [r|msg]; simpl in H; [|discriminate].
      intros _.
      destruct (truthy_index r) eqn:Et; injection H as <-;
        apply shown_tooltip;
        match goal with
        | |- context [Quiet.setHoveredNode ?h ?i] =>
            destruct (setHoveredNode_tooltip h i) as [_ ->];
            rewrite (getNodeByIndex_data h _ _ (setHoveredNode_data h i))
        end.
      * destruct r as [[|k]|]; try discriminate Et. cbn [index_value option_map or_default].
        destruct (Z.eqb_spec (Z.of_nat (S k)) (-1)) as [E|_]; [lia|].
        reflexivity.
      * reflexivity.
    + injection H as <-. apply follows_same; auto.
  - unfold Quiet.handleClick in H.
    destruct (raycast g) as [r|msg]; simpl in H; [|discriminate].
    set (g1 := Quiet.render _) in H.
    assert (E1 : tooltip_shown g1 = tooltip_shown g /\
                 hoveredNode (state g1) = hoveredNode (state g))
      by (split; reflexivity).
    destruct E1 as [Et Eh].
    destruct (truthy_index r); simpl in H; injection H as <-;
      apply follows_same; auto;
      match goal with
      | |- context [Quiet.setSelectedNode ?h ?i] =>
          destruct (setSelectedNode_tooltip h i) as [Ht' Hh']
      end;
      [exact (eq_trans Ht' Et) | exact (eq_trans Hh' Eh)
      |exact (eq_trans Ht' Et) | exact (eq_trans Hh' Eh)].
  - injection H as <-. apply follows_same; auto.
  - injection H as <-. apply follows_same; auto.
    + unfold Quiet.handleMouseUp. simpl. destruct (inAnimation _); reflexivity.
    + unfold Quiet.handleMouseUp. simpl. destruct (inAnimation _); reflexivity.
  - injection H as <-. apply follows_same; auto.
    + unfold Quiet.handleZoom. destruct (mouseDown _); reflexivity.
    + unfold Quiet.handleZoom. destruct (mouseDown _); reflexivity.
  - injection H as <-. apply follows_same; auto.
  - destruct (highlight_tooltip g ids g' H). apply follows_same; auto.
Qed.

Lemma perform_all_tooltip ops : forall g g',
  Quiet.perform_all g ops = Js.Normal g' ->
  tooltip_follows_hover g -> tooltip_follows_hover g'.
Proof.
  induction ops as [|op ops IH]; intros g g' H; simpl in H.
  - injection H as <-. auto.
  - destruct (Quiet.perform g op) as [g1|msg] eqn:E; simpl in H; [|discriminate].
    intros Hf. eapply IH; [exact H|]. eapply perform_tooltip; eassumption.
Qed.

End Tooltip.

Lemma constructor_tooltip dpr container data options g :
  Quiet.constructor dpr container data options = Js.Normal g ->
  tooltip_shown g = None.
Proof.
  unfold Quiet.constructor.
  destruct container; [|discriminate]. destruct data; [|discriminate].
  destruct (data_nodes _); [|discriminate].
  destruct (_ && _); [discriminate|].
  unfold Quiet.init. destruct (loadData _ _ _ _ _); simpl; [|discriminate].
  intros H. injection H as <-. reflexivity.
Qed.

(** X19.  On a constructed object, as long as the calls the mouse and the
    host make return, the tooltip goes with the hovered node: it is hidden
    exactly when no node is hovered, and otherwise it shows the hovered
    node.  A click, a zoom or a highlight leaves the tooltip as it is.
    (A call whose frame cannot be drawn throws out of [render()], after
    the hovered node was written and before the tooltip is shown or
    hidden: what the tooltip shows after such a call is not covered
    here.) *)
Theorem tooltip_shows_the_hovered_node dpr container data options g ops g' :
  constructor dpr container data options = Js.Normal g ->
  perform_all g ops = Js.Normal g' ->
  tooltip_follows_hover g'.
Proof.
  intros Hc Hp.
  apply constructor_quiet in Hc. apply perform_all_quiet in Hp.
  apply (perform_all_tooltip ops g g' Hp).
  destruct (constructor_loaded _ _ _ _ _ Hc)
    as (c0 & d0 & nodes0 & sc0 & l0 & _ & _ & _ & _ & _ & _ & _ & _ & _ & _ & _
        & _ & _ & Hst & _).
  unfold tooltip_follows_hover. rewrite Hst. simpl.
  eapply constructor_tooltip, Hc.
Qed.

(** The demo data: the pointer goes to node [b], then a click there: the
    tooltip shows [b] after both. *)
Lemma tooltip_shows_the_hovered_node_witness :
  exists g g',
    demo = Js.Normal g /\
    perform_all g [MouseMove (mouse_at 456 456); Click (mouse_at 456 456)]
    = Js.Normal g' /\
    hoveredNode (state g') = 1%Z /\
    tooltip_shown g' = Some (getNodeByIndex g' 1).
Proof.
  eexists. eexists.
  split; [vm_compute; reflexivity|].
  split; [vm_compute; reflexivity|].
  split; [reflexivity|].
  match goal with
  | |- tooltip_shown ?g' = _ =>
      exact (tooltip_shows_the_hovered_node 1 (Some demo_container)
               (Some demo_data) (with_graphMargin 56) _
               [MouseMove (mouse_at 456 456); Click (mouse_at 456 456)] g'
               ltac:(vm_compute; reflexivity) ltac:(vm_compute; reflexivity))
  end.
Defined.

(** X20.  The constructor returns exactly on this input: a container, data
    with [nodes], every node with a truthy [x] and [y] or a [position]
    object, and, unless [showEdges] is [false], an [edges] array that is
    not empty and whose edges each join two nodes of the data.  The object
    it returns has drawn one frame and raised no event; no node is
    hovered, selected or highlighted and the tooltip is hidden.  On any
    other input it throws. *)
Theorem constructor_returns_exactly_on_loadable_input
  dpr container data options :
  (input_ok container data options = true ->
   exists g,
     constructor dpr container data options = Js.Normal g /\
     trace g = [Render (state g)] /\
     hoveredNode (state g) = (-1)%Z /\ selectedNode (state g) = (-1)%Z /\
     highlightedNodes (state g) = [] /\ tooltip_shown g = None) /\
  (input_ok container data options = false ->
   Js.throws (constructor dpr container data options) = true).
Proof.
  split; intros H.
  - apply (constructor_returns dpr) in H as [g Hc]. exists g.
    split; [exact (constructor_returns_quiet _ _ _ _ _ Hc)|].
    destruct (constructor_loaded _ _ _ _ _ Hc)
      as (c0 & d0 & nodes0 & sc0 & l0 & _ & _ & _ & _ & _ & _ & _ & _ & _ & _
          & _ & _ & _ & Hst & Ht).
    split; [exact Ht|]. rewrite Hst. simpl.
    repeat split. eapply constructor_tooltip, Hc.
  - destruct (constructor dpr container data options) as [g|msg] eqn:E;
      [|reflexivity].
    assert (Hok : input_ok container data options = true)
      by (apply (constructor_returns dpr); eauto using constructor_quiet).
    congruence.
Qed.

(** The demo data is constructed; with an empty [edges] array it is
    not. *)
Lemma constructor_returns_exactly_on_loadable_input_witness :
  (exists g, demo = Js.Normal g /\ trace g = [Render (state g)]) /\
  Js.throws
    (constructor 1 (Some demo_container)
       (Some {| data_nodes := data_nodes demo_data; data_edges := Some [] |})
       (with_graphMargin 56)) = true.
Proof.
  split.
  - destruct (proj1 (constructor_returns_exactly_on_loadable_input
                       1 (Some demo_container) (Some demo_data)
                       (with_graphMargin 56))
                ltac:(vm_compute; reflexivity)) as (g & Hc & Ht & _).
    exists g. split; assumption.
  - apply (proj2 (constructor_returns_exactly_on_loadable_input
                    1 (Some demo_container)
                    (Some {| data_nodes := data_nodes demo_data;
                             data_edges := Some [] |})
                    (with_graphMargin 56))).
    vm_compute. reflexivity.
Defined.
